(** * pdft/inversion.py: the partition-potential inversion engine

    A shallow embedding of the class [Inversion] of [pdft/inversion.py] and
    the properties of it that the specification states.

    Numbers.  The program computes with numpy/psi4 double precision numbers.
    The embedding is generic in the number type: a [Scalar] is a carrier
    with the constants and operations the source uses and no law at all, so
    that every statement proved without an arithmetic hypothesis holds of
    the floating point program as it is.  Where a property needs a law of
    arithmetic, the law is a hypothesis of the theorem; the laws are those
    of exact arithmetic and they are discharged at the rationals [Qc].

    Arrays.  A one-dimensional numpy array is a [list], a matrix a list of
    rows, a rank four tensor a list of lists of matrices.  Elementwise
    operations follow numpy: operands of one shape are combined entry by
    entry, an axis of length one is stretched, anything else raises.  A
    contraction ([opt_einsum.contract]) checks that every label has one
    size and then sums the products in index order; the statements below
    use contractions on operands whose labels agree and otherwise only
    that a contraction either returns or raises.

    Effects.  Methods mutate [self] and the fragments and may raise, and a
    raise leaves the mutations made so far in place: they are computations
    in a state-and-exception monad over a [World], the object, its
    fragments and the log of the calls to external collaborators.  The
    collaborators are parameters: the re-solve of a fragment ([scf]) and
    [np.linalg.pinv] are functions, printing and plotting (with
    [basis_to_grid], [axis_plot] and matplotlib) are events of the log that
    do not raise.  The method [axis_plot] itself reads no attribute: it is a
    pure computation, generic in the comparison of numbers and in
    [argsort]. *)

From Stdlib Require Import String QArith Qcanon Qcabs.
From Stdlib Require Import ZArith Lia Bool Arith PeanoNat Permutation List.
Import ListNotations.
Local Open Scope nat_scope.
Local Open Scope string_scope.
Local Open Scope list_scope.

(** ** Scalars *)

Class Scalar : Type := {
  F : Type;
  f0 : F;                       (* 0.0 *)
  f1 : F;                       (* 1.0 *)
  fhalf : F;                    (* 0.5 *)
  fadd : F -> F -> F;
  fsub : F -> F -> F;
  fmul : F -> F -> F;
  fdiv : F -> F -> F;
  fopp : F -> F;
  fabs : F -> F
}.

(** The laws of exact arithmetic that the algebraic statements use. *)
Record ExactArith (R : Scalar) : Prop := {
  fadd_comm : forall x y : F, fadd x y = fadd y x;
  fadd_assoc : forall x y z : F, fadd x (fadd y z) = fadd (fadd x y) z;
  fadd_0_l : forall x : F, fadd f0 x = x;
  fmul_0_r : forall x : F, fmul x f0 = f0;
  fmul_1_l : forall x : F, fmul f1 x = x;
  fsub_opp : forall x y : F, fsub x y = fopp (fsub y x)
}.
Arguments fadd_comm {R} _ _ _.
Arguments fadd_assoc {R} _ _ _ _.
Arguments fadd_0_l {R} _ _.
Arguments fmul_0_r {R} _ _.
Arguments fmul_1_l {R} _ _.
Arguments fsub_opp {R} _ _ _.

(** ** Exceptions *)

Inductive exn : Type :=
| ValueError (msg : string)
| IndexError
| KeyError (key : nat)
| TypeError
| AttributeError
| UnboundLocalError (name : string)
| RuntimeError (msg : string)
| PyException (msg : string).

(** The names the specification gives to the failures of the engine. *)
Definition ConfigurationError : exn :=
  ValueError "Density on the grid not avaliable for molecule. Please run scf with get_ingredients as True".
Definition GridMismatchError : exn :=
  ValueError "Grid of fragments does not match Grid of molecule. Try incresing DFT_SPHERICAL_POINTS".
Definition MaxIterationsExceeded : exn :=
  PyException "Maximum number of SCF cycles exceeded for vp".
Definition BlocksInconsistent : exn :=
  PyException "Number of blocks is inconsistent".
(** [vp_zc] has no [raise]: with unequal occupations its local [x] is read
    before any assignment. *)
Definition UnimplementedVariantError : exn := UnboundLocalError "x".
(** What numpy raises for operands of different shapes. *)
Definition BroadcastError : exn :=
  ValueError "operands could not be broadcast together".
(** What [contract] raises when a label has two sizes. *)
Definition ContractError : exn :=
  ValueError "Size of label does not match for the operands".
(** What psi4 raises when [axpy] is given a matrix of another shape. *)
Definition AxpyError : exn := RuntimeError "Matrix::axpy: shapes do not match".

Definition exn_eqb (a b : exn) : bool :=
  match a, b with
  | ValueError s, ValueError t => String.eqb s t
  | IndexError, IndexError => true
  | KeyError i, KeyError j => Nat.eqb i j
  | TypeError, TypeError => true
  | AttributeError, AttributeError => true
  | UnboundLocalError s, UnboundLocalError t => String.eqb s t
  | RuntimeError s, RuntimeError t => String.eqb s t
  | PyException s, PyException t => String.eqb s t
  | _, _ => false
  end.

(** ** Pure computations that may raise *)

Inductive result (A : Type) : Type :=
| Ok (a : A)
| Err (e : exn).
Arguments Ok {A} a.
Arguments Err {A} e.

Definition rbind {A B} (r : result A) (k : A -> result B) : result B :=
  match r with
  | Ok a => k a
  | Err e => Err e
  end.

Declare Scope result_scope.
Delimit Scope result_scope with result.
Notation "x <- c ;; k" := (rbind c (fun x => k))
  (at level 61, c at next level, right associativity) : result_scope.
Notation "' pat <- c ;; k" := (rbind c (fun x => match x with pat => k end))
  (at level 61, pat pattern, c at next level, right associativity) : result_scope.
Open Scope result_scope.

(** [for x in xs: acc = step(acc, x)] *)
Fixpoint foldM {A B} (step : A -> B -> result A) (acc : A) (xs : list B) : result A :=
  match xs with
  | [] => Ok acc
  | x :: xs' => acc' <- step acc x ;; foldM step acc' xs'
  end.

(** [[f(x) for x in xs]] *)
Fixpoint mapM {A B} (f : A -> result B) (xs : list A) : result (list B) :=
  match xs with
  | [] => Ok []
  | x :: xs' => y <- f x ;; ys <- mapM f xs' ;; Ok (y :: ys)
  end.

(** [xs[i]] *)
Definition index {A} (xs : list A) (i : nat) : result A :=
  match nth_error xs i with
  | Some x => Ok x
  | None => Err IndexError
  end.

(** An elementwise operation on two arrays of one length. *)
Fixpoint ewise {A B C} (shape_exn : exn) (f : A -> B -> result C)
         (xs : list A) (ys : list B) : result (list C) :=
  match xs, ys with
  | [], [] => Ok []
  | x :: xs', y :: ys' =>
      c <- f x y ;; cs <- ewise shape_exn f xs' ys' ;; Ok (c :: cs)
  | _, _ => Err shape_exn
  end.

(** numpy's in-place [xs op= ys]: [ys] is stretched to [xs] when it has
    length one along this axis. *)
Definition bcast {A B} (f : A -> B -> result A) (xs : list A) (ys : list B)
  : result (list A) :=
  match ys with
  | [y] => mapM (fun x => f x y) xs
  | _ => ewise BroadcastError f xs ys
  end.

(** numpy's [xs op ys]: either operand is stretched when it has length one
    along this axis. *)
Definition bcast2 {A} (f : A -> A -> result A) (xs ys : list A) : result (list A) :=
  match xs, ys with
  | [x], _ => mapM (f x) ys
  | _, [y] => mapM (fun x => f x y) xs
  | _, _ => ewise BroadcastError f xs ys
  end.

(** [[f(0), ..., f(n-1)]] *)
Definition tab {A} (n : nat) (f : nat -> A) : list A := map f (seq 0 n).

(** The index of the last occurrence of [x] in [xs]. *)
Fixpoint rindex (xs : list nat) (x : nat) : option nat :=
  match xs with
  | [] => None
  | y :: xs' =>
      match rindex xs' x with
      | Some k => Some (S k)
      | None => if Nat.eqb y x then Some 0 else None
      end
  end.

(** ** Arrays *)

Section Arrays.
Context {R : Scalar}.

Definition Vector := list F.
Definition Matrix := list Vector.
Definition Tensor3 := list Matrix.
Definition Tensor4 := list Tensor3.

(** [np.zeros(n)], [np.zeros((r, c))], [np.zeros((a, b, c, d))] *)
Definition zeros (n : nat) : Vector := repeat f0 n.
Definition zeros2 (r c : nat) : Matrix := repeat (zeros c) r.
Definition zeros4 (a b c d : nat) : Tensor4 := repeat (repeat (zeros2 c d) b) a.
(** [np.zeros_like] *)
Definition zeros_like (v : Vector) : Vector := map (fun _ => f0) v.
Definition zeros_like2 (m : Matrix) : Matrix := map zeros_like m.

(** numpy's binary operations ([a + b], [a - b], [a * b]) and in-place
    operations ([a += b]) on vectors and matrices. *)
Definition vbin (op : F -> F -> F) : Vector -> Vector -> result Vector :=
  bcast2 (fun a b => Ok (op a b)).
Definition mbin (op : F -> F -> F) : Matrix -> Matrix -> result Matrix :=
  bcast2 (vbin op).
Definition viop (op : F -> F -> F) : Vector -> Vector -> result Vector :=
  bcast (fun a b => Ok (op a b)).
Definition miop (op : F -> F -> F) : Matrix -> Matrix -> result Matrix :=
  bcast (viop op).

(** [c * m] for a number [c] *)
Definition vscale (c : F) (v : Vector) : Vector := map (fmul c) v.
Definition mscale (c : F) (m : Matrix) : Matrix := map (vscale c) m.

(** The sum of a sequence of numbers, accumulated from zero in order. *)
Definition fsum (xs : list F) : F := fold_left fadd xs f0.

(** [psi4.core.Matrix.axpy]: [self += a * X]. *)
Definition axpy (a : F) (X self : Matrix) : result Matrix :=
  ewise AxpyError
        (ewise AxpyError (fun s x => Ok (fadd s (fmul a x)))) self X.

(** [m.T] of a matrix with [c] columns *)
Definition column (m : Matrix) (j : nat) : Vector := map (fun r => nth j r f0) m.
Definition ncols (m : Matrix) : nat :=
  match m with
  | [] => 0
  | r :: _ => length r
  end.
Definition transpose (m : Matrix) : Matrix := map (column m) (seq 0 (ncols m)).

(** Reading entries: [entry m i j] is [m[i][j]] when it exists. *)
Definition entry (m : Matrix) (i j : nat) : option F :=
  match nth_error m i with
  | Some r => nth_error r j
  | None => None
  end.
Definition at1 (v : Vector) (p : nat) : F := nth p v f0.
Definition at2 (m : Matrix) (i j : nat) : F := nth j (nth i m []) f0.

Definition has_len (n : nat) (v : Vector) : Prop := length v = n.
Definition has_shape (r c : nat) (m : Matrix) : Prop :=
  length m = r /\ Forall (has_len c) m.

Definition symmetric (m : Matrix) : Prop :=
  forall i j, entry m i j = entry m j i.

(** [0.5 * (m + m.T)] *)
Definition symmetrize (m : Matrix) : result Matrix :=
  s <- mbin fadd m (transpose m) ;; Ok (mscale fhalf s).

End Arrays.

(** ** The data model *)

Section Engine.
Context {R : Scalar}.

(** A block of the quadrature grid, as [Vpot.get_block(block)] gives it,
    with the values the points function reports for it. *)
Record GridBlock : Type := {
  block_npoints : nat;              (* grid_block.npoints() *)
  block_lpos : list nat;            (* grid_block.functions_local_to_global() *)
  block_w : Vector;                 (* grid_block.w() *)
  block_PHI : Matrix                (* points_func.basis_values()["PHI"] after
                                       points_func.compute_points(grid_block) *)
}.

(** What [_core_vbase_get_np_xyzw] returns: the coordinates and the weights
    of all the points of a grid. *)
Record XYZW : Type := {
  pts_x : Vector;
  pts_y : Vector;
  pts_z : Vector;
  pts_w : Vector
}.

Record VBase : Type := {
  np_xyzw : XYZW;                   (* _core_vbase_get_np_xyzw(Vpot) *)
  blocks : list GridBlock           (* Vpot.get_block(0 .. Vpot.nblocks()-1) *)
}.

(** The reference molecule and the fragments are objects of one class.  The
    dictionaries [orbitals["alpha_r"]] and [orbitals["beta_r"]] have the keys
    [str(0)], [str(1)], ...: they are the lists of their values in key
    order, and a key that is missing is an index past the end. *)
Record Molecule : Type := {
  energy : F;
  Enuc : F;
  nalpha : nat;
  nbeta : nat;
  nbf : nat;
  Da : Matrix;
  Db : Matrix;
  Ca : Matrix;
  Cb : Matrix;
  eigs_a : Vector;
  eigs_b : Vector;
  density_da : list Vector;         (* ingredients["density"]["da"] *)
  density_db : list Vector;         (* ingredients["density"]["db"] *)
  grid_w : list Vector;             (* ingredients["grid"]["w"] *)
  alpha_r : list (list Vector);     (* orbitals["alpha_r"] *)
  beta_r : list (list Vector);      (* orbitals["beta_r"] *)
  Vpot : VBase;
  ao_eri : Tensor4                  (* mints.ao_eri().np *)
}.

(** The attributes of an [Inversion] object; [None] is an attribute that is
    [None] or not assigned yet. *)
Record Inversion : Type := {
  frags : list Molecule;
  nfrag : nat;
  molecule : Molecule;
  self_nbf : nat;                   (* self.nbf *)
  nblocks : option nat;
  frag_e : option F;
  frag_energy : option F;
  frag_da_nm : option Matrix;
  frag_db_nm : option Matrix;
  frag_da_r : option (list Vector);
  frag_db_r : option (list Vector);
  frag_orbitals_r : option unit;
  vp : option (Matrix * Matrix);
  ep : option F
}.

Definition set_frags (v : list Molecule) (s : Inversion) : Inversion :=
  {| frags := v; nfrag := nfrag s; molecule := molecule s;
     self_nbf := self_nbf s; nblocks := nblocks s; frag_e := frag_e s;
     frag_energy := frag_energy s; frag_da_nm := frag_da_nm s;
     frag_db_nm := frag_db_nm s; frag_da_r := frag_da_r s;
     frag_db_r := frag_db_r s; frag_orbitals_r := frag_orbitals_r s;
     vp := vp s; ep := ep s |}.
Definition set_nblocks (v : option nat) (s : Inversion) : Inversion :=
  {| frags := frags s; nfrag := nfrag s; molecule := molecule s;
     self_nbf := self_nbf s; nblocks := v; frag_e := frag_e s;
     frag_energy := frag_energy s; frag_da_nm := frag_da_nm s;
     frag_db_nm := frag_db_nm s; frag_da_r := frag_da_r s;
     frag_db_r := frag_db_r s; frag_orbitals_r := frag_orbitals_r s;
     vp := vp s; ep := ep s |}.
Definition set_frag_energy (v : option F) (s : Inversion) : Inversion :=
  {| frags := frags s; nfrag := nfrag s; molecule := molecule s;
     self_nbf := self_nbf s; nblocks := nblocks s; frag_e := frag_e s;
     frag_energy := v; frag_da_nm := frag_da_nm s;
     frag_db_nm := frag_db_nm s; frag_da_r := frag_da_r s;
     frag_db_r := frag_db_r s; frag_orbitals_r := frag_orbitals_r s;
     vp := vp s; ep := ep s |}.
Definition set_frag_nm (a b : option Matrix) (s : Inversion) : Inversion :=
  {| frags := frags s; nfrag := nfrag s; molecule := molecule s;
     self_nbf := self_nbf s; nblocks := nblocks s; frag_e := frag_e s;
     frag_energy := frag_energy s; frag_da_nm := a;
     frag_db_nm := b; frag_da_r := frag_da_r s;
     frag_db_r := frag_db_r s; frag_orbitals_r := frag_orbitals_r s;
     vp := vp s; ep := ep s |}.
Definition set_frag_r (a b : option (list Vector)) (s : Inversion) : Inversion :=
  {| frags := frags s; nfrag := nfrag s; molecule := molecule s;
     self_nbf := self_nbf s; nblocks := nblocks s; frag_e := frag_e s;
     frag_energy := frag_energy s; frag_da_nm := frag_da_nm s;
     frag_db_nm := frag_db_nm s; frag_da_r := a;
     frag_db_r := b; frag_orbitals_r := frag_orbitals_r s;
     vp := vp s; ep := ep s |}.
Definition set_vp (v : option (Matrix * Matrix)) (s : Inversion) : Inversion :=
  {| frags := frags s; nfrag := nfrag s; molecule := molecule s;
     self_nbf := self_nbf s; nblocks := nblocks s; frag_e := frag_e s;
     frag_energy := frag_energy s; frag_da_nm := frag_da_nm s;
     frag_db_nm := frag_db_nm s; frag_da_r := frag_da_r s;
     frag_db_r := frag_db_r s; frag_orbitals_r := frag_orbitals_r s;
     vp := v; ep := ep s |}.
Definition set_ep (v : option F) (s : Inversion) : Inversion :=
  {| frags := frags s; nfrag := nfrag s; molecule := molecule s;
     self_nbf := self_nbf s; nblocks := nblocks s; frag_e := frag_e s;
     frag_energy := frag_energy s; frag_da_nm := frag_da_nm s;
     frag_db_nm := frag_db_nm s; frag_da_r := frag_da_r s;
     frag_db_r := frag_db_r s; frag_orbitals_r := frag_orbitals_r s;
     vp := vp s; ep := v |}.

(** ** The world: the object and what its collaborators were asked to do *)

Inductive event : Type :=
| EvScf (frag : nat) (vp_a vp_b : Matrix)   (* frags[frag].scf(vp_mn=[vp_a, vp_b], ...) *)
| EvPrint (step : Z) (error ep ef : F)      (* the line of print_scf *)
| EvPlot (step : Z) (l1_list : list F).     (* the figure of plot_scf *)

(** [log] has the latest event first. *)
Record World : Type := {
  obj : Inversion;
  log : list event
}.

Inductive outcome (A : Type) : Type :=
| Done (a : A) (w : World)
| Raise (e : exn) (w : World).
Arguments Done {A} a w.
Arguments Raise {A} e w.

(** The exception an outcome carries, and the world it leaves. *)
Definition raised {A} (o : outcome A) : option exn :=
  match o with
  | Done _ _ => None
  | Raise e _ => Some e
  end.
Definition final {A} (o : outcome A) : World :=
  match o with
  | Done _ w => w
  | Raise _ w => w
  end.

Definition M (A : Type) : Type := World -> outcome A.

Definition ret {A} (a : A) : M A := fun w => Done a w.
Definition bind {A B} (m : M A) (k : A -> M B) : M B :=
  fun w =>
    match m w with
    | Done a w' => k a w'
    | Raise e w' => Raise e w'
    end.
Definition raise {A} (e : exn) : M A := fun w => Raise e w.
Definition lift {A} (r : result A) : M A :=
  fun w =>
    match r with
    | Ok a => Done a w
    | Err e => Raise e w
    end.
Definition get_self : M Inversion := fun w => Done (obj w) w.
Definition update (f : Inversion -> Inversion) : M unit :=
  fun w => Done tt {| obj := f (obj w); log := log w |}.
Definition emit (e : event) : M unit :=
  fun w => Done tt {| obj := obj w; log := e :: log w |}.
(** Reading an attribute whose value is used as a number or an array. *)
Definition attr {A} (proj : Inversion -> option A) : M A :=
  fun w =>
    match proj (obj w) with
    | Some a => Done a w
    | None => Raise TypeError w
    end.

End Engine.

Arguments Done {R A} a w.
Arguments Raise {R A} e w.

Declare Scope M_scope.
Delimit Scope M_scope with M.
Notation "x <- c ;; k" := (bind c (fun x => k))
  (at level 61, c at next level, right associativity) : M_scope.
Notation "' pat <- c ;; k" := (bind c (fun x => match x with pat => k end))
  (at level 61, pat pattern, c at next level, right associativity) : M_scope.
Notation "c ;;; k" := (bind c (fun _ => k))
  (at level 61, right associativity) : M_scope.

(** ** Contractions *)

Section Contractions.
Context {R : Scalar}.

Definition at4 (t : Tensor4) (i j k l : nat) : F :=
  nth l (nth k (nth j (nth i t []) []) []) f0.

(** The shape of a (rectangular) array. *)
Definition dim0 {A} (t : list A) : nat := length t.
Definition dim1 {A} (t : list (list A)) : nat := length (hd [] t).
Definition dim2 {A} (t : list (list (list A))) : nat := length (hd [] (hd [] t)).
Definition dim3 {A} (t : list (list (list (list A)))) : nat :=
  length (hd [] (hd [] (hd [] t))).

(** A sum over two indices, the first one outermost. *)
Definition fsum2 (n m : nat) (g : nat -> nat -> F) : F :=
  fsum (tab n (fun i => fsum (tab m (fun j => g i j)))).

(** [contract('p,p->', a, b)] *)
Definition contract_p_p (a b : Vector) : result F :=
  if Nat.eqb (length a) (length b)
  then Ok (fsum (tab (length a) (fun p => fmul (at1 a p) (at1 b p))))
  else Err ContractError.

(** [contract('imlj, ml->ij', t, d)] *)
Definition contract_imlj_ml (t : Tensor4) (d : Matrix) : result Matrix :=
  if Nat.eqb (dim1 t) (dim0 d) && Nat.eqb (dim2 t) (dim1 d)
  then Ok (tab (dim0 t) (fun i => tab (dim3 t) (fun j =>
             fsum2 (dim0 d) (dim1 d) (fun m l =>
               fmul (at4 t i m l j) (at2 d m l)))))
  else Err ContractError.

(** [contract('mnls, ls -> mn', t, d)] *)
Definition contract_mnls_ls (t : Tensor4) (d : Matrix) : result Matrix :=
  if Nat.eqb (dim2 t) (dim0 d) && Nat.eqb (dim3 t) (dim1 d)
  then Ok (tab (dim0 t) (fun m => tab (dim1 t) (fun n =>
             fsum2 (dim0 d) (dim1 d) (fun l s =>
               fmul (at4 t m n l s) (at2 d l s)))))
  else Err ContractError.

(** [contract('mi, na, li, sa -> mnls', A, B, C, D)] *)
Definition contract_mi_na_li_sa (A B C D : Matrix) : result Tensor4 :=
  if Nat.eqb (dim1 A) (dim1 C) && Nat.eqb (dim1 B) (dim1 D)
  then Ok (tab (dim0 A) (fun m => tab (dim0 B) (fun n =>
           tab (dim0 C) (fun l => tab (dim0 D) (fun s =>
             fsum2 (dim1 A) (dim1 B) (fun i a =>
               fmul (fmul (fmul (at2 A m i) (at2 B n a)) (at2 C l i))
                    (at2 D s a)))))))
  else Err ContractError.

(** [contract('pb,p,p,pa->ab', X, u, v, Y)] *)
Definition contract_pb_p_p_pa (X : Matrix) (u v : Vector) (Y : Matrix)
  : result Matrix :=
  if Nat.eqb (dim0 X) (length u) && Nat.eqb (dim0 X) (length v)
     && Nat.eqb (dim0 X) (dim0 Y)
  then Ok (tab (dim1 Y) (fun a => tab (dim1 X) (fun b =>
             fsum (tab (dim0 X) (fun p =>
               fmul (fmul (fmul (at2 X p b) (at1 u p)) (at1 v p))
                    (at2 Y p a))))))
  else Err ContractError.

(** [t / c] and [x += t] on rank four tensors. *)
Definition t4_div (t : Tensor4) (c : F) : Tensor4 :=
  map (map (map (map (fun v => fdiv v c)))) t.
Definition t4_iadd (x t : Tensor4) : result Tensor4 :=
  bcast (bcast (bcast (bcast (fun a b => Ok (fadd a b))))) x t.

(** [dvp[(lpos[:, None], lpos)] += val]: the addressed entries are read,
    [val] is added to them, and they are written back in index order, so
    that of two writes to one entry the later one stays. *)
Definition fancy_iadd (dvp : Matrix) (lpos : list nat) (val : Matrix)
  : result Matrix :=
  G <- mapM (fun a => row <- index dvp a ;; mapM (fun b => index row b) lpos) lpos ;;
  G' <- miop fadd G val ;;
  Ok (tab (length dvp) (fun P => tab (length (nth P dvp [])) (fun Q =>
        match rindex lpos P, rindex lpos Q with
        | Some a, Some b => at2 G' a b
        | _, _ => at2 dvp P Q
        end))).

End Contractions.

(** ** External collaborators *)

(** [scf vp_a vp_b frag] is the fragment after
    [frag.scf(vp_mn=[vp_a, vp_b], get_ingredients=True, get_orbitals=True)];
    [pinv m] is [np.linalg.pinv] of a matrix. *)
Class Collaborators {R : Scalar} : Type := {
  scf : Matrix -> Matrix -> Molecule -> Molecule;
  pinv : Matrix -> Matrix
}.

(** ** The methods of [Inversion] *)

Section Methods.
Context {R : Scalar} {E : Collaborators}.

Definition assert_grid_elements : M nat :=
  (s <- get_self ;;
   if Nat.eqb (length (density_da (molecule s))) 0
   then raise ConfigurationError
   else
     frag0 <- lift (index (frags s) 0) ;;
     if Nat.eqb (length (density_da frag0)) 0
     then raise ConfigurationError
     else
       let mol_points := np_xyzw (Vpot (molecule s)) in
       frag0' <- lift (index (frags s) 0) ;;
       let fra_points := np_xyzw (Vpot frag0') in
       if negb (Nat.eqb (length (pts_x mol_points)) (length (pts_x fra_points)))
       then raise GridMismatchError
       else ret (length (blocks (Vpot (molecule s)))))%M.

Definition get_frag_energies : M unit :=
  (s <- get_self ;;
   let frag_energy :=
     fold_left (fun acc frag => fadd acc (energy frag)) (frags s) f0 in
   update (set_frag_energy (Some frag_energy)))%M.

(** One pass of [for frag in self.frags] of [get_frag_densities_nm]. *)
Definition nm_step (acc : Matrix * Matrix) (frag : Molecule)
  : result (Matrix * Matrix) :=
  let '(sum_a, sum_b) := acc in
  sum_a' <- axpy f1 (Da frag) sum_a ;;
  sum_b' <- axpy f1 (Db frag) sum_b ;;
  Ok (sum_a', sum_b').

Definition sum_densities_nm (n : nat) (fs : list Molecule)
  : result (Matrix * Matrix) :=
  foldM nm_step (zeros2 n n, zeros2 n n) fs.

Definition get_frag_densities_nm : M unit :=
  (s <- get_self ;;
   '(sum_a, sum_b) <- lift (sum_densities_nm (self_nbf s) (frags s)) ;;
   update (set_frag_nm (Some sum_a) (Some sum_b)))%M.

(** One pass of [for frag in self.frags] of [get_frag_densities_r]. *)
Definition block_step (block : nat) (acc : Vector * Vector) (frag : Molecule)
  : result (Vector * Vector) :=
  let '(block_sum_a, block_sum_b) := acc in
  fda <- index (density_da frag) block ;;
  a' <- viop fadd block_sum_a fda ;;
  fdb <- index (density_db frag) block ;;
  b' <- viop fadd block_sum_b fdb ;;
  Ok (a', b').

Definition block_sums (mol : Molecule) (fs : list Molecule) (block : nat)
  : result (Vector * Vector) :=
  mda <- index (density_da mol) block ;;
  let block_sum_a := zeros_like mda in
  mdb <- index (density_db mol) block ;;
  let block_sum_b := zeros_like mdb in
  foldM (block_step block) (block_sum_a, block_sum_b) fs.

(** One pass of [for block in range(self.nblocks)]. *)
Definition r_step (mol : Molecule) (fs : list Molecule)
           (acc : list Vector * list Vector) (block : nat)
  : result (list Vector * list Vector) :=
  let '(sum_a, sum_b) := acc in
  '(a, b) <- block_sums mol fs block ;;
  Ok (sum_a ++ [a], sum_b ++ [b]).

Definition sum_densities_r (nb : nat) (mol : Molecule) (fs : list Molecule)
  : result (list Vector * list Vector) :=
  foldM (r_step mol fs) ([], []) (seq 0 nb).

Definition get_frag_densities_r : M unit :=
  (nb <- attr nblocks ;;
   s <- get_self ;;
   '(sum_a, sum_b) <- lift (sum_densities_r nb (molecule s) (frags s)) ;;
   update (set_frag_r (Some sum_a) (Some sum_b)))%M.

(** What [get_delta_density] returns: a triple, a pair, or [None]. *)
Inductive delta : Type :=
| DeltaGrid (dd_a dd_b : list Vector) (l1error : F)
| DeltaMatrix (dd_a dd_b : Matrix)
| DeltaNone.

(** [o[block]] for an attribute [o] that may be [None] *)
Definition subscript {A} (o : option (list A)) (block : nat) : result A :=
  match o with
  | Some l => index l block
  | None => Err TypeError
  end.

Definition delta_grid_block (s : Inversion)
           (acc : list Vector * list Vector * F) (block : nat)
  : result (list Vector * list Vector * F) :=
  let '(dd_a, dd_b, l1error) := acc in
  fa <- subscript (frag_da_r s) block ;;
  ma <- index (density_da (molecule s)) block ;;
  block_dd_a <- vbin fsub fa ma ;;
  fb <- subscript (frag_db_r s) block ;;
  mb <- index (density_db (molecule s)) block ;;
  block_dd_b <- vbin fsub fb mb ;;
  wa <- index (grid_w (molecule s)) block ;;
  ia <- contract_p_p block_dd_a wa ;;
  let l1error := fadd l1error (fabs ia) in
  wb <- index (grid_w (molecule s)) block ;;
  ib <- contract_p_p block_dd_b wb ;;
  let l1error := fadd l1error (fabs ib) in
  Ok (dd_a ++ [block_dd_a], dd_b ++ [block_dd_b], l1error).

Definition delta_matrix (s : Inversion) : result (Matrix * Matrix) :=
  match frag_da_nm s with
  | None => Err AttributeError
  | Some fa =>
      dd_a <- mbin fsub (Da (molecule s)) fa ;;
      match frag_db_nm s with
      | None => Err AttributeError
      | Some fb =>
          dd_b <- mbin fsub (Db (molecule s)) fb ;;
          Ok (dd_a, dd_b)
      end
  end.

Definition get_delta_density (option : string) : M delta :=
  (if String.eqb option "grid"
   then
     nb <- attr nblocks ;;
     s <- get_self ;;
     '(dd_a, dd_b, l1error) <-
        lift (foldM (delta_grid_block s) ([], [], f0) (seq 0 nb)) ;;
     ret (DeltaGrid dd_a dd_b l1error)
   else if String.eqb option "matrix"
   then
     s <- get_self ;;
     '(dd_a, dd_b) <- lift (delta_matrix s) ;;
     ret (DeltaMatrix dd_a dd_b)
   else ret DeltaNone)%M.

Definition get_ep : M unit :=
  (s <- get_self ;;
   let ep0 := fsub (energy (molecule s)) (Enuc (molecule s)) in
   let ep :=
     fold_left (fun ep frag => fsub ep (fsub (energy frag) (Enuc frag)))
               (frags s) ep0 in
   update (set_ep (Some ep)))%M.

(** *** The update strategies *)

Definition vp_zpm (s : Inversion) (dd_a dd_b : Matrix)
  : result (Matrix * Matrix) :=
  ca <- contract_imlj_ml (ao_eri (molecule s)) dd_a ;;
  let dvp_a := mscale (fopp fhalf) ca in
  cb <- contract_imlj_ml (ao_eri (molecule s)) dd_b ;;
  let dvp_b := mscale (fopp fhalf) cb in
  Ok (dvp_a, dvp_b).

Definition vp_dd (s : Inversion) (dd_a dd_b : Matrix)
  : result (Matrix * Matrix) :=
  let dvp_a := dd_a in
  let dvp_b := dd_b in
  Ok (dvp_a, dvp_b).

(** One statement [x += contract(..., C[None,i], C[None,a], C[None,i],
    C[None,a]) / (eigs[i] - eigs[a])] of [vp_zc]; [C[None,i]] is the row
    [i] of [C] as a matrix of one row. *)
Definition zc_term (C : Matrix) (eigs : Vector) (i a : nat) (x : Tensor4)
  : result Tensor4 :=
  Ci <- index C i ;;
  Ca_ <- index C a ;;
  c <- contract_mi_na_li_sa [Ci] [Ca_] [Ci] [Ca_] ;;
  ei <- index eigs i ;;
  ea <- index eigs a ;;
  t4_iadd x (t4_div c (fsub ei ea)).

(** The body of [for frag in self.frags] of [vp_zc] when the occupations
    are equal: [x] starts from zero for every fragment. *)
Definition zc_response (mol frag : Molecule) : result Tensor4 :=
  let n := nbf mol in
  let x := zeros4 n n n n in
  foldM (fun x i =>
           foldM (fun x a =>
                    x1 <- zc_term (Ca frag) (eigs_a frag) i a x ;;
                    zc_term (Cb frag) (eigs_b frag) i a x1)
                 x (seq (nalpha mol) (n - nalpha mol)))
        x (seq 0 (nalpha mol)).

(** The local [x] of [vp_zc] after the loop over the fragments; [None] is
    a local that was never assigned. *)
Definition zc_loop (mol : Molecule) (fs : list Molecule)
  : result (option Tensor4) :=
  foldM (fun (x : option Tensor4) frag =>
           if Nat.eqb (nalpha mol) (nbeta mol)
           then x' <- zc_response mol frag ;; Ok (Some x')
           else Ok x)
        None fs.

Definition vp_zc (s : Inversion) (da_mn db_mn : Matrix) (rcond : F)
  : result (Matrix * Matrix) :=
  dd <- mbin fadd da_mn db_mn ;;
  x <- zc_loop (molecule s) (frags s) ;;
  match x with
  | None => Err (UnboundLocalError "x")
  | Some x =>
      let x_inv := map (map pinv) x in
      dvp <- contract_mnls_ls x_inv dd ;;
      dvp <- symmetrize dvp ;;
      Ok (dvp, dvp)
  end.

(** [orb[str(i)][block][r]] *)
Definition orb (o : list (list Vector)) (i block r : nat) : result F :=
  match nth_error o i with
  | None => Err (KeyError i)
  | Some per_block => v <- index per_block block ;; index v r
  end.

(** The kernel [x_a] of one block: the contributions of all fragments and
    all pairs of an occupied and a virtual alpha orbital. *)
Definition wy_kernel (fs : list Molecule) (block npoints : nat) : result Matrix :=
  foldM (fun x_a frag =>
     let orb_a := alpha_r frag in
     let orb_b := beta_r frag in
     foldM (fun x_a i_occ =>
        foldM (fun x_a i_vir =>
           e_occ <- index (eigs_a frag) i_occ ;;
           e_vir <- index (eigs_a frag) i_vir ;;
           let den := fsub e_occ e_vir in
           num <- mapM (fun r1 => mapM (fun r2 =>
                    a <- orb orb_a i_occ block r1 ;;
                    b <- orb orb_a i_vir block r1 ;;
                    c <- orb orb_a i_vir block r2 ;;
                    d <- orb orb_a i_occ block r2 ;;
                    Ok (fmul (fmul (fmul a b) c) d))
                  (seq 0 npoints)) (seq 0 npoints) ;;
           miop fadd x_a (map (map (fun v => fdiv v den)) num))
         x_a (seq (nalpha frag) (nbf frag - nalpha frag)))
      x_a (seq 0 (nalpha frag)))
    (zeros2 npoints npoints) fs.

(** One pass of [for r1 in range(npoints)]: the row [r1] of the two kernels
    adds [(1 / (x1[r1,:] + x2[r1,:])) * dd[block] * w] to [dvp_block]. *)
Definition wy_row (x1 x2 : Matrix) (dd : list Vector) (block : nat) (w : Vector)
           (dvp_block : Vector) (r1 : nat) : result Vector :=
  row1 <- index x1 r1 ;;
  row2 <- index x2 r1 ;;
  den <- vbin fadd row1 row2 ;;
  let inv := map (fdiv f1) den in
  ddb <- index dd block ;;
  t <- vbin fmul inv ddb ;;
  t' <- vbin fmul t w ;;
  viop fadd dvp_block t'.

Definition wy_dvp_block (x1 x2 : Matrix) (dd : list Vector) (block npoints : nat)
           (w : Vector) : result Vector :=
  foldM (wy_row x1 x2 dd block w) (zeros npoints) (seq 0 npoints).

Definition wy_block (s : Inversion) (dd : list Vector) (dvp : Matrix)
           (bg : nat * GridBlock) : result Matrix :=
  let '(block, grid_block) := bg in
  let npoints := block_npoints grid_block in
  let lpos := block_lpos grid_block in
  let w := block_w grid_block in
  let phi := map (firstn (length lpos)) (firstn npoints (block_PHI grid_block)) in
  let x_b := zeros2 npoints npoints in
  x_a <- wy_kernel (frags s) block npoints ;;
  dvp_block <- wy_dvp_block x_a x_a dd block npoints w ;;
  vtmp <- contract_pb_p_p_pa phi dvp_block w phi ;;
  val <- symmetrize vtmp ;;
  fancy_iadd dvp lpos val.

Definition vp_wy_r (s : Inversion) (dd_a dd_b : list Vector)
  : result (Matrix * Matrix) :=
  let dvp := zeros_like2 (Da (molecule s)) in
  let dd := dd_a ++ dd_b in
  let bs := blocks (Vpot (molecule s)) in
  match nblocks s with
  | Some nb =>
      if negb (Nat.eqb nb (length bs))
      then Err BlocksInconsistent
      else
        dvp <- foldM (wy_block s dd) dvp (combine (seq 0 (length bs)) bs) ;;
        Ok (dvp, dvp)
  | None => Err BlocksInconsistent
  end.

End Methods.

(** ** The driver *)

Section Driver.
Context {R : Scalar} {E : Collaborators}.

(** The locals of [vp_handler] that live across iterations. *)
Record Locals : Type := {
  vp_a : Matrix;
  vp_b : Matrix;
  l1_list : list F;
  ep_list : list F
}.

(** [for frag in self.frags: frag.scf(vp_mn=[vp_a, vp_b], ...)]: every
    fragment is re-solved in place, in order. *)
Definition resolve_frags (va vb : Matrix) : M unit :=
  fun w =>
    let fs := frags (obj w) in
    Done tt {| obj := set_frags (map (scf va vb) fs) (obj w);
               log := rev (map (fun k => EvScf k va vb) (seq 0 (length fs)))
                          ++ log w |}.

Definition dispatch (method : string) (s : Inversion)
           (dd_a dd_b : list Vector) (dd_a_mn dd_b_mn : Matrix)
  : result (Matrix * Matrix) :=
  if String.eqb method "zpm" then vp_zpm s dd_a_mn dd_b_mn
  else if String.eqb method "dd" then vp_dd s dd_a_mn dd_b_mn
  else if String.eqb method "zc" then vp_zc s dd_a_mn dd_b_mn f0
  else if String.eqb method "wy_r" then vp_wy_r s dd_a dd_b
  else Err (UnboundLocalError "dvp_a").

(** The body of the loop of [vp_handler] for the index [step], up to the
    test [step == maxiter].  From the second pass on [self.vp] holds the
    very matrices [vp_a] and [vp_b], so that [vp_a.axpy] already shows in
    [self.vp]. *)
Definition cycle (method : string) (beta : F) (print_scf plot_scf : bool)
           (step : Z) (l : Locals) : M Locals :=
  (resolve_frags (vp_a l) (vp_b l) ;;;
   get_frag_energies ;;;
   get_frag_densities_r ;;;
   get_frag_densities_nm ;;;
   get_ep ;;;
   g <- get_delta_density "grid" ;;
   match g with
   | DeltaGrid dd_a dd_b error =>
       m <- get_delta_density "matrix" ;;
       match m with
       | DeltaMatrix dd_a_mn dd_b_mn =>
           let l1 := l1_list l ++ [error] in
           e <- attr ep ;;
           let epl := ep_list l ++ [e] in
           (if print_scf
            then ef <- attr frag_energy ;; emit (EvPrint step error e ef)
            else ret tt) ;;;
           s <- get_self ;;
           '(dvp_a, dvp_b) <- lift (dispatch method s dd_a dd_b dd_a_mn dd_b_mn) ;;
           va <- lift (axpy beta dvp_a (vp_a l)) ;;
           (if Z.ltb 0 step then update (set_vp (Some (va, vp_b l))) else ret tt) ;;;
           vb <- lift (axpy beta dvp_b (vp_b l)) ;;
           update (set_vp (Some (va, vb))) ;;;
           (if plot_scf then emit (EvPlot step l1) else ret tt) ;;;
           ret {| vp_a := va; vp_b := vb; l1_list := l1; ep_list := epl |}
       | _ => raise TypeError
       end
   | _ => raise TypeError
   end)%M.

(** [for step in steps: body; if step == maxiter: raise] *)
Fixpoint vp_loop (method : string) (beta : F) (print_scf plot_scf : bool)
         (maxiter : Z) (steps : list Z) (l : Locals) : M unit :=
  match steps with
  | [] => ret tt
  | step :: rest =>
      (l' <- cycle method beta print_scf plot_scf step l ;;
       if Z.eqb step maxiter
       then raise MaxIterationsExceeded
       else vp_loop method beta print_scf plot_scf maxiter rest l')%M
  end.

(** [range(n)] *)
Definition range (n : Z) : list Z := map Z.of_nat (seq 0 (Z.to_nat n)).

(** The bodies of the loop for the indices [steps], one after the other,
    without the test of the bound. *)
Fixpoint cycles (method : string) (beta : F) (print_scf plot_scf : bool)
         (steps : list Z) (l : Locals) : M Locals :=
  match steps with
  | [] => ret l
  | step :: rest =>
      (l' <- cycle method beta print_scf plot_scf step l ;;
       cycles method beta print_scf plot_scf rest l')%M
  end.

(** The fragments that were re-solved, latest first, and how often the
    fragment [k] was. *)
Definition scf_log (lg : list event) : list nat :=
  flat_map (fun e => match e with
                     | EvScf k _ _ => [k]
                     | _ => []
                     end) lg.
Definition resolves (k : nat) (lg : list event) : nat :=
  count_occ Nat.eq_dec (scf_log lg) k.

(** The locals before the loop: [psi4.core.Matrix(nbf, nbf)] is a matrix of
    zeros. *)
Definition initial_locals (s : Inversion) : Locals :=
  {| vp_a := zeros2 (self_nbf s) (self_nbf s);
     vp_b := zeros2 (self_nbf s) (self_nbf s);
     l1_list := []; ep_list := [] |}.

Definition vp_handler (method : string) (beta : F) (maxiter : Z) (atol : F)
           (guess : option string) (print_scf plot_scf : bool) : M unit :=
  (s <- get_self ;;
   let l0 := initial_locals s in
   let run :=
     vp_loop method beta print_scf plot_scf maxiter (range (maxiter + 1)) l0 in
   match guess with
   | Some g =>
       if String.eqb g "hartree" then ret tt
       else if String.eqb g "xc" then ret tt
       else if String.eqb g "hxc" then ret tt
       else run
   | None => run
   end)%M.

(** The object when [assert_grid_elements] is called: the first four
    attributes are assigned, the others are not yet. *)
Definition blank (fragments : list Molecule) (mol : Molecule) : Inversion :=
  {| frags := fragments; nfrag := length fragments; molecule := mol;
     self_nbf := nbf mol; nblocks := None; frag_e := None;
     frag_energy := None; frag_da_nm := None; frag_db_nm := None;
     frag_da_r := None; frag_db_r := None; frag_orbitals_r := None;
     vp := None; ep := None |}.

(** [Inversion(fragments, molecule)] *)
Definition Inversion_init (fragments : list Molecule) (mol : Molecule)
  : outcome unit :=
  let self0 := blank fragments mol in
  (nb <- assert_grid_elements ;;
   update (set_nblocks (Some nb)) ;;;
   get_frag_energies ;;;
   get_frag_densities_nm ;;;
   get_frag_densities_r ;;;
   update (set_vp None) ;;;
   update (set_ep None))%M {| obj := self0; log := [] |}.

End Driver.

(** ** Plotting along an axis *)

(** What [axis_plot] asks of numpy besides arithmetic: the comparison
    [a < b] of two numbers and [v.argsort()], the indices of [v] in the
    order that sorts it. *)
Class Order {R : Scalar} : Type := {
  flt : F -> F -> bool;
  argsort : Vector -> list nat
}.

Section AxisPlot.
Context {R : Scalar} {O : Order}.

(** [np.abs(a) < threshold] *)
Definition near (a threshold : F) : bool := flt (fabs a) threshold.

(** [v[indx]] for an array [indx] of indices *)
Definition take (v : Vector) (indx : list nat) : result Vector :=
  mapM (index v) indx.

(** One pass of [for i in range(len(grid[0]))] in the branch of an axis:
    when [grid[t1][i]] and then [grid[t2][i]] are below the threshold in
    absolute value, [grid[k][i]] is appended to [x] and [density_grid[i]]
    to [y]. *)
Definition axis_point (grid : list Vector) (density_grid : Vector)
           (t1 t2 k : nat) (threshold : F)
           (acc : list F * list F) (i : nat) : result (list F * list F) :=
  let '(x, y) := acc in
  g1 <- index grid t1 ;;
  a <- index g1 i ;;
  if near a threshold
  then
    g2 <- index grid t2 ;;
    b <- index g2 i ;;
    if near b threshold
    then
      gk <- index grid k ;;
      c <- index gk i ;;
      d <- index density_grid i ;;
      Ok (x ++ [c], y ++ [d])
    else Ok (x, y)
  else Ok (x, y).

Definition axis_scan (grid : list Vector) (density_grid : Vector)
           (t1 t2 k : nat) (threshold : F) : result (list F * list F) :=
  g0 <- index grid 0 ;;
  foldM (axis_point grid density_grid t1 t2 k threshold) ([], [])
        (seq 0 (length g0)).

(** The body of [for i, matrix in enumerate(matrices)]: the lists [x] and
    [y] of the points on the axis, then both in the order that sorts [x]. *)
Definition axis_pass (axis : string) (grid : list Vector) (threshold : F)
           (matrix : Vector) : result (Vector * Vector) :=
  let density_grid := matrix in
  '(x, y) <-
     (if String.eqb axis "z" then axis_scan grid density_grid 0 1 2 threshold
      else if String.eqb axis "y" then axis_scan grid density_grid 0 2 1 threshold
      else if String.eqb axis "x" then axis_scan grid density_grid 1 2 0 threshold
      else Ok ([], [])) ;;
  let indx := argsort x in
  x <- take x indx ;;
  y <- take y indx ;;
  Ok (x, y).

(** [axis_plot(axis, matrices, grid, threshold)]; the local [x] is the one
    of the last pass, and it is not assigned when there is no pass. *)
Definition axis_plot (axis : string) (matrices : list Vector) (grid : list Vector)
           (threshold : F) : result (Vector * list Vector) :=
  '(x, y_arrays) <-
     foldM (fun (acc : option Vector * list Vector) matrix =>
              '(x, y) <- axis_pass axis grid threshold matrix ;;
              Ok (Some x, snd acc ++ [y]))
           (None, []) matrices ;;
  match x with
  | Some x => Ok (x, y_arrays)
  | None => Err (UnboundLocalError "x")
  end.

(** The coordinates tested and the coordinate plotted for an axis. *)
Definition axis_columns (axis : string) : option (nat * nat * nat) :=
  if String.eqb axis "z" then Some (0, 1, 2)
  else if String.eqb axis "y" then Some (0, 2, 1)
  else if String.eqb axis "x" then Some (1, 2, 0)
  else None.

(** The point [i] lies on the axis: its two other coordinates are below
    the threshold in absolute value. *)
Definition on_axis (grid : list Vector) (t1 t2 : nat) (threshold : F) (i : nat)
  : bool :=
  near (at2 grid t1 i) threshold && near (at2 grid t2 i) threshold.

(** The indices of the points on the axis, in grid order. *)
Definition kept (grid : list Vector) (t1 t2 : nat) (threshold : F) : list nat :=
  filter (on_axis grid t1 t2 threshold) (seq 0 (length (nth 0 grid []))).

(** The coordinates along the axis of the points on it, and the values of
    an array at these points, in grid order. *)
Definition axis_xs (axis : string) (grid : list Vector) (threshold : F) : Vector :=
  match axis_columns axis with
  | Some (t1, t2, k) => map (at2 grid k) (kept grid t1 t2 threshold)
  | None => []
  end.
Definition axis_ys (axis : string) (grid : list Vector) (threshold : F)
           (matrix : Vector) : Vector :=
  match axis_columns axis with
  | Some (t1, t2, _) => map (at1 matrix) (kept grid t1 t2 threshold)
  | None => []
  end.

End AxisPlot.

(** * The quantities of the specification *)

Section Quantities.
Context {R : Scalar}.

(** The elementwise sum of [n] by [n] matrices. *)
Definition matrix_sum (n : nat) (ms : list Matrix) : Matrix :=
  tab n (fun i => tab n (fun j => fsum (map (fun m => at2 m i j) ms))).

(** The elementwise sum, block by block, of grid arrays with the block
    shapes of [ref]. *)
Definition grid_sum (nb : nat) (ref : list Vector) (gs : list (list Vector))
  : list Vector :=
  tab nb (fun b => tab (length (nth b ref []))
                       (fun p => fsum (map (fun g => at1 (nth b g []) p) gs))).

(** [x - y] block by block and point by point, and entry by entry. *)
Definition grid_diff (nb : nat) (x y : list Vector) : list Vector :=
  tab nb (fun b => tab (length (nth b y []))
                       (fun p => fsub (at1 (nth b x []) p) (at1 (nth b y []) p))).
Definition matrix_diff (r c : nat) (x y : Matrix) : Matrix :=
  tab r (fun i => tab c (fun j => fsub (at2 x i j) (at2 y i j))).

(** The grid-weighted integral of the values [v] on a block of weights [wts]. *)
Definition integral (v wts : Vector) : F :=
  fsum (tab (length wts) (fun p => fmul (at1 v p) (at1 wts p))).

(** The scalar error: the sum, over the blocks and the two spin channels, of
    the absolute value of the integral of the block. *)
Definition l1_error (nb : nat) (dd_a dd_b wts : list Vector) : F :=
  fsum (flat_map (fun b => [fabs (integral (nth b dd_a []) (nth b wts []));
                            fabs (integral (nth b dd_b []) (nth b wts []))])
                 (seq 0 nb)).

(** The first [nb] blocks of [cand] exist and have the lengths of the
    blocks of [ref]. *)
Definition blocks_like (nb : nat) (ref cand : list Vector) : Prop :=
  nb <= length cand /\
  forall b, b < nb -> length (nth b cand []) = length (nth b ref []).

(** The Coulomb-kernel increment for the residual [d]. *)
Definition coulomb_increment (t : Tensor4) (d : Matrix) : Matrix :=
  tab (dim0 t) (fun i => tab (dim3 t) (fun j =>
    fmul (fopp fhalf)
         (fsum2 (dim0 d) (dim1 d) (fun m l => fmul (at4 t i m l j) (at2 d m l))))).

(** The symmetry of the two-electron integrals that the Coulomb-kernel
    update relies on: [(im|lj) = (jl|mi)]; and the shape of the tensor. *)
Definition eri_symmetric (t : Tensor4) : Prop :=
  forall i m l j, at4 t i m l j = at4 t j l m i.
Definition eri_shape (n : nat) (t : Tensor4) : Prop :=
  dim0 t = n /\ dim1 t = n /\ dim2 t = n /\ dim3 t = n.



(** Symmetry read with a default outside the matrix. *)
Definition sym2 (m : Matrix) : Prop := forall i j, at2 m i j = at2 m j i.

(** A fragment whose coefficient matrices and eigenvalue sequences cover
    the basis functions of the reference. *)
Definition zc_ready (mol frag : Molecule) : Prop :=
  nbf mol <= length (Ca frag) /\ nbf mol <= length (Cb frag) /\
  nbf mol <= length (eigs_a frag) /\ nbf mol <= length (eigs_b frag).

(** A square matrix that is symmetric, and a tensor whose first two axes
    have length [n]. *)
Definition sq (n : nat) (m : Matrix) : Prop := has_shape n n m /\ sym2 m.
Definition outer_shape (n : nat) (t : Tensor4) : Prop :=
  length t = n /\ forall i, i < n -> length (nth i t []) = n.

(** A method that does not raise the exception of the bound, and a method
    that re-solves no fragment. *)
Definition msafe {A} (m : M A) : Prop :=
  forall w w', m w <> Raise MaxIterationsExceeded w'.
Definition quiet {A} (m : M A) : Prop :=
  forall w a w', m w = Done a w' ->
    frags (obj w') = frags (obj w) /\ scf_log (log w') = scf_log (log w).

End Quantities.

(** The axis along which [bcast] reads its second operand. *)
Definition bidx (m i : nat) : nat := if Nat.eqb m 1 then 0 else i.

(** A pure computation that does not raise the exception of the bound. *)
Definition rsafe {A} (r : result A) : Prop := r <> Err MaxIterationsExceeded.

(** A computation that raises only exceptions of one kind. *)
Definition only {A} (P : exn -> Prop) (r : result A) : Prop :=
  forall e, r = Err e -> P e.

(** An exception that Python, numpy, opt_einsum or psi4 raises by itself,
    as opposed to one of a [raise] statement of the file. *)
Definition builtin (e : exn) : Prop :=
  match e with
  | PyException _ => False
  | _ => True
  end.

(** What the strategies may raise. *)
Definition zc_exn (e : exn) : Prop :=
  e = BroadcastError \/ e = IndexError \/ e = ContractError \/
  e = UnboundLocalError "x".
Definition wy_exn (e : exn) : Prop :=
  e = BlocksInconsistent \/ e = IndexError \/ (exists k, e = KeyError k) \/
  e = BroadcastError \/ e = ContractError.

(** The number of blocks of the engine is the number of blocks of the grid
    of its reference. *)
Definition blocks_agree {R : Scalar} (s : Inversion) : Prop :=
  nblocks s = Some (length (blocks (Vpot (molecule s)))).

(** What no method assigns once the engine is built: the reference, the
    sizes, the number of blocks, the two attributes that stay [None], and
    the number of fragments. *)
Definition same_frame {R : Scalar} (s s' : Inversion) : Prop :=
  molecule s' = molecule s /\ self_nbf s' = self_nbf s /\
  nfrag s' = nfrag s /\ nblocks s' = nblocks s /\
  frag_e s' = frag_e s /\ frag_orbitals_r s' = frag_orbitals_r s /\
  length (frags s') = length (frags s).

(** The world with another list of fragments in the engine. *)
Definition with_frags {R : Scalar} (fs : list Molecule) (w : World) : World :=
  {| obj := set_frags fs (obj w); log := log w |}.

(** The re-solves of all [n] fragments with one pair of potentials, as the
    log has them (latest first). *)
Definition solved_with {R : Scalar} (n : nat) (va vb : Matrix) : list event :=
  rev (map (fun k => EvScf k va vb) (seq 0 n)).

(** * Exact arithmetic: the rationals *)

Definition Qc_scalar : Scalar :=
  {| F := Qc;
     f0 := Q2Qc 0;
     f1 := Q2Qc 1;
     fhalf := Q2Qc (1 # 2);
     fadd := Qcplus;
     fsub := Qcminus;
     fmul := Qcmult;
     fdiv := Qcdiv;
     fopp := Qcopp;
     fabs := Qcabs |}.

#[local] Existing Instance Qc_scalar.

(** The pseudo-inverse of a matrix of rank at most one: the transpose
    divided by the sum of the squares of the entries, and the (transposed)
    zero matrix for the zero matrix.  Every matrix that [vp_zc] inverts has
    all its entries equal, so its rank is at most one. *)
Definition pinv_rank1 (m : @Matrix Qc_scalar) : @Matrix Qc_scalar :=
  let n2 := @fsum Qc_scalar (map (fun v => Qcmult v v) (concat m)) in
  if Qc_eq_dec n2 (Q2Qc 0) then transpose m
  else mscale (Qcdiv (Q2Qc 1) n2) (transpose m).

(** A re-solve that leaves the fragment as it is: the fixed point of the
    iteration. *)
Definition Qc_collaborators : @Collaborators Qc_scalar :=
  {| scf := fun _ _ frag => frag; pinv := pinv_rank1 |}.

#[local] Existing Instance Qc_collaborators.

(** The order of the rationals; [argsort] by insertion, which keeps the
    order of equal entries. *)
Definition Qc_ltb (a b : Qc) : bool :=
  (Qnum a * QDen b <? Qnum b * QDen a)%Z.

Fixpoint insert_by (v : @Vector Qc_scalar) (i : nat) (l : list nat) : list nat :=
  match l with
  | [] => [i]
  | j :: l' =>
      if Qc_ltb (nth j v (Q2Qc 0)) (nth i v (Q2Qc 0))
      then j :: insert_by v i l'
      else i :: l
  end.

Definition Qc_argsort (v : @Vector Qc_scalar) : list nat :=
  fold_right (insert_by v) [] (seq 0 (length v)).

Definition Qc_order : @Order Qc_scalar :=
  {| flt := Qc_ltb; argsort := Qc_argsort |}.

#[local] Existing Instance Qc_order.

(** ** Sample systems *)

Module Sample.

Definition q (x : Q) : Qc := Q2Qc x.

(** A grid of one block with [npts] points on a line. *)
Definition grid (npts : nat) (lpos : list nat) (PHI : @Matrix Qc_scalar)
  : @VBase Qc_scalar :=
  {| np_xyzw := {| pts_x := repeat (q 0) npts; pts_y := repeat (q 0) npts;
                   pts_z := map (fun k => q (inject_Z (Z.of_nat k))) (seq 0 npts);
                   pts_w := repeat (q 1) npts |};
     blocks := [ {| block_npoints := npts; block_lpos := lpos;
                    block_w := repeat (q 1) npts; block_PHI := PHI |} ] |}.

(** A system of two basis functions on a grid of [npts] points, with [na]
    alpha and [nb] beta electrons, the density matrix [d] times the
    projector on the first basis function, and the two-electron tensor
    [eri]. *)
Definition system (na nb npts : nat) (e : Qc) (d : Qc) (eri : @Tensor4 Qc_scalar)
  : @Molecule Qc_scalar :=
  let first := tab npts (fun p => if Nat.eqb p 0 then q 1 else q (1 # 2)) in
  let second := tab npts (fun p => if Nat.eqb p 0 then q (1 # 2) else q 1) in
  {| energy := e; Enuc := q (1 # 4);
     nalpha := na; nbeta := nb; nbf := 2;
     Da := [[d; q 0]; [q 0; q 0]];
     Db := [[d; q 0]; [q 0; q 0]];
     Ca := [[q 1; q 0]; [q 0; q 1]];
     Cb := [[q 1; q 0]; [q 0; q 1]];
     eigs_a := [q (-1); q 1];
     eigs_b := [q (-1); q 1];
     density_da := [tab npts (fun p => if Nat.eqb p 0 then d else q 0)];
     density_db := [tab npts (fun p => if Nat.eqb p 0 then d else q 0)];
     grid_w := [repeat (q 1) npts];
     alpha_r := [[first]; [second]];
     beta_r := [[first]; [second]];
     Vpot := grid npts [0; 1]
               (tab npts (fun p => [if Nat.eqb p 0 then q 1 else q 0;
                                    if Nat.eqb p 1 then q 1 else q 0]));
     ao_eri := eri |}.

(** A tensor with the symmetry of two-electron integrals: one on the
    diagonal [i = m = l = j], zero elsewhere. *)
Definition eri_diag : @Tensor4 Qc_scalar :=
  tab 2 (fun i => tab 2 (fun m => tab 2 (fun l => tab 2 (fun j =>
    if Nat.eqb i m && Nat.eqb m l && Nat.eqb l j then q 1 else q 0)))).

(** A tensor without it: the only entry that is not zero is [(0,0,0,1)]. *)
Definition eri_skew : @Tensor4 Qc_scalar :=
  tab 2 (fun i => tab 2 (fun m => tab 2 (fun l => tab 2 (fun j =>
    if Nat.eqb i 0 && Nat.eqb m 0 && Nat.eqb l 0 && Nat.eqb j 1
    then q 1 else q 0)))).

Definition reference : @Molecule Qc_scalar :=
  system 1 1 2 (q (-2)) (q 1) eri_diag.
Definition fragment : @Molecule Qc_scalar :=
  system 1 1 2 (q (-1)) (q (1 # 4)) eri_diag.
(** The same fragment on a grid of three points. *)
Definition fine_fragment : @Molecule Qc_scalar :=
  system 1 1 3 (q (-1)) (q (1 # 4)) eri_diag.
(** A reference with one alpha electron and no beta electron. *)
Definition open_reference : @Molecule Qc_scalar :=
  system 1 0 2 (q (-2)) (q 1) eri_diag.
(** A reference whose two-electron tensor lacks the symmetry. *)
Definition skew_reference : @Molecule Qc_scalar :=
  system 1 1 2 (q (-2)) (q 1) eri_skew.

(** The world the constructor leaves. *)
Definition engine_of (fragments : list (@Molecule Qc_scalar))
           (mol : @Molecule Qc_scalar) : @World Qc_scalar :=
  final (@Inversion_init Qc_scalar fragments mol).

(** The engine of two equal fragments. *)
Definition engine : @World Qc_scalar := engine_of [fragment; fragment] reference.

(** The aggregates that the constructor stored in [engine]. *)
Definition stored {A} (o : option A) (d : A) : A :=
  match o with
  | Some a => a
  | None => d
  end.
Definition agg_a_r : list (@Vector Qc_scalar) := stored (frag_da_r (obj engine)) [].
Definition agg_b_r : list (@Vector Qc_scalar) := stored (frag_db_r (obj engine)) [].
Definition agg_a_nm : @Matrix Qc_scalar := stored (frag_da_nm (obj engine)) [].
Definition agg_b_nm : @Matrix Qc_scalar := stored (frag_db_nm (obj engine)) [].

(** The value of a computation that does not raise. *)
Definition value {A} (r : result A) (d : A) : A :=
  match r with
  | Ok a => a
  | Err _ => d
  end.


Definition is_ok {A} (r : result A) : bool :=
  match r with
  | Ok _ => true
  | Err _ => false
  end.

(** The engine on a reference whose tensor lacks the symmetry, again after
    the aggregation of the densities, its matrix residual, and the
    increment of the Coulomb-kernel update. *)
Definition skew_engine : @World Qc_scalar :=
  final (get_frag_densities_nm (engine_of [fragment; fragment] skew_reference)).
Definition skew_residual : @Matrix Qc_scalar * @Matrix Qc_scalar :=
  value (delta_matrix (obj skew_engine)) ([], []).
Definition skew_increment : @Matrix Qc_scalar * @Matrix Qc_scalar :=
  value (dispatch "zpm" (obj skew_engine) [] []
                  (fst skew_residual) (snd skew_residual)) ([], []).

(** The same on the reference with the symmetric tensor. *)
Definition engine_nm : @World Qc_scalar := final (get_frag_densities_nm engine).
Definition residual : @Matrix Qc_scalar * @Matrix Qc_scalar :=
  value (delta_matrix (obj engine_nm)) ([], []).
Definition residual_r : list (@Vector Qc_scalar) * list (@Vector Qc_scalar) :=
  match get_delta_density "grid" engine_nm with
  | Done (DeltaGrid dd_a dd_b _) _ => (dd_a, dd_b)
  | _ => ([], [])
  end.
Definition increment (method : string) : @Matrix Qc_scalar * @Matrix Qc_scalar :=
  value (dispatch method (obj engine_nm) (fst residual_r) (snd residual_r)
                  (fst residual) (snd residual))
        ([], []).

End Sample.

(** ** A sample grid for plotting *)

Module Plot.

(** Five points: three on the z axis at the heights 2, -1 and 1, and two
    off the axis. *)
Definition coords : list (@Vector Qc_scalar) :=
  [ [Sample.q 0; Sample.q 1; Sample.q 0; Sample.q 0; Sample.q 0];
    [Sample.q 0; Sample.q 0; Sample.q 0; Sample.q 3; Sample.q 0];
    [Sample.q 2; Sample.q 5; Sample.q (-1); Sample.q 7; Sample.q 1] ].

Definition values : list (@Vector Qc_scalar) :=
  [ [Sample.q 10; Sample.q 20; Sample.q 30; Sample.q 40; Sample.q 50];
    [Sample.q 1; Sample.q 2; Sample.q 3; Sample.q 4; Sample.q 5] ].

Definition threshold : Qc := Sample.q (1 # 100).

(** The heights of the three points on the z axis in increasing order, and
    the values of the two arrays at these points. *)
Definition heights : @Vector Qc_scalar := [Sample.q (-1); Sample.q 1; Sample.q 2].
Definition along : list (@Vector Qc_scalar) :=
  [ [Sample.q 30; Sample.q 50; Sample.q 10];
    [Sample.q 3; Sample.q 5; Sample.q 1] ].

End Plot.

(** * Properties *)

(** ** Lists, loops and elementwise operations *)

Section ListFacts.
Context {A B C : Type}.

Lemma tab_length (n : nat) (f : nat -> A) : length (tab n f) = n.
Proof. unfold tab. now rewrite length_map, length_seq. Qed.

Lemma tab_S (n : nat) (f : nat -> A) :
  tab (S n) f = f 0 :: tab n (fun i => f (S i)).
Proof.
  unfold tab. simpl. f_equal. now rewrite <- seq_shift, map_map.
Qed.

Lemma tab_snoc (n : nat) (f : nat -> A) : tab (S n) f = tab n f ++ [f n].
Proof. unfold tab. now rewrite seq_S, map_app. Qed.

Lemma nth_error_tab (n : nat) (f : nat -> A) (i : nat) :
  i < n -> nth_error (tab n f) i = Some (f i).
Proof.
  intros Hi. unfold tab.
  rewrite nth_error_map, nth_error_seq.
  destruct (Nat.ltb_spec i n); [reflexivity | lia].
Qed.

Lemma nth_error_tab_ge (n : nat) (f : nat -> A) (i : nat) :
  n <= i -> nth_error (tab n f) i = None.
Proof. intros Hi. apply nth_error_None. now rewrite tab_length. Qed.

Lemma nth_tab (n : nat) (f : nat -> A) (i : nat) (d : A) :
  i < n -> nth i (tab n f) d = f i.
Proof.
  intros Hi. apply nth_error_nth. now apply nth_error_tab.
Qed.

Lemma tab_ext (n : nat) (f g : nat -> A) :
  (forall i, i < n -> f i = g i) -> tab n f = tab n g.
Proof.
  intros H. unfold tab. apply map_ext_in. intros i Hi.
  apply in_seq in Hi. apply H. lia.
Qed.

Lemma tab_nth (xs : list A) (d : A) : tab (length xs) (fun i => nth i xs d) = xs.
Proof.
  induction xs as [|x xs IH]; [reflexivity|].
  simpl length. rewrite tab_S. simpl. now rewrite IH.
Qed.

Lemma tab_nth_len (n : nat) (xs : list A) (d : A) :
  length xs = n -> tab n (fun i => nth i xs d) = xs.
Proof. intros <-. apply tab_nth. Qed.

End ListFacts.

Lemma rbind_ok {A B} (r : result A) (k : A -> result B) (b : B) :
  rbind r k = Ok b -> exists a, r = Ok a /\ k a = Ok b.
Proof. destruct r as [a|e]; simpl; [eauto | discriminate]. Qed.

Section LoopFacts.
Context {A B C : Type}.

Lemma mapM_tab (f : A -> result B) (d : A) :
  forall (xs : list A) (n : nat) (g : nat -> B),
    length xs = n ->
    (forall i, i < n -> f (nth i xs d) = Ok (g i)) ->
    mapM f xs = Ok (tab n g).
Proof.
  induction xs as [|x xs IH]; intros n g Hn Hf; simpl in Hn; subst n.
  - reflexivity.
  - rewrite tab_S. simpl.
    pose proof (Hf 0 ltac:(lia)) as H0. simpl in H0. rewrite H0. simpl.
    rewrite (IH (length xs) (fun i => g (S i))); [reflexivity | reflexivity |].
    intros i Hi. apply (Hf (S i)). lia.
Qed.

Lemma mapM_inv (f : A -> result B) (d : A) (d' : B) :
  forall (xs : list A) (ys : list B),
    mapM f xs = Ok ys ->
    length ys = length xs /\
    forall i, i < length xs -> f (nth i xs d) = Ok (nth i ys d').
Proof.
  induction xs as [|x xs IH]; intros ys H; simpl in H.
  - inversion H; subst. split; [reflexivity | simpl; lia].
  - apply rbind_ok in H. destruct H as [y [Hy H]].
    apply rbind_ok in H. destruct H as [ys' [Hys H]].
    inversion H; subst ys. destruct (IH _ Hys) as [Hl Hn].
    split; [simpl; now rewrite Hl|].
    intros [|i] Hi; simpl in *; [assumption | apply Hn; lia].
Qed.

Lemma ewise_tab (e : exn) (f : A -> B -> result C) (dx : A) (dy : B) :
  forall (xs : list A) (ys : list B) (n : nat) (g : nat -> C),
    length xs = n -> length ys = n ->
    (forall i, i < n -> f (nth i xs dx) (nth i ys dy) = Ok (g i)) ->
    ewise e f xs ys = Ok (tab n g).
Proof.
  induction xs as [|x xs IH]; intros [|y ys] n g Hx Hy Hf;
    simpl in Hx, Hy; subst n; try discriminate.
  - reflexivity.
  - rewrite tab_S. simpl.
    pose proof (Hf 0 ltac:(lia)) as H0. simpl in H0. rewrite H0. simpl.
    injection Hy as Hy.
    rewrite (IH ys (length xs) (fun i => g (S i))); [reflexivity | reflexivity | assumption |].
    intros i Hi. apply (Hf (S i)). lia.
Qed.

Lemma ewise_inv (e : exn) (f : A -> B -> result C) (dx : A) (dy : B) (dz : C) :
  forall (xs : list A) (ys : list B) (zs : list C),
    ewise e f xs ys = Ok zs ->
    length ys = length xs /\ length zs = length xs /\
    forall i, i < length xs -> f (nth i xs dx) (nth i ys dy) = Ok (nth i zs dz).
Proof.
  induction xs as [|x xs IH]; intros [|y ys] zs H; simpl in H; try discriminate.
  - inversion H; subst. repeat split; simpl; lia.
  - apply rbind_ok in H. destruct H as [c [Hc H]].
    apply rbind_ok in H. destruct H as [cs [Hcs H]].
    inversion H; subst zs. destruct (IH _ _ Hcs) as [Hl [Hl' Hn]].
    repeat split; simpl; try lia.
    intros [|i] Hi; [assumption | apply Hn; lia].
Qed.

End LoopFacts.

Section BroadcastFacts.
Context {A B : Type}.

Lemma bcast_same (f : A -> B -> result A) (xs : list A) (ys : list B) :
  length xs = length ys -> bcast f xs ys = ewise BroadcastError f xs ys.
Proof.
  intros H. unfold bcast.
  destruct ys as [|y [|y' ys]]; try reflexivity.
  destruct xs as [|x [|x' xs]]; try discriminate.
  simpl. destruct (f x y); reflexivity.
Qed.

Lemma bcast_inv (f : A -> B -> result A) (dx : A) (dy : B) :
  forall (xs : list A) (ys : list B) (zs : list A),
    bcast f xs ys = Ok zs ->
    length zs = length xs /\
    (length ys = 1 \/ length ys = length xs) /\
    forall i, i < length xs ->
      f (nth i xs dx) (nth (bidx (length ys) i) ys dy) = Ok (nth i zs dx).
Proof.
  intros xs ys zs H. unfold bcast in H.
  assert (Hgen : ewise BroadcastError f xs ys = Ok zs ->
                 length ys <> 1 ->
                 length zs = length xs /\
                 (length ys = 1 \/ length ys = length xs) /\
                 forall i, i < length xs ->
                   f (nth i xs dx) (nth (bidx (length ys) i) ys dy)
                   = Ok (nth i zs dx)).
  { intros He Hne. destruct (ewise_inv BroadcastError f dx dy dx _ _ _ He) as [Hl [Hl' Hn]].
    repeat split; [assumption | now right |].
    intros i Hi. unfold bidx.
    destruct (Nat.eqb_spec (length ys) 1); [contradiction | now apply Hn]. }
  destruct ys as [|y [|y' ys]].
  - apply Hgen; [assumption | discriminate].
  - destruct (mapM_inv (fun x => f x y) dx dx _ _ H) as [Hl Hn].
    repeat split; [assumption | now left |].
    intros i Hi. simpl. now apply Hn.
  - apply Hgen; [assumption | simpl; lia].
Qed.

Lemma foldM_app (step : A -> B -> result A) (xs ys : list B) (a : A) :
  foldM step a (xs ++ ys) = rbind (foldM step a xs) (fun a' => foldM step a' ys).
Proof.
  revert a. induction xs as [|x xs IH]; intros a; simpl; [reflexivity|].
  destruct (step a x); simpl; [apply IH | reflexivity].
Qed.

(** A loop keeps what every pass keeps. *)
Lemma foldM_invariant (P : A -> Prop) (step : A -> B -> result A) :
  (forall a b a', P a -> step a b = Ok a' -> P a') ->
  forall (xs : list B) (a a' : A), P a -> foldM step a xs = Ok a' -> P a'.
Proof.
  intros Hstep. induction xs as [|x xs IH]; intros a a' Ha H; simpl in H.
  - now inversion H; subst.
  - apply rbind_ok in H. destruct H as [a1 [H1 H]].
    eapply IH; [|exact H]. eapply Hstep; eassumption.
Qed.

End BroadcastFacts.

Lemma bcast2_same {A} (f : A -> A -> result A) (xs ys : list A) :
  length xs = length ys -> bcast2 f xs ys = ewise BroadcastError f xs ys.
Proof.
  intros H. unfold bcast2.
  destruct xs as [|x [|x' xs]]; destruct ys as [|y [|y' ys]];
    try discriminate; reflexivity.
Qed.

(** ** The initial-guess modes *)

Section GuessFacts.
Context {R : Scalar} {E : Collaborators}.

(** C9: with any of the three initial-guess values ["hartree"], ["xc"],
    ["hxc"] the driver returns at once: it returns normally and the world
    it leaves is the world it found, so no fragment was re-solved (the log
    of collaborator calls is unchanged), no strategy ran, and the
    potential, the partition energy and every other attribute of the
    engine are as before. *)
Theorem vp_handler_guess_returns_unchanged :
  forall (method : string) (beta : F) (maxiter : Z) (atol : F)
         (print_scf plot_scf : bool) (w : World),
    vp_handler method beta maxiter atol (Some "hartree") print_scf plot_scf w
      = Done tt w /\
    vp_handler method beta maxiter atol (Some "xc") print_scf plot_scf w
      = Done tt w /\
    vp_handler method beta maxiter atol (Some "hxc") print_scf plot_scf w
      = Done tt w.
Proof.
  intros. repeat split; reflexivity.
Qed.

End GuessFacts.

(** ** The Zhang-Carter update *)

Lemma mapM_total {A B} (f : A -> result B) (g : A -> B) (xs : list A) :
  (forall x, f x = Ok (g x)) -> mapM f xs = Ok (map g xs).
Proof.
  intros H. induction xs as [|x xs IH]; simpl; [reflexivity|].
  now rewrite H, IH.
Qed.

Lemma foldM_ok {A B} (step : A -> B -> result A) (xs : list B) :
  (forall a b, In b xs -> exists a', step a b = Ok a') ->
  forall a, exists a', foldM step a xs = Ok a'.
Proof.
  induction xs as [|x xs IH]; intros H a; simpl.
  - eauto.
  - destruct (H a x) as [a1 H1]; [now left|]. rewrite H1. simpl.
    apply IH. intros a0 b Hb. apply H. now right.
Qed.

Lemma index_lt {A} (xs : list A) (i : nat) :
  i < length xs -> exists x, index xs i = Ok x.
Proof.
  intros Hi. unfold index.
  destruct (nth_error xs i) eqn:Hn; [eauto|].
  apply nth_error_None in Hn. lia.
Qed.

Section ZhangCarter.
Context {R : Scalar} {E : Collaborators}.

Lemma t4_iadd_scalar (x : Tensor4) (v : F) :
  t4_iadd x [[[[v]]]] = Ok (map (map (map (map (fun a => fadd a v)))) x).
Proof.
  unfold t4_iadd, bcast.
  apply mapM_total. intros x3.
  apply mapM_total. intros x2.
  apply mapM_total. intros x1.
  apply mapM_total. reflexivity.
Qed.

Lemma zc_term_ok (C : Matrix) (eigs : Vector) (i a : nat) (x : Tensor4) :
  i < length C -> a < length C -> i < length eigs -> a < length eigs ->
  exists x', zc_term C eigs i a x = Ok x'.
Proof.
  intros Hi Ha Hi' Ha'. unfold zc_term.
  destruct (index_lt C i Hi) as [Ci ->].
  destruct (index_lt C a Ha) as [Ca_ ->].
  destruct (index_lt eigs i Hi') as [ei Hei].
  destruct (index_lt eigs a Ha') as [ea Hea].
  cbn [rbind]. unfold contract_mi_na_li_sa, dim1, dim0. cbn [hd].
  rewrite !Nat.eqb_refl. cbn [andb rbind]. rewrite Hei, Hea. cbn [rbind].
  unfold tab. cbn [length seq map t4_div]. rewrite t4_iadd_scalar. eauto.
Qed.

Lemma zc_response_ok (mol frag : Molecule) :
  zc_ready mol frag -> exists x, zc_response mol frag = Ok x.
Proof.
  intros (HCa & HCb & Hea & Heb). unfold zc_response.
  apply foldM_ok. intros x i Hi. apply in_seq in Hi.
  apply foldM_ok. intros x' a Ha. apply in_seq in Ha.
  destruct (zc_term_ok (Ca frag) (eigs_a frag) i a x') as [x1 H1]; try lia.
  rewrite H1. simpl.
  apply zc_term_ok; lia.
Qed.

Lemma zc_loop_unequal (mol : Molecule) (fs : list Molecule) :
  nalpha mol <> nbeta mol -> zc_loop mol fs = Ok None.
Proof.
  intros Hne. unfold zc_loop.
  apply Nat.eqb_neq in Hne. rewrite Hne.
  induction fs as [|f fs IH]; simpl; [reflexivity | exact IH].
Qed.

Lemma zc_loop_snoc (mol : Molecule) (earlier : list Molecule) (last : Molecule) :
  nalpha mol = nbeta mol ->
  Forall (zc_ready mol) earlier ->
  zc_loop mol (earlier ++ [last])
  = rbind (zc_response mol last) (fun x => Ok (Some x)).
Proof.
  intros Heq Hready. unfold zc_loop.
  apply Nat.eqb_eq in Heq. rewrite Heq. rewrite foldM_app.
  destruct (foldM_ok
              (fun (x : option Tensor4) frag =>
                 rbind (zc_response mol frag) (fun x' => Ok (Some x')))
              earlier) with (a := @None Tensor4) as [x0 H0].
  - intros a f Hf. rewrite Forall_forall in Hready.
    destruct (zc_response_ok mol f (Hready f Hf)) as [x Hx].
    rewrite Hx. simpl. eauto.
  - rewrite H0. simpl. destruct (zc_response mol last); reflexivity.
Qed.

(** C3: when the alpha and beta occupation counts of the reference differ,
    [vp_zc] never returns: it raises, and as soon as the two residuals can
    be added the exception is the one of the unimplemented branch (the
    local [x] is read and was never assigned).  So a call that returns was
    made on a reference of equal occupations. *)
Theorem vp_zc_unequal_occupation_raises :
  forall (s : Inversion) (da_mn db_mn : Matrix) (rcond : F),
    nalpha (molecule s) <> nbeta (molecule s) ->
    (exists e, vp_zc s da_mn db_mn rcond = Err e) /\
    (forall dd, mbin fadd da_mn db_mn = Ok dd ->
                vp_zc s da_mn db_mn rcond = Err UnimplementedVariantError).
Proof.
  intros s da db rcond Hne.
  assert (Hdd : forall dd, mbin fadd da db = Ok dd ->
                  vp_zc s da db rcond = Err UnimplementedVariantError).
  { intros dd Hdd. unfold vp_zc. rewrite Hdd. simpl.
    rewrite (zc_loop_unequal _ (frags s) Hne). reflexivity. }
  split; [|exact Hdd].
  destruct (mbin fadd da db) as [dd|e] eqn:H.
  - eexists. now apply (Hdd dd).
  - exists e. unfold vp_zc. now rewrite H.
Qed.

(** C10: with equal occupations, the increment that [vp_zc] returns is
    decided by the coefficients and the eigenvalues of the last fragment
    alone: the tensor left by the loop is the response of the last
    fragment built from zero, and two engines on one reference whose last
    fragments agree on [Ca], [Cb], [eigs_a], [eigs_b] return the same,
    whatever their earlier fragments are. *)
Theorem vp_zc_only_last_fragment :
  forall (s1 s2 : Inversion) (earlier1 earlier2 : list Molecule)
         (last1 last2 : Molecule) (da_mn db_mn : Matrix) (rcond1 rcond2 : F),
    molecule s1 = molecule s2 ->
    nalpha (molecule s1) = nbeta (molecule s1) ->
    frags s1 = earlier1 ++ [last1] ->
    frags s2 = earlier2 ++ [last2] ->
    Forall (zc_ready (molecule s1)) earlier1 ->
    Forall (zc_ready (molecule s1)) earlier2 ->
    Ca last1 = Ca last2 -> Cb last1 = Cb last2 ->
    eigs_a last1 = eigs_a last2 -> eigs_b last1 = eigs_b last2 ->
    zc_loop (molecule s1) (frags s1)
      = rbind (zc_response (molecule s1) last1) (fun x => Ok (Some x)) /\
    vp_zc s1 da_mn db_mn rcond1 = vp_zc s2 da_mn db_mn rcond2.
Proof.
  intros s1 s2 e1 e2 l1 l2 da db r1 r2 Hmol Heq Hf1 Hf2 He1 He2 HCa HCb Hea Heb.
  assert (H1 := zc_loop_snoc (molecule s1) e1 l1 Heq He1).
  assert (H2 := zc_loop_snoc (molecule s1) e2 l2 Heq He2).
  split; [now rewrite Hf1|].
  unfold vp_zc. rewrite <- Hmol, Hf1, Hf2, H1, H2.
  assert (Hresp : zc_response (molecule s1) l1 = zc_response (molecule s1) l2).
  { unfold zc_response. now rewrite HCa, HCb, Hea, Heb. }
  now rewrite Hresp.
Qed.

End ZhangCarter.

(** ** Construction *)

Section Construction.
Context {R : Scalar} {E : Collaborators}.

(** When the grid of the first fragment has another number of points than
    the grid of the reference (and both carry grid densities), the
    constructor raises the grid mismatch, and it does so on the blank
    object: no energy and no density has been aggregated. *)
Lemma init_first_fragment_grid_mismatch
      (frag0 : Molecule) (rest : list Molecule) (mol : Molecule) :
  density_da mol <> [] ->
  density_da frag0 <> [] ->
  length (pts_x (np_xyzw (Vpot mol))) <> length (pts_x (np_xyzw (Vpot frag0))) ->
  Inversion_init (frag0 :: rest) mol
  = Raise GridMismatchError {| obj := blank (frag0 :: rest) mol; log := [] |}.
Proof.
  intros Hm Hf Hne.
  unfold Inversion_init.
  cbv [assert_grid_elements bind get_self lift raise ret blank index
       frags molecule obj nth_error].
  destruct (density_da mol) as [|? ?]; [contradiction|].
  destruct (density_da frag0) as [|? ?]; [contradiction|].
  apply Nat.eqb_neq in Hne. rewrite Hne. reflexivity.
Qed.

End Construction.

(** C5: the constructor compares the grid of the reference with the grid of
    [frags[0]] only.  Two fragments, the first on the grid of the reference
    (two points), the second on a grid of three points: the grid check
    passes, the fragment energies are aggregated, and the construction
    fails later, in the aggregation of the grid densities, with numpy's
    broadcast error and not with the grid mismatch. *)
Theorem init_checks_first_fragment_only :
  length (pts_x (np_xyzw (Vpot Sample.fine_fragment)))
    <> length (pts_x (np_xyzw (Vpot Sample.reference))) /\
  raised (Inversion_init [Sample.fragment; Sample.fine_fragment] Sample.reference)
    = Some BroadcastError /\
  BroadcastError <> GridMismatchError /\
  frag_energy
    (obj (final (Inversion_init [Sample.fragment; Sample.fine_fragment]
                                Sample.reference)))
    = Some (Qcplus (Qcplus (Q2Qc 0) (energy Sample.fragment))
                   (energy Sample.fine_fragment)) /\
  frag_da_r
    (obj (final (Inversion_init [Sample.fragment; Sample.fine_fragment]
                                Sample.reference)))
    = None.
Proof.
  split; [apply Nat.eqb_neq; reflexivity|].
  split; [reflexivity|].
  split; [discriminate|].
  split; reflexivity.
Qed.

(** C3 at the sample reference with one alpha and no beta electron. *)
Lemma vp_zc_unequal_occupation_raises_witness :
  let s := obj (Sample.engine_of [Sample.fragment; Sample.fragment]
                                 Sample.open_reference) in
  nalpha (molecule s) <> nbeta (molecule s) /\
  ((exists e, vp_zc s (Da Sample.fragment) (Db Sample.fragment) (Q2Qc 0) = Err e) /\
   (forall dd, mbin fadd (Da Sample.fragment) (Db Sample.fragment) = Ok dd ->
               vp_zc s (Da Sample.fragment) (Db Sample.fragment) (Q2Qc 0)
               = Err UnimplementedVariantError)).
Proof.
  intros s.
  assert (H : nalpha (molecule s) <> nbeta (molecule s)).
  { apply Nat.eqb_neq. reflexivity. }
  split; [exact H|].
  apply (vp_zc_unequal_occupation_raises s (Da Sample.fragment)
           (Db Sample.fragment) (Q2Qc 0) H).
Defined.

(** C10 at two sample engines that share the last fragment and differ in
    the number of earlier ones. *)
Lemma vp_zc_only_last_fragment_witness :
  let s1 := obj (Sample.engine_of [Sample.fragment; Sample.fragment]
                                  Sample.reference) in
  let s2 := obj (Sample.engine_of [Sample.fragment] Sample.reference) in
  zc_loop (molecule s1) (frags s1)
    = rbind (zc_response (molecule s1) Sample.fragment) (fun x => Ok (Some x)) /\
  vp_zc s1 (Da Sample.fragment) (Db Sample.fragment) (Q2Qc 0)
  = vp_zc s2 (Da Sample.fragment) (Db Sample.fragment) (Q2Qc 1).
Proof.
  intros s1 s2.
  apply (vp_zc_only_last_fragment s1 s2 [Sample.fragment] []
           Sample.fragment Sample.fragment);
    try reflexivity.
  - repeat constructor; simpl; lia.
  - constructor.
Defined.

(** ** Aggregation of the fragment densities *)

Section ArrayFacts.
Context {R : Scalar}.

Lemma index_nth {A} (xs : list A) (i : nat) (d : A) :
  i < length xs -> index xs i = Ok (nth i xs d).
Proof.
  intros Hi. unfold index.
  destruct (nth_error xs i) eqn:Hn.
  - now rewrite (nth_error_nth _ _ d Hn).
  - apply nth_error_None in Hn. lia.
Qed.

Lemma shape_row (r c : nat) (m : Matrix) (i : nat) :
  has_shape r c m -> i < r -> length (nth i m []) = c.
Proof.
  intros [Hl Hr] Hi. rewrite Forall_forall in Hr.
  apply Hr. apply nth_In. lia.
Qed.

Lemma tab_has_shape (r c : nat) (g : nat -> nat -> F) :
  has_shape r c (tab r (fun i => tab c (g i))).
Proof.
  split; [apply tab_length|].
  apply Forall_forall. intros row Hrow. unfold tab in Hrow.
  apply in_map_iff in Hrow. destruct Hrow as [i [<- _]].
  apply tab_length.
Qed.

Lemma at2_tab (r c : nat) (g : nat -> nat -> F) (i j : nat) :
  i < r -> j < c -> at2 (tab r (fun i => tab c (g i))) i j = g i j.
Proof.
  intros Hi Hj. unfold at2. rewrite nth_tab by assumption. now apply nth_tab.
Qed.

Lemma tab_at2 (r c : nat) (m : Matrix) :
  has_shape r c m -> tab r (fun i => tab c (fun j => at2 m i j)) = m.
Proof.
  intros Hm. transitivity (tab r (fun i => nth i m [])).
  - apply tab_ext. intros i Hi. unfold at2.
    rewrite <- (shape_row _ _ _ _ Hm Hi). apply tab_nth.
  - destruct Hm as [<- _]. apply tab_nth.
Qed.

Lemma tab_const {A} (n : nat) (c : A) : tab n (fun _ => c) = repeat c n.
Proof.
  induction n as [|n IH]; [reflexivity|].
  rewrite tab_S. simpl. now rewrite IH.
Qed.

Lemma zeros2_shape (r c : nat) : has_shape r c (zeros2 r c).
Proof.
  unfold zeros2, zeros. rewrite <- (tab_const r), <- (tab_const c).
  apply (tab_has_shape r c (fun _ _ => f0)).
Qed.

Lemma at1_zeros (n p : nat) : at1 (zeros n) p = f0.
Proof.
  unfold at1, zeros. apply nth_repeat.
Qed.

Lemma at2_zeros2 (r c i j : nat) : at2 (zeros2 r c) i j = f0.
Proof.
  unfold at2, zeros2.
  destruct (Nat.lt_ge_cases i r) as [Hi|Hi].
  - rewrite nth_repeat_lt by assumption. apply at1_zeros.
  - rewrite (nth_overflow (repeat (zeros c) r) [])
      by (now rewrite repeat_length).
    now destruct j.
Qed.

Lemma zeros_like_zeros (v : Vector) : zeros_like v = zeros (length v).
Proof.
  unfold zeros_like, zeros.
  induction v as [|x v IH]; simpl; [reflexivity | now rewrite IH].
Qed.

Lemma at1_zeros_like (v : Vector) (p : nat) : at1 (zeros_like v) p = f0.
Proof. rewrite zeros_like_zeros. apply at1_zeros. Qed.

Lemma vbin_tab (op : F -> F -> F) (a b : Vector) (n : nat) :
  length a = n -> length b = n ->
  vbin op a b = Ok (tab n (fun p => op (at1 a p) (at1 b p))).
Proof.
  intros Ha Hb. unfold vbin. rewrite bcast2_same by congruence.
  apply (ewise_tab BroadcastError _ f0 f0); auto.
Qed.

Lemma viop_tab (op : F -> F -> F) (a b : Vector) (n : nat) :
  length a = n -> length b = n ->
  viop op a b = Ok (tab n (fun p => op (at1 a p) (at1 b p))).
Proof.
  intros Ha Hb. unfold viop. rewrite bcast_same by congruence.
  apply (ewise_tab BroadcastError _ f0 f0); auto.
Qed.

Lemma mbin_tab (op : F -> F -> F) (a b : Matrix) (r c : nat) :
  has_shape r c a -> has_shape r c b ->
  mbin op a b = Ok (tab r (fun i => tab c (fun j => op (at2 a i j) (at2 b i j)))).
Proof.
  intros Ha Hb. unfold mbin.
  rewrite bcast2_same by (destruct Ha, Hb; congruence).
  apply (ewise_tab BroadcastError _ [] []); try (now destruct Ha, Hb).
  intros i Hi. apply vbin_tab; eapply shape_row; eassumption.
Qed.

Lemma axpy_tab (a : F) (X self : Matrix) (r c : nat) :
  has_shape r c self -> has_shape r c X ->
  axpy a X self
  = Ok (tab r (fun i => tab c (fun j => fadd (at2 self i j) (fmul a (at2 X i j))))).
Proof.
  intros Hs HX. unfold axpy.
  apply (ewise_tab AxpyError _ [] []); try (now destruct Hs, HX).
  intros i Hi.
  apply (ewise_tab AxpyError _ f0 f0); try (eapply shape_row; eassumption).
  reflexivity.
Qed.

End ArrayFacts.

Section Aggregation.
Context {R : Scalar} {E : Collaborators}.
Hypothesis one_times : forall x : F, fmul f1 x = x.

Lemma nm_step_tab (n : nat) (A B : Matrix) (f : Molecule) :
  has_shape n n A -> has_shape n n B ->
  has_shape n n (Da f) -> has_shape n n (Db f) ->
  nm_step (A, B) f
  = Ok (tab n (fun i => tab n (fun j => fadd (at2 A i j) (at2 (Da f) i j))),
        tab n (fun i => tab n (fun j => fadd (at2 B i j) (at2 (Db f) i j)))).
Proof.
  intros HA HB Ha Hb. unfold nm_step.
  rewrite (axpy_tab f1 (Da f) A n n HA Ha). cbn [rbind].
  rewrite (axpy_tab f1 (Db f) B n n HB Hb). cbn [rbind].
  do 2 f_equal; apply tab_ext; intros i _; apply tab_ext; intros j _;
    now rewrite one_times.
Qed.

Lemma nm_fold (n : nat) (fs : list Molecule) :
  Forall (fun f => has_shape n n (Da f) /\ has_shape n n (Db f)) fs ->
  forall A B : Matrix,
    has_shape n n A -> has_shape n n B ->
    foldM nm_step (A, B) fs
    = Ok (tab n (fun i => tab n (fun j =>
            fold_left fadd (map (fun f => at2 (Da f) i j) fs) (at2 A i j))),
          tab n (fun i => tab n (fun j =>
            fold_left fadd (map (fun f => at2 (Db f) i j) fs) (at2 B i j)))).
Proof.
  induction 1 as [|f fs [Ha Hb] _ IH]; intros A B HA HB.
  - simpl. now rewrite !tab_at2.
  - cbn [foldM]. rewrite (nm_step_tab n A B f HA HB Ha Hb). cbn [rbind].
    rewrite IH by apply tab_has_shape.
    do 2 f_equal; apply tab_ext; intros i Hi; apply tab_ext; intros j Hj;
      now rewrite at2_tab.
Qed.

Lemma sum_densities_nm_spec (n : nat) (fs : list Molecule) :
  Forall (fun f => has_shape n n (Da f) /\ has_shape n n (Db f)) fs ->
  sum_densities_nm n fs
  = Ok (matrix_sum n (map Da fs), matrix_sum n (map Db fs)).
Proof.
  intros Hfs. unfold sum_densities_nm.
  rewrite (nm_fold n fs Hfs) by apply zeros2_shape.
  unfold matrix_sum, fsum.
  do 2 f_equal; apply tab_ext; intros i _; apply tab_ext; intros j _;
    now rewrite at2_zeros2, map_map.
Qed.

Lemma block_step_tab (block La Lb : nat) (a b : Vector) (f : Molecule) :
  length a = La -> length b = Lb ->
  block < length (density_da f) -> block < length (density_db f) ->
  length (nth block (density_da f) []) = La ->
  length (nth block (density_db f) []) = Lb ->
  block_step block (a, b) f
  = Ok (tab La (fun p => fadd (at1 a p) (at1 (nth block (density_da f) []) p)),
        tab Lb (fun p => fadd (at1 b p) (at1 (nth block (density_db f) []) p))).
Proof.
  intros Ha Hb Hda Hdb Hla Hlb. unfold block_step.
  rewrite (index_nth (density_da f) block [] Hda). cbn [rbind].
  rewrite (viop_tab fadd a _ La Ha Hla). cbn [rbind].
  rewrite (index_nth (density_db f) block [] Hdb). cbn [rbind].
  rewrite (viop_tab fadd b _ Lb Hb Hlb). reflexivity.
Qed.

Lemma block_fold (block La Lb : nat) (fs : list Molecule) :
  Forall (fun f => block < length (density_da f) /\
                   block < length (density_db f) /\
                   length (nth block (density_da f) []) = La /\
                   length (nth block (density_db f) []) = Lb) fs ->
  forall a b : Vector,
    length a = La -> length b = Lb ->
    foldM (block_step block) (a, b) fs
    = Ok (tab La (fun p => fold_left fadd
                   (map (fun f => at1 (nth block (density_da f) []) p) fs) (at1 a p)),
          tab Lb (fun p => fold_left fadd
                   (map (fun f => at1 (nth block (density_db f) []) p) fs) (at1 b p))).
Proof.
  induction 1 as [|f fs (Hda & Hdb & Hla & Hlb) _ IH]; intros a b Ha Hb.
  - simpl. subst La Lb. unfold at1. now rewrite !tab_nth.
  - cbn [foldM].
    rewrite (block_step_tab block La Lb a b f Ha Hb Hda Hdb Hla Hlb).
    cbn [rbind]. rewrite IH by apply tab_length.
    do 2 f_equal; apply tab_ext; intros p Hp; cbn [map fold_left];
      unfold at1 at 2; now rewrite nth_tab.
Qed.

Lemma block_sums_spec (nb : nat) (mol : Molecule) (fs : list Molecule) (block : nat) :
  nb <= length (density_da mol) -> nb <= length (density_db mol) ->
  Forall (fun f => blocks_like nb (density_da mol) (density_da f) /\
                   blocks_like nb (density_db mol) (density_db f)) fs ->
  block < nb ->
  block_sums mol fs block
  = Ok (nth block (grid_sum nb (density_da mol) (map density_da fs)) [],
        nth block (grid_sum nb (density_db mol) (map density_db fs)) []).
Proof.
  intros Hma Hmb Hfs Hb. unfold block_sums.
  rewrite (index_nth (density_da mol) block []) by lia. cbn [rbind].
  rewrite (index_nth (density_db mol) block []) by lia. cbn [rbind].
  rewrite (block_fold block (length (nth block (density_da mol) []))
                      (length (nth block (density_db mol) [])) fs).
  - unfold grid_sum. rewrite !nth_tab by assumption. unfold fsum.
    do 2 f_equal; apply tab_ext; intros p _;
      now rewrite at1_zeros_like, map_map.
  - eapply Forall_impl; [|exact Hfs].
    intros f [[Hla Ha] [Hlb Hb']]. repeat split; try lia; auto.
  - unfold zeros_like. apply length_map.
  - unfold zeros_like. apply length_map.
Qed.

Lemma r_fold (mol : Molecule) (fs : list Molecule) (ga gb : nat -> Vector) :
  forall (n k : nat) (acc_a acc_b : list Vector),
    (forall b, k <= b < k + n -> block_sums mol fs b = Ok (ga b, gb b)) ->
    foldM (r_step mol fs) (acc_a, acc_b) (seq k n)
    = Ok (acc_a ++ map ga (seq k n), acc_b ++ map gb (seq k n)).
Proof.
  induction n as [|n IH]; intros k acc_a acc_b H.
  - simpl. now rewrite !app_nil_r.
  - cbn [seq foldM]. unfold r_step at 1. rewrite (H k) by lia. cbn [rbind].
    rewrite IH by (intros b Hb; apply H; lia).
    cbn [map]. now rewrite <- !app_assoc.
Qed.

Lemma sum_densities_r_spec (nb : nat) (mol : Molecule) (fs : list Molecule) :
  nb <= length (density_da mol) -> nb <= length (density_db mol) ->
  Forall (fun f => blocks_like nb (density_da mol) (density_da f) /\
                   blocks_like nb (density_db mol) (density_db f)) fs ->
  sum_densities_r nb mol fs
  = Ok (grid_sum nb (density_da mol) (map density_da fs),
        grid_sum nb (density_db mol) (map density_db fs)).
Proof.
  intros Hma Hmb Hfs. unfold sum_densities_r.
  rewrite (r_fold mol fs
             (fun b => nth b (grid_sum nb (density_da mol) (map density_da fs)) [])
             (fun b => nth b (grid_sum nb (density_db mol) (map density_db fs)) [])).
  - cbn [app]. do 2 f_equal;
      apply (tab_nth_len nb _ []); unfold grid_sum; apply tab_length.
  - intros b Hb. apply block_sums_spec; auto; lia.
Qed.

(** C8: the aggregate density is the elementwise sum of the fragment
    densities, for any list of fragments: in AO-matrix form, alpha and beta
    each ([matrix_sum]), and in grid form, block by block and point by
    point ([grid_sum]), provided the fragments have the shapes of the
    reference.  The methods return and change nothing but the aggregates. *)
Theorem aggregate_density_is_elementwise_sum :
  forall (w : World) (nb : nat),
    Forall (fun f => has_shape (self_nbf (obj w)) (self_nbf (obj w)) (Da f) /\
                     has_shape (self_nbf (obj w)) (self_nbf (obj w)) (Db f))
           (frags (obj w)) ->
    nblocks (obj w) = Some nb ->
    nb <= length (density_da (molecule (obj w))) ->
    nb <= length (density_db (molecule (obj w))) ->
    Forall (fun f =>
              blocks_like nb (density_da (molecule (obj w))) (density_da f) /\
              blocks_like nb (density_db (molecule (obj w))) (density_db f))
           (frags (obj w)) ->
    get_frag_densities_nm w
    = Done tt {| obj := set_frag_nm
                          (Some (matrix_sum (self_nbf (obj w)) (map Da (frags (obj w)))))
                          (Some (matrix_sum (self_nbf (obj w)) (map Db (frags (obj w)))))
                          (obj w);
                 log := log w |} /\
    get_frag_densities_r w
    = Done tt {| obj := set_frag_r
                          (Some (grid_sum nb (density_da (molecule (obj w)))
                                          (map density_da (frags (obj w)))))
                          (Some (grid_sum nb (density_db (molecule (obj w)))
                                          (map density_db (frags (obj w)))))
                          (obj w);
                 log := log w |}.
Proof.
  intros w nb Hnm Hnb Hma Hmb Hr. split.
  - unfold get_frag_densities_nm. cbv [bind get_self lift].
    rewrite (sum_densities_nm_spec _ _ Hnm). reflexivity.
  - unfold get_frag_densities_r. cbv [bind get_self lift attr].
    rewrite Hnb. rewrite (sum_densities_r_spec nb _ _ Hma Hmb Hr). reflexivity.
Qed.

End Aggregation.

(** Closed side conditions on the one block of the sample grid. *)
Ltac sample_blocks_like :=
  split; [apply Nat.leb_le; reflexivity
         | let b := fresh "b" in let Hb := fresh "Hb" in
           intros [|b] Hb; [reflexivity | lia]].

(** C8 at the sample engine of two fragments. *)
Lemma aggregate_density_is_elementwise_sum_witness :
  get_frag_densities_nm Sample.engine
  = Done tt {| obj := set_frag_nm
                        (Some (matrix_sum 2 [Da Sample.fragment; Da Sample.fragment]))
                        (Some (matrix_sum 2 [Db Sample.fragment; Db Sample.fragment]))
                        (obj Sample.engine);
               log := log Sample.engine |} /\
  get_frag_densities_r Sample.engine
  = Done tt {| obj := set_frag_r
                        (Some (grid_sum 1 (density_da Sample.reference)
                                 [density_da Sample.fragment; density_da Sample.fragment]))
                        (Some (grid_sum 1 (density_db Sample.reference)
                                 [density_db Sample.fragment; density_db Sample.fragment]))
                        (obj Sample.engine);
               log := log Sample.engine |}.
Proof.
  apply (@aggregate_density_is_elementwise_sum Qc_scalar
           Qcmult_1_l Sample.engine 1).
  - repeat constructor.
  - reflexivity.
  - apply Nat.leb_le. reflexivity.
  - apply Nat.leb_le. reflexivity.
  - repeat (apply Forall_cons || apply Forall_nil); split; sample_blocks_like.
Defined.

(** ** The residual *)

Section Residual.
Context {R : Scalar} {E : Collaborators}.

Lemma contract_p_p_integral (v wts : Vector) :
  length v = length wts -> contract_p_p v wts = Ok (integral v wts).
Proof.
  intros H. unfold contract_p_p, integral.
  rewrite H, Nat.eqb_refl. reflexivity.
Qed.

Lemma delta_grid_block_spec (s : Inversion) (nb : nat) (agg_a agg_b : list Vector)
      (dd_a dd_b : list Vector) (l : F) (block : nat) :
  frag_da_r s = Some agg_a -> frag_db_r s = Some agg_b ->
  nb <= length (grid_w (molecule s)) ->
  blocks_like nb (grid_w (molecule s)) (density_da (molecule s)) ->
  blocks_like nb (grid_w (molecule s)) (density_db (molecule s)) ->
  blocks_like nb (grid_w (molecule s)) agg_a ->
  blocks_like nb (grid_w (molecule s)) agg_b ->
  block < nb ->
  delta_grid_block s (dd_a, dd_b, l) block
  = Ok (dd_a ++ [nth block (grid_diff nb agg_a (density_da (molecule s))) []],
        dd_b ++ [nth block (grid_diff nb agg_b (density_db (molecule s))) []],
        fadd (fadd l
          (fabs (integral (nth block (grid_diff nb agg_a (density_da (molecule s))) [])
                          (nth block (grid_w (molecule s)) []))))
          (fabs (integral (nth block (grid_diff nb agg_b (density_db (molecule s))) [])
                          (nth block (grid_w (molecule s)) [])))).
Proof.
  intros Ha Hb Hw [Hma Hla] [Hmb Hlb] [Haa Hal] [Hab Hbl] Hblk.
  unfold delta_grid_block. rewrite Ha, Hb. unfold subscript.
  rewrite (index_nth agg_a block []) by lia. cbn [rbind].
  rewrite (index_nth (density_da (molecule s)) block []) by lia. cbn [rbind].
  rewrite (vbin_tab fsub (nth block agg_a []) (nth block (density_da (molecule s)) [])
                    (length (nth block (density_da (molecule s)) [])))
    by (rewrite ?Hal, ?Hla by assumption; reflexivity).
  cbn [rbind].
  rewrite (index_nth agg_b block []) by lia. cbn [rbind].
  rewrite (index_nth (density_db (molecule s)) block []) by lia. cbn [rbind].
  rewrite (vbin_tab fsub (nth block agg_b []) (nth block (density_db (molecule s)) [])
                    (length (nth block (density_db (molecule s)) [])))
    by (rewrite ?Hbl, ?Hlb by assumption; reflexivity).
  cbn [rbind].
  rewrite (index_nth (grid_w (molecule s)) block []) by lia. cbn [rbind].
  rewrite contract_p_p_integral by (rewrite tab_length; now apply Hla).
  cbn [rbind].
  rewrite contract_p_p_integral by (rewrite tab_length; now apply Hlb).
  cbn [rbind].
  unfold grid_diff. rewrite !nth_tab by assumption. reflexivity.
Qed.

Lemma delta_fold (s : Inversion) (DA DB : nat -> Vector) (ia ib : nat -> F) :
  forall (n k : nat) (dd_a dd_b : list Vector) (l : F),
    (forall b dd_a dd_b l, k <= b < k + n ->
       delta_grid_block s (dd_a, dd_b, l) b
       = Ok (dd_a ++ [DA b], dd_b ++ [DB b], fadd (fadd l (ia b)) (ib b))) ->
    foldM (delta_grid_block s) (dd_a, dd_b, l) (seq k n)
    = Ok (dd_a ++ map DA (seq k n), dd_b ++ map DB (seq k n),
          fold_left fadd (flat_map (fun b => [ia b; ib b]) (seq k n)) l).
Proof.
  induction n as [|n IH]; intros k dd_a dd_b l H.
  - simpl. now rewrite !app_nil_r.
  - cbn [seq foldM]. rewrite (H k) by lia. cbn [rbind].
    rewrite IH by (intros; apply H; lia).
    cbn [map flat_map app fold_left]. now rewrite <- !app_assoc.
Qed.

(** C2: in ["grid"] mode the residual is aggregate minus reference, block
    by block and point by point, for each spin channel, and the scalar
    error is the sum over the blocks and the two channels of the absolute
    value of the integral of the block (the absolute value of a sum over
    the points, not a sum of absolute values); in ["matrix"] mode the
    residual is reference minus aggregate, entry by entry, which is the
    opposite of aggregate minus reference. *)
Theorem delta_density_grid_and_matrix :
  forall (w : World) (nb : nat) (agg_a agg_b : list Vector) (fa fb : Matrix)
         (ra ca rb cb : nat),
    (forall x y : F, fsub x y = fopp (fsub y x)) ->
    nblocks (obj w) = Some nb ->
    frag_da_r (obj w) = Some agg_a -> frag_db_r (obj w) = Some agg_b ->
    nb <= length (grid_w (molecule (obj w))) ->
    blocks_like nb (grid_w (molecule (obj w))) (density_da (molecule (obj w))) ->
    blocks_like nb (grid_w (molecule (obj w))) (density_db (molecule (obj w))) ->
    blocks_like nb (grid_w (molecule (obj w))) agg_a ->
    blocks_like nb (grid_w (molecule (obj w))) agg_b ->
    frag_da_nm (obj w) = Some fa -> frag_db_nm (obj w) = Some fb ->
    has_shape ra ca (Da (molecule (obj w))) -> has_shape ra ca fa ->
    has_shape rb cb (Db (molecule (obj w))) -> has_shape rb cb fb ->
    get_delta_density "grid" w
    = Done (DeltaGrid
              (grid_diff nb agg_a (density_da (molecule (obj w))))
              (grid_diff nb agg_b (density_db (molecule (obj w))))
              (l1_error nb
                 (grid_diff nb agg_a (density_da (molecule (obj w))))
                 (grid_diff nb agg_b (density_db (molecule (obj w))))
                 (grid_w (molecule (obj w))))) w /\
    get_delta_density "matrix" w
    = Done (DeltaMatrix (matrix_diff ra ca (Da (molecule (obj w))) fa)
                        (matrix_diff rb cb (Db (molecule (obj w))) fb)) w /\
    (forall i j, i < ra -> j < ca ->
       at2 (matrix_diff ra ca (Da (molecule (obj w))) fa) i j
       = fopp (fsub (at2 fa i j) (at2 (Da (molecule (obj w))) i j))) /\
    (forall i j, i < rb -> j < cb ->
       at2 (matrix_diff rb cb (Db (molecule (obj w))) fb) i j
       = fopp (fsub (at2 fb i j) (at2 (Db (molecule (obj w))) i j))).
Proof.
  intros w nb agg_a agg_b fa fb ra ca rb cb Hopp Hnb Ha Hb Hw Hma Hmb Haa Hab
         Hfa Hfb HDa Hsa HDb Hsb.
  repeat split.
  - unfold get_delta_density. cbn [String.eqb Ascii.eqb Bool.eqb].
    cbv [bind get_self lift attr ret]. rewrite Hnb.
    rewrite (delta_fold (obj w)
      (fun b => nth b (grid_diff nb agg_a (density_da (molecule (obj w)))) [])
      (fun b => nth b (grid_diff nb agg_b (density_db (molecule (obj w)))) [])
      (fun b => fabs (integral
                  (nth b (grid_diff nb agg_a (density_da (molecule (obj w)))) [])
                  (nth b (grid_w (molecule (obj w))) [])))
      (fun b => fabs (integral
                  (nth b (grid_diff nb agg_b (density_db (molecule (obj w)))) [])
                  (nth b (grid_w (molecule (obj w))) [])))).
    + cbn [app]. unfold l1_error, fsum.
      do 2 f_equal; apply (tab_nth_len nb _ []);
        unfold grid_diff; apply tab_length.
    + intros b dd_a dd_b l Hblk.
      apply (delta_grid_block_spec (obj w) nb agg_a agg_b); auto; lia.
  - unfold get_delta_density. cbn [String.eqb Ascii.eqb Bool.eqb].
    cbv [bind get_self lift ret]. unfold delta_matrix. rewrite Hfa, Hfb.
    rewrite (mbin_tab fsub _ _ ra ca HDa Hsa). cbn [rbind].
    rewrite (mbin_tab fsub _ _ rb cb HDb Hsb). reflexivity.
  - intros i j Hi Hj. unfold matrix_diff. rewrite at2_tab by assumption.
    apply Hopp.
  - intros i j Hi Hj. unfold matrix_diff. rewrite at2_tab by assumption.
    apply Hopp.
Qed.

End Residual.

(** C2 at the sample engine: two fragments with a quarter of the density of
    the reference each. *)
Lemma delta_density_grid_and_matrix_witness :
  get_delta_density "grid" Sample.engine
  = Done (DeltaGrid
            (grid_diff 1 Sample.agg_a_r (density_da Sample.reference))
            (grid_diff 1 Sample.agg_b_r (density_db Sample.reference))
            (l1_error 1
               (grid_diff 1 Sample.agg_a_r (density_da Sample.reference))
               (grid_diff 1 Sample.agg_b_r (density_db Sample.reference))
               (grid_w Sample.reference))) Sample.engine /\
  get_delta_density "matrix" Sample.engine
  = Done (DeltaMatrix (matrix_diff 2 2 (Da Sample.reference) Sample.agg_a_nm)
                      (matrix_diff 2 2 (Db Sample.reference) Sample.agg_b_nm))
         Sample.engine /\
  (forall i j, i < 2 -> j < 2 ->
     at2 (matrix_diff 2 2 (Da Sample.reference) Sample.agg_a_nm) i j
     = fopp (fsub (at2 Sample.agg_a_nm i j) (at2 (Da Sample.reference) i j))) /\
  (forall i j, i < 2 -> j < 2 ->
     at2 (matrix_diff 2 2 (Db Sample.reference) Sample.agg_b_nm) i j
     = fopp (fsub (at2 Sample.agg_b_nm i j) (at2 (Db Sample.reference) i j))).
Proof.
  assert (Hopp : forall x y : Qc, (x - y = - (y - x))%Qc) by (intros; ring).
  apply (@delta_density_grid_and_matrix Qc_scalar Sample.engine 1
           Sample.agg_a_r Sample.agg_b_r Sample.agg_a_nm Sample.agg_b_nm
           2 2 2 2 Hopp);
    try reflexivity;
    try (apply Nat.leb_le; reflexivity);
    try (repeat constructor; fail);
    sample_blocks_like.
Defined.

(** The scalar error takes the absolute value after the integration: on a
    block where the difference is [1] at one point and [-1] at the other
    it is zero for both channels, while the differences are not. *)
Example l1_error_cancels_within_a_block :
  @l1_error Qc_scalar 1 [[Q2Qc 1; Q2Qc (-1)]] [[Q2Qc 1; Q2Qc (-1)]]
            [[Q2Qc 1; Q2Qc 1]] = Q2Qc 0.
Proof. apply Qc_decomp. reflexivity. Qed.

(** ** The Coulomb-kernel update *)

Section CoulombKernel.
Context {R : Scalar} {E : Collaborators}.

Lemma mscale_tab (c : F) (r k : nat) (g : nat -> nat -> F) :
  mscale c (tab r (fun i => tab k (g i)))
  = tab r (fun i => tab k (fun j => fmul c (g i j))).
Proof.
  unfold mscale, vscale, tab. rewrite map_map.
  apply map_ext. intros i. now rewrite map_map.
Qed.

Lemma dims_of_shape (n : nat) (d : Matrix) :
  has_shape n n d -> dim0 d = n /\ dim1 d = n.
Proof.
  intros [Hl Hr]. split; [exact Hl|].
  unfold dim1. destruct d as [|row d]; simpl in *; [assumption|].
  now inversion Hr.
Qed.

Lemma fsum_zeros (n : nat) :
  fadd f0 f0 = f0 -> fsum (tab n (fun _ => f0)) = f0.
Proof.
  intros H0. rewrite tab_const. unfold fsum.
  induction n as [|n IH]; simpl; [reflexivity|]. now rewrite H0.
Qed.

Lemma fsum2_zero (n m : nat) (g : nat -> nat -> F) :
  fadd f0 f0 = f0 ->
  (forall i j, i < n -> j < m -> g i j = f0) ->
  fsum2 n m g = f0.
Proof.
  intros H0 Hg. unfold fsum2.
  rewrite (tab_ext n _ (fun _ => f0)); [now apply fsum_zeros|].
  intros i Hi.
  rewrite (tab_ext m _ (fun _ => f0)); [now apply fsum_zeros|].
  intros j Hj. now apply Hg.
Qed.

Lemma coulomb_increment_zero (t : Tensor4) (n : nat) :
  (forall x : F, fmul x f0 = f0) -> fadd f0 f0 = f0 ->
  coulomb_increment t (zeros2 n n) = zeros2 (dim0 t) (dim3 t).
Proof.
  intros Hm H0. unfold coulomb_increment, zeros2, zeros.
  rewrite <- (tab_const (dim0 t)), <- (tab_const (dim3 t)).
  apply tab_ext. intros i _. apply tab_ext. intros j _.
  rewrite fsum2_zero; [apply Hm | exact H0 |].
  intros m l _ _. fold (zeros n). fold (zeros2 n n).
  now rewrite at2_zeros2.
Qed.

Lemma contract_imlj_ml_ok (t : Tensor4) (d : Matrix) :
  dim1 t = dim0 d -> dim2 t = dim1 d ->
  contract_imlj_ml t d
  = Ok (tab (dim0 t) (fun i => tab (dim3 t) (fun j =>
          fsum2 (dim0 d) (dim1 d) (fun m l => fmul (at4 t i m l j) (at2 d m l))))).
Proof.
  intros H1 H2. unfold contract_imlj_ml.
  apply Nat.eqb_eq in H1, H2. now rewrite H1, H2.
Qed.

Lemma vp_zpm_spec (s : Inversion) (dd_a dd_b : Matrix) :
  dim1 (ao_eri (molecule s)) = dim0 dd_a ->
  dim2 (ao_eri (molecule s)) = dim1 dd_a ->
  dim1 (ao_eri (molecule s)) = dim0 dd_b ->
  dim2 (ao_eri (molecule s)) = dim1 dd_b ->
  vp_zpm s dd_a dd_b
  = Ok (coulomb_increment (ao_eri (molecule s)) dd_a,
        coulomb_increment (ao_eri (molecule s)) dd_b).
Proof.
  intros H1 H2 H3 H4. unfold vp_zpm.
  rewrite (contract_imlj_ml_ok _ dd_a H1 H2). cbn [rbind].
  rewrite (contract_imlj_ml_ok _ dd_b H3 H4). cbn [rbind].
  unfold coulomb_increment. now rewrite !mscale_tab.
Qed.

(** C7: for residuals of the size of the contracted labels, [vp_zpm]
    returns for each spin channel the Coulomb-kernel increment of the
    residual of that channel, [-0.5] times the contraction of the
    two-electron tensor with the residual over the two inner indices: the
    two channels go through one formula and neither enters the other.  On
    the zero residual the increment is the zero matrix. *)
Theorem vp_zpm_coulomb_increment :
  forall (s : Inversion) (n : nat) (dd_a dd_b : Matrix),
    (forall x : F, fmul x f0 = f0) -> fadd f0 f0 = f0 ->
    dim1 (ao_eri (molecule s)) = n -> dim2 (ao_eri (molecule s)) = n ->
    has_shape n n dd_a -> has_shape n n dd_b ->
    vp_zpm s dd_a dd_b
    = Ok (coulomb_increment (ao_eri (molecule s)) dd_a,
          coulomb_increment (ao_eri (molecule s)) dd_b) /\
    (forall i j, i < dim0 (ao_eri (molecule s)) -> j < dim3 (ao_eri (molecule s)) ->
       entry (coulomb_increment (ao_eri (molecule s)) dd_a) i j
       = Some (fmul (fopp fhalf)
                 (fsum2 n n (fun m l =>
                    fmul (at4 (ao_eri (molecule s)) i m l j) (at2 dd_a m l))))) /\
    vp_zpm s (zeros2 n n) (zeros2 n n)
    = Ok (zeros2 (dim0 (ao_eri (molecule s))) (dim3 (ao_eri (molecule s))),
          zeros2 (dim0 (ao_eri (molecule s))) (dim3 (ao_eri (molecule s)))).
Proof.
  intros s n dd_a dd_b Hm H0 H1 H2 Ha Hb.
  destruct (dims_of_shape n dd_a Ha) as [Ha0 Ha1].
  destruct (dims_of_shape n dd_b Hb) as [Hb0 Hb1].
  destruct (dims_of_shape n (zeros2 n n) (zeros2_shape n n)) as [Hz0 Hz1].
  repeat split.
  - apply vp_zpm_spec; congruence.
  - intros i j Hi Hj. unfold coulomb_increment, entry.
    rewrite nth_error_tab by assumption. rewrite nth_error_tab by assumption.
    now rewrite Ha0, Ha1.
  - rewrite vp_zpm_spec by congruence.
    now rewrite (coulomb_increment_zero _ n Hm H0).
Qed.

End CoulombKernel.

(** C7 at the sample engine and the residual of its fragments. *)
Lemma vp_zpm_coulomb_increment_witness :
  vp_zpm (obj Sample.engine)
         (matrix_diff 2 2 (Da Sample.reference) Sample.agg_a_nm)
         (matrix_diff 2 2 (Db Sample.reference) Sample.agg_b_nm)
  = Ok (coulomb_increment Sample.eri_diag
          (matrix_diff 2 2 (Da Sample.reference) Sample.agg_a_nm),
        coulomb_increment Sample.eri_diag
          (matrix_diff 2 2 (Db Sample.reference) Sample.agg_b_nm)) /\
  (forall i j, i < 2 -> j < 2 ->
     entry (coulomb_increment Sample.eri_diag
              (matrix_diff 2 2 (Da Sample.reference) Sample.agg_a_nm)) i j
     = Some (fmul (fopp fhalf)
               (fsum2 2 2 (fun m l =>
                  fmul (at4 Sample.eri_diag i m l j)
                       (at2 (matrix_diff 2 2 (Da Sample.reference) Sample.agg_a_nm)
                            m l))))) /\
  vp_zpm (obj Sample.engine) (zeros2 2 2) (zeros2 2 2)
  = Ok (@zeros2 Qc_scalar 2 2, @zeros2 Qc_scalar 2 2).
Proof.
  apply (@vp_zpm_coulomb_increment Qc_scalar (obj Sample.engine) 2
           (matrix_diff 2 2 (Da Sample.reference) Sample.agg_a_nm)
           (matrix_diff 2 2 (Db Sample.reference) Sample.agg_b_nm)
           Qcmult_0_r (Qcplus_0_l (Q2Qc 0)));
    try reflexivity; apply tab_has_shape.
Defined.

(** ** Symmetry of the increments *)

Section SymmetryFacts.
Context {R : Scalar}.

Lemma at2_entry (m : Matrix) (i j : nat) :
  at2 m i j = match entry m i j with Some x => x | None => f0 end.
Proof.
  unfold at2, entry.
  destruct (nth_error m i) as [row|] eqn:Hi.
  - rewrite (@nth_error_nth _ m i row [] Hi).
    destruct (nth_error row j) as [x|] eqn:Hj.
    + apply (@nth_error_nth _ row j x f0 Hj).
    + apply nth_overflow. now apply nth_error_None.
  - rewrite (nth_overflow m []) by (now apply nth_error_None).
    now destruct j.
Qed.

Lemma entry_tab2 (r c : nat) (g : nat -> nat -> F) (i j : nat) :
  entry (tab r (fun i => tab c (g i))) i j
  = if Nat.ltb i r && Nat.ltb j c then Some (g i j) else None.
Proof.
  unfold entry.
  destruct (Nat.ltb_spec i r) as [Hi|Hi]; cbn [andb].
  - rewrite nth_error_tab by assumption.
    destruct (Nat.ltb_spec j c) as [Hj|Hj].
    + now apply nth_error_tab.
    + now apply nth_error_tab_ge.
  - now rewrite nth_error_tab_ge.
Qed.

Lemma symmetric_sym2 (m : Matrix) : symmetric m -> sym2 m.
Proof. intros H i j. now rewrite !at2_entry, H. Qed.

Lemma entry_shape (n : nat) (m : Matrix) (i j : nat) :
  has_shape n n m ->
  entry m i j = if Nat.ltb i n && Nat.ltb j n then Some (at2 m i j) else None.
Proof.
  intros Hm. unfold entry, at2.
  destruct (Nat.ltb_spec i n) as [Hi|Hi]; cbn [andb].
  - assert (Hr := shape_row n n m i Hm Hi).
    destruct Hm as [Hl _].
    rewrite (nth_error_nth' m []) by lia.
    destruct (Nat.ltb_spec j n) as [Hj|Hj].
    + now rewrite (nth_error_nth' _ f0) by lia.
    + apply nth_error_None. lia.
  - destruct Hm as [Hl _].
    now rewrite (proj2 (nth_error_None m i)) by lia.
Qed.

Lemma sym2_symmetric (n : nat) (m : Matrix) :
  has_shape n n m -> sym2 m -> symmetric m.
Proof.
  intros Hm Hs i j. rewrite !(entry_shape n m) by assumption.
  rewrite (Hs i j), andb_comm. reflexivity.
Qed.

Lemma at2_tab_if (r c : nat) (g : nat -> nat -> F) (i j : nat) :
  at2 (tab r (fun i => tab c (g i))) i j
  = if Nat.ltb i r && Nat.ltb j c then g i j else f0.
Proof.
  rewrite at2_entry, (entry_tab2 r c g i j).
  destruct (Nat.ltb i r && Nat.ltb j c); reflexivity.
Qed.

Lemma sym2_tab (n : nat) (g : nat -> nat -> F) :
  (forall i j, i < n -> j < n -> g i j = g j i) ->
  sym2 (tab n (fun i => tab n (g i))).
Proof.
  intros Hg i j. rewrite !at2_tab_if.
  destruct (Nat.ltb_spec i n), (Nat.ltb_spec j n); cbn [andb]; auto.
Qed.

Lemma symmetric_tab (n : nat) (g : nat -> nat -> F) :
  (forall i j, i < n -> j < n -> g i j = g j i) ->
  symmetric (tab n (fun i => tab n (g i))).
Proof.
  intros Hg. apply (sym2_symmetric n); [apply tab_has_shape | now apply sym2_tab].
Qed.

(** Sums in exact arithmetic. *)
Section Sums.
Hypothesis exact : ExactArith R.

Lemma fsum_snoc (xs : list F) (x : F) : fsum (xs ++ [x]) = fadd (fsum xs) x.
Proof. unfold fsum. now rewrite fold_left_app. Qed.

Lemma fadd_swap (a b c d : F) :
  fadd (fadd a b) (fadd c d) = fadd (fadd a c) (fadd b d).
Proof.
  rewrite !(fadd_assoc exact).
  f_equal.
  rewrite <- !(fadd_assoc exact). f_equal. apply (fadd_comm exact).
Qed.

Lemma fsum_tab_add (n : nat) (a b : nat -> F) :
  fsum (tab n (fun i => fadd (a i) (b i)))
  = fadd (fsum (tab n a)) (fsum (tab n b)).
Proof.
  induction n as [|n IH].
  - unfold fsum. simpl. now rewrite (fadd_0_l exact).
  - rewrite !tab_snoc, !fsum_snoc, IH. apply fadd_swap.
Qed.

Lemma fsum2_exchange (n m : nat) (g : nat -> nat -> F) :
  fsum2 n m g = fsum2 m n (fun j i => g i j).
Proof.
  unfold fsum2. induction m as [|m IH].
  - unfold tab at 2 3. simpl.
    apply fsum_zeros. apply (fadd_0_l exact).
  - rewrite tab_snoc, fsum_snoc, <- IH, <- fsum_tab_add.
    f_equal. apply tab_ext. intros i _.
    now rewrite tab_snoc, fsum_snoc.
Qed.

End Sums.

End SymmetryFacts.

Section IncrementSymmetry.
Context {R : Scalar} {E : Collaborators}.
Hypothesis exact : ExactArith R.

Lemma sq_symmetric (n : nat) (m : Matrix) : sq n m -> symmetric m.
Proof. intros [Hs Hm]. now apply (sym2_symmetric n). Qed.

Lemma sq_tab (n : nat) (g : nat -> nat -> F) :
  (forall i j, i < n -> j < n -> g i j = g j i) ->
  sq n (tab n (fun i => tab n (g i))).
Proof. intros Hg. split; [apply tab_has_shape | now apply sym2_tab]. Qed.

Lemma map_tab {A B} (h : A -> B) (n : nat) (f : nat -> A) :
  map h (tab n f) = tab n (fun i => h (f i)).
Proof. unfold tab. now rewrite map_map. Qed.

(** *** The residual *)

Lemma matrix_sum_sq (n : nat) (ms : list Matrix) :
  Forall sym2 ms -> sq n (matrix_sum n ms).
Proof.
  intros Hms. apply sq_tab. intros i j _ _. f_equal.
  apply map_ext_in. intros m Hm. rewrite Forall_forall in Hms.
  now apply Hms.
Qed.

Lemma matrix_diff_sq (n : nat) (x y : Matrix) :
  sym2 x -> sym2 y -> sq n (matrix_diff n n x y).
Proof.
  intros Hx Hy. apply sq_tab. intros i j _ _. now rewrite (Hx i j), (Hy i j).
Qed.

Lemma delta_matrix_spec (s : Inversion) (fa fb : Matrix) (n : nat) :
  frag_da_nm s = Some fa -> frag_db_nm s = Some fb ->
  has_shape n n (Da (molecule s)) -> has_shape n n fa ->
  has_shape n n (Db (molecule s)) -> has_shape n n fb ->
  delta_matrix s
  = Ok (matrix_diff n n (Da (molecule s)) fa, matrix_diff n n (Db (molecule s)) fb).
Proof.
  intros Hfa Hfb HDa Hsa HDb Hsb. unfold delta_matrix. rewrite Hfa, Hfb.
  rewrite (mbin_tab fsub _ _ n n HDa Hsa). cbn [rbind].
  now rewrite (mbin_tab fsub _ _ n n HDb Hsb).
Qed.

(** *** The Coulomb kernel *)

Lemma coulomb_increment_sq (n : nat) (t : Tensor4) (d : Matrix) :
  eri_shape n t -> eri_symmetric t -> sq n d ->
  sq n (coulomb_increment t d).
Proof.
  intros (H0 & _ & _ & H3) Ht [Hd Hsd]. unfold coulomb_increment.
  rewrite H0, H3.
  destruct (dims_of_shape n d Hd) as [-> ->].
  apply sq_tab. intros i j _ _. f_equal.
  rewrite (fsum2_exchange exact n n).
  unfold fsum2. f_equal. apply tab_ext. intros m _. f_equal.
  apply tab_ext. intros l _.
  now rewrite (Ht i l m j), (Hsd l m).
Qed.

(** *** The symmetrisation *)

Lemma ncols_square (n : nat) (m : Matrix) : has_shape n n m -> ncols m = n.
Proof.
  intros [Hl Hr]. destruct m as [|row m]; simpl in *; [assumption|].
  now inversion Hr.
Qed.

Lemma transpose_square (n : nat) (m : Matrix) :
  has_shape n n m ->
  transpose m = tab n (fun j => tab n (fun i => at2 m i j)).
Proof.
  intros Hm. unfold transpose. rewrite (ncols_square n m Hm).
  apply tab_ext. intros j _. unfold column.
  rewrite <- (tab_nth_len n m [] (proj1 Hm)) at 1.
  now rewrite map_tab.
Qed.

Lemma symmetrize_square (n : nat) (m : Matrix) :
  has_shape n n m ->
  symmetrize m
  = Ok (tab n (fun i => tab n (fun j => fmul fhalf (fadd (at2 m i j) (at2 m j i))))).
Proof.
  intros Hm. unfold symmetrize.
  rewrite (mbin_tab fadd m (transpose m) n n Hm)
    by (rewrite (transpose_square n m Hm); apply tab_has_shape).
  cbn [rbind]. rewrite mscale_tab. f_equal.
  apply tab_ext. intros i Hi. apply tab_ext. intros j Hj.
  rewrite (transpose_square n m Hm). now rewrite at2_tab.
Qed.

Lemma symmetrize_sq (n : nat) (m r : Matrix) :
  has_shape n n m -> symmetrize m = Ok r -> sq n r.
Proof.
  intros Hm Hr. rewrite (symmetrize_square n m Hm) in Hr.
  inversion Hr; subst r. apply sq_tab. intros i j _ _.
  now rewrite (fadd_comm exact).
Qed.

(** *** The Zhang-Carter update *)

Lemma zeros4_outer (n : nat) : outer_shape n (zeros4 n n n n).
Proof.
  unfold zeros4. split; [apply repeat_length|].
  intros i Hi. rewrite nth_repeat_lt by assumption. apply repeat_length.
Qed.

Lemma t4_iadd_outer (n : nat) (x y z : Tensor4) :
  t4_iadd x y = Ok z -> outer_shape n x -> outer_shape n z.
Proof.
  intros H [Hl Hr]. unfold t4_iadd in H.
  destruct (bcast_inv _ [] [] _ _ _ H) as (Hz & _ & Hn).
  split; [exact (eq_trans Hz Hl)|].
  intros i Hi.
  assert (Hi' : i < length x) by (rewrite Hl; exact Hi).
  destruct (bcast_inv _ [] [] _ _ _ (Hn i Hi')) as (Hzi & _ & _).
  exact (eq_trans Hzi (Hr i Hi)).
Qed.

Lemma zc_term_outer (n : nat) (C : Matrix) (eigs : Vector) (i a : nat)
      (x x' : Tensor4) :
  zc_term C eigs i a x = Ok x' -> outer_shape n x -> outer_shape n x'.
Proof.
  unfold zc_term. intros H Hx.
  apply rbind_ok in H. destruct H as (Ci & _ & H).
  apply rbind_ok in H. destruct H as (Ca_ & _ & H).
  apply rbind_ok in H. destruct H as (c & _ & H).
  apply rbind_ok in H. destruct H as (ei & _ & H).
  apply rbind_ok in H. destruct H as (ea & _ & H).
  eapply t4_iadd_outer; eassumption.
Qed.

Lemma zc_response_outer (mol frag : Molecule) (x : Tensor4) :
  zc_response mol frag = Ok x -> outer_shape (nbf mol) x.
Proof.
  unfold zc_response.
  apply (foldM_invariant (outer_shape (nbf mol))); [|apply zeros4_outer].
  intros x0 i x1 Hx0.
  apply (foldM_invariant (outer_shape (nbf mol))); [|exact Hx0].
  intros y a y' Hy H.
  apply rbind_ok in H. destruct H as (y1 & H1 & H2).
  eapply zc_term_outer; [exact H2|]. eapply zc_term_outer; eassumption.
Qed.

Lemma zc_loop_outer (mol : Molecule) (fs : list Molecule) (x : Tensor4) :
  zc_loop mol fs = Ok (Some x) -> outer_shape (nbf mol) x.
Proof.
  unfold zc_loop. intros H.
  refine (foldM_invariant
            (fun o : option Tensor4 =>
               forall t, o = Some t -> outer_shape (nbf mol) t)
            _ _ fs None (Some x) _ H x eq_refl).
  - intros o f o' Ho Hstep t Ht. subst o'.
    destruct (Nat.eqb (nalpha mol) (nbeta mol)).
    + apply rbind_ok in Hstep. destruct Hstep as (x' & Hx' & Heq).
      inversion Heq; subst. eapply zc_response_outer; eassumption.
    + inversion Hstep; subst. now apply Ho.
  - discriminate.
Qed.

Lemma contract_mnls_ls_shape (n : nat) (t : Tensor4) (d dvp : Matrix) :
  outer_shape n t -> contract_mnls_ls t d = Ok dvp -> has_shape n n dvp.
Proof.
  intros [Hl Hr] H. unfold contract_mnls_ls in H.
  destruct (Nat.eqb (dim2 t) (dim0 d) && Nat.eqb (dim3 t) (dim1 d));
    [|discriminate].
  inversion H; subst dvp. unfold dim0, dim1. rewrite Hl.
  destruct n as [|n]; [split; [reflexivity | constructor]|].
  replace (length (hd [] t)) with (S n); [apply tab_has_shape|].
  rewrite <- (Hr 0) by lia. now destruct t.
Qed.

Lemma nth_map_map_length {A B} (h : A -> B) (t : list (list A)) (i : nat) :
  length (nth i (map (map h) t) []) = length (nth i t []).
Proof.
  revert i. induction t as [|r t IH]; intros [|i]; simpl; auto.
  apply length_map.
Qed.

Lemma vp_zc_sq (s : Inversion) (da db : Matrix) (rcond : F) (dvp_a dvp_b : Matrix) :
  vp_zc s da db rcond = Ok (dvp_a, dvp_b) ->
  sq (nbf (molecule s)) dvp_a /\ sq (nbf (molecule s)) dvp_b.
Proof.
  unfold vp_zc. intros H.
  apply rbind_ok in H. destruct H as (dd & _ & H).
  apply rbind_ok in H. destruct H as ([x|] & Hx & H); [|discriminate].
  apply rbind_ok in H. destruct H as (dvp & Hc & H).
  apply rbind_ok in H. destruct H as (r & Hr & H).
  inversion H; subst dvp_a dvp_b.
  assert (Hsq : sq (nbf (molecule s)) r).
  { apply (symmetrize_sq (nbf (molecule s)) dvp); [|exact Hr].
    apply (contract_mnls_ls_shape (nbf (molecule s)) (map (map pinv) x) dd dvp);
      [|exact Hc].
    destruct (zc_loop_outer _ _ _ Hx) as [Hl Hi].
    split; [now rewrite length_map|].
    intros i Hlt. exact (eq_trans (nth_map_map_length pinv x i) (Hi i Hlt)). }
  now split.
Qed.

(** *** The orbital-response update *)

Lemma index_ok {A} (xs : list A) (i : nat) (x d : A) :
  index xs i = Ok x -> i < length xs /\ nth i xs d = x.
Proof.
  unfold index. destruct (nth_error xs i) as [y|] eqn:H; [|discriminate].
  intros Hx. inversion Hx; subst y. split.
  - apply nth_error_Some. congruence.
  - now apply nth_error_nth.
Qed.

Lemma lt_eq_l {k n m : nat} : n = m -> k < m -> k < n.
Proof. intros ->. exact (fun H => H). Qed.

Lemma rindex_lt (xs : list nat) (x k : nat) :
  rindex xs x = Some k -> k < length xs.
Proof.
  revert k. induction xs as [|y xs IH]; intros k H; simpl in *; [discriminate|].
  destruct (rindex xs x) as [k'|].
  - inversion H; subst. specialize (IH k' eq_refl). lia.
  - destruct (Nat.eqb y x); inversion H; subst. lia.
Qed.

Lemma map_zeros_like (c : nat) (m : Matrix) :
  Forall (has_len c) m -> map zeros_like m = repeat (zeros c) (length m).
Proof.
  induction 1 as [|row m Hrow _ IH]; simpl; [reflexivity|].
  rewrite IH, zeros_like_zeros. unfold has_len in Hrow. now rewrite Hrow.
Qed.

Lemma zeros_like2_zeros2 (n : nat) (m : Matrix) :
  has_shape n n m -> zeros_like2 m = zeros2 n n.
Proof.
  intros [Hl Hr]. unfold zeros_like2, zeros2.
  now rewrite (map_zeros_like n m Hr), Hl.
Qed.

Lemma zeros2_sq (n : nat) : sq n (zeros2 n n).
Proof.
  split; [apply zeros2_shape|]. intros i j. now rewrite !at2_zeros2.
Qed.

(** The entries that the scattered addition reads. *)
Lemma gather_spec (dvp : Matrix) (lpos : list nat) (G : Matrix) :
  mapM (fun a => row <- index dvp a ;; mapM (fun b => index row b) lpos) lpos
  = Ok G ->
  length G = length lpos /\
  forall a, a < length lpos ->
    length (nth a G []) = length lpos /\
    forall b, b < length lpos ->
      at2 G a b = at2 dvp (nth a lpos 0) (nth b lpos 0).
Proof.
  intros H.
  destruct (mapM_inv _ 0 [] _ _ H) as [Hl Hn].
  split; [exact Hl|].
  intros a Ha. specialize (Hn a Ha). cbv beta in Hn.
  apply rbind_ok in Hn. destruct Hn as (row & Hrow & Hm).
  destruct (index_ok _ _ _ [] Hrow) as [_ Hrow'].
  destruct (mapM_inv _ 0 f0 _ _ Hm) as [Hl' Hn'].
  split; [exact Hl'|].
  intros b Hb. specialize (Hn' b Hb). cbv beta in Hn'.
  destruct (index_ok _ _ _ f0 Hn') as [_ Hv].
  subst row. unfold at2. symmetry. exact Hv.
Qed.

(** The entries that the in-place addition of a matrix writes. *)
Lemma miop_spec (op : F -> F -> F) (G val G' : Matrix) :
  miop op G val = Ok G' ->
  length G' = length G /\
  (length val = 1 \/ length val = length G) /\
  forall a, a < length G ->
    length (nth a G' []) = length (nth a G []) /\
    (length (nth (bidx (length val) a) val []) = 1 \/
     length (nth (bidx (length val) a) val []) = length (nth a G [])) /\
    forall b, b < length (nth a G []) ->
      at2 G' a b
      = op (at2 G a b)
           (at2 val (bidx (length val) a)
                (bidx (length (nth (bidx (length val) a) val [])) b)).
Proof.
  intros H. unfold miop in H.
  destruct (bcast_inv _ [] [] _ _ _ H) as (Hl & Hv & Hn).
  split; [exact Hl|]. split; [exact Hv|].
  intros a Ha. specialize (Hn a Ha). unfold viop in Hn.
  destruct (bcast_inv _ f0 f0 _ _ _ Hn) as (Hl' & Hv' & Hn').
  split; [exact Hl'|]. split; [exact Hv'|].
  intros b Hb. specialize (Hn' b Hb). cbv beta in Hn'.
  inversion Hn' as [Heq]. symmetry. exact Heq.
Qed.

Lemma fancy_iadd_sq (n A : nat) (dvp val dvp' : Matrix) (lpos : list nat) :
  sq n dvp -> sq A val ->
  fancy_iadd dvp lpos val = Ok dvp' -> sq n dvp'.
Proof.
  intros [Hd Hsd] [Hv Hsv] H. unfold fancy_iadd in H.
  apply rbind_ok in H. destruct H as (G & HG & H).
  apply rbind_ok in H. destruct H as (G' & HG' & H).
  inversion H; subst dvp'. clear H.
  destruct (gather_spec _ _ _ HG) as [HlG HnG].
  destruct (miop_spec _ _ _ _ HG') as (_ & Hlen & Hn).
  rewrite (proj1 Hd).
  rewrite (tab_ext n _
    (fun P => tab n (fun Q =>
       match rindex lpos P, rindex lpos Q with
       | Some a, Some b => at2 G' a b
       | _, _ => at2 dvp P Q
       end))).
  2:{ intros P HP. now rewrite (shape_row n n dvp P Hd HP). }
  apply sq_tab. intros P Q _ _.
  destruct (rindex lpos P) as [a|] eqn:Ha;
    destruct (rindex lpos Q) as [b|] eqn:Hb; try apply Hsd.
  apply rindex_lt in Ha, Hb.
  assert (Hrow : forall c, c < length lpos ->
            bidx (length val) c < A /\
            length (nth (bidx (length val) c) val []) = A).
  { intros c Hc.
    assert (Hb' : bidx (length val) c < A).
    { destruct Hv as [HlA _]. rewrite HlA in *. unfold bidx.
      destruct (Nat.eqb_spec A 1); [lia|].
      destruct Hlen as [?|Hlen]; [contradiction|]. rewrite Hlen, HlG. exact Hc. }
    split; [exact Hb'|]. now apply (shape_row A A val). }
  assert (HaG : a < length G) by exact (lt_eq_l HlG Ha).
  assert (HbG : b < length G) by exact (lt_eq_l HlG Hb).
  destruct (Hn a HaG) as (_ & _ & Hab).
  destruct (Hn b HbG) as (_ & _ & Hba).
  rewrite (Hab b (lt_eq_l (proj1 (HnG a Ha)) Hb)).
  rewrite (Hba a (lt_eq_l (proj1 (HnG b Hb)) Ha)).
  rewrite (proj2 (Hrow a Ha)), (proj2 (Hrow b Hb)).
  rewrite (proj2 (HnG a Ha) b Hb), (proj2 (HnG b Hb) a Ha).
  now rewrite (Hsd (nth a lpos 0) (nth b lpos 0)),
              (Hsv (bidx (length val) a) (bidx A b)),
              (proj1 Hv).
Qed.

Lemma contract_pb_p_p_pa_square (X : Matrix) (u v : Vector) (r : Matrix) :
  contract_pb_p_p_pa X u v X = Ok r -> has_shape (dim1 X) (dim1 X) r.
Proof.
  unfold contract_pb_p_p_pa.
  destruct (Nat.eqb (dim0 X) (length u) && Nat.eqb (dim0 X) (length v)
            && Nat.eqb (dim0 X) (dim0 X)); [|discriminate].
  intros H. inversion H; subst r. apply tab_has_shape.
Qed.

Lemma wy_block_sq (n : nat) (s : Inversion) (dd : list Vector)
      (dvp dvp' : Matrix) (bg : nat * GridBlock) :
  sq n dvp -> wy_block s dd dvp bg = Ok dvp' -> sq n dvp'.
Proof.
  intros Hd H. destruct bg as [block g]. unfold wy_block in H.
  apply rbind_ok in H. destruct H as (x_a & _ & H).
  apply rbind_ok in H. destruct H as (dvp_block & _ & H).
  apply rbind_ok in H. destruct H as (vtmp & Hv & H).
  apply rbind_ok in H. destruct H as (val & Hval & H).
  eapply fancy_iadd_sq; [exact Hd | | exact H].
  eapply symmetrize_sq; [|exact Hval].
  eapply contract_pb_p_p_pa_square. exact Hv.
Qed.

Lemma vp_wy_r_sq (n : nat) (s : Inversion) (dd_a dd_b : list Vector)
      (dvp_a dvp_b : Matrix) :
  has_shape n n (Da (molecule s)) ->
  vp_wy_r s dd_a dd_b = Ok (dvp_a, dvp_b) ->
  sq n dvp_a /\ sq n dvp_b.
Proof.
  intros HDa H. unfold vp_wy_r in H.
  destruct (nblocks s) as [nb|]; [|discriminate].
  destruct (negb (Nat.eqb nb (length (blocks (Vpot (molecule s))))));
    [discriminate|].
  apply rbind_ok in H. destruct H as (dvp & Hf & H).
  inversion H; subst dvp_a dvp_b.
  assert (Hsq : sq n dvp).
  { refine (foldM_invariant (sq n) _ _ _ _ _ _ Hf).
    - intros a b a' Ha Hstep. eapply wy_block_sq; eassumption.
    - rewrite (zeros_like2_zeros2 n _ HDa). apply zeros2_sq. }
  now split.
Qed.

(** C4, as the code has it: no strategy is followed by a symmetrisation
    in the driver, and [vp_dd] and [vp_zpm] apply none; [vp_zc] and
    [vp_wy_r] do.  Every increment that a strategy returns is a symmetric
    matrix when the density matrices of the reference and of the fragments
    are symmetric and, for the Coulomb-kernel update, the two-electron
    tensor has the symmetry of two-electron integrals, in exact
    arithmetic. *)
Theorem increments_symmetric :
  forall (w w1 : World) (method : string) (n : nat)
         (gdd_a gdd_b : list Vector) (dd_a dd_b dvp_a dvp_b : Matrix),
    self_nbf (obj w) = n ->
    has_shape n n (Da (molecule (obj w))) -> symmetric (Da (molecule (obj w))) ->
    has_shape n n (Db (molecule (obj w))) -> symmetric (Db (molecule (obj w))) ->
    Forall (fun f => (has_shape n n (Da f) /\ has_shape n n (Db f)) /\
                     symmetric (Da f) /\ symmetric (Db f)) (frags (obj w)) ->
    eri_shape n (ao_eri (molecule (obj w))) ->
    eri_symmetric (ao_eri (molecule (obj w))) ->
    get_frag_densities_nm w = Done tt w1 ->
    delta_matrix (obj w1) = Ok (dd_a, dd_b) ->
    dispatch method (obj w1) gdd_a gdd_b dd_a dd_b = Ok (dvp_a, dvp_b) ->
    symmetric dvp_a /\ symmetric dvp_b.
Proof.
  intros w w1 method n gdd_a gdd_b dd_a dd_b dvp_a dvp_b
         Hn HDa HsDa HDb HsDb Hfs Hes Het Hnm Hdelta Hdisp.
  (* the aggregate *)
  assert (Hshapes : Forall (fun f => has_shape n n (Da f) /\ has_shape n n (Db f))
                           (frags (obj w))).
  { eapply Forall_impl; [|exact Hfs]. now intros f [H _]. }
  unfold get_frag_densities_nm in Hnm. cbv [bind get_self lift] in Hnm.
  rewrite Hn, (sum_densities_nm_spec (fmul_1_l exact) n _ Hshapes) in Hnm.
  cbv [update] in Hnm. inversion Hnm; subst w1. clear Hnm.
  cbn [obj] in Hdelta, Hdisp.
  (* the residual *)
  assert (Hagg_a : sq n (matrix_sum n (map Da (frags (obj w))))).
  { apply matrix_sum_sq. apply Forall_map.
    eapply Forall_impl; [|exact Hfs].
    intros f (_ & H & _). now apply symmetric_sym2. }
  assert (Hagg_b : sq n (matrix_sum n (map Db (frags (obj w))))).
  { apply matrix_sum_sq. apply Forall_map.
    eapply Forall_impl; [|exact Hfs].
    intros f (_ & _ & H). now apply symmetric_sym2. }
  rewrite (delta_matrix_spec
             (set_frag_nm (Some (matrix_sum n (map Da (frags (obj w)))))
                          (Some (matrix_sum n (map Db (frags (obj w)))))
                          (obj w))
             (matrix_sum n (map Da (frags (obj w))))
             (matrix_sum n (map Db (frags (obj w))))
             n eq_refl eq_refl HDa (proj1 Hagg_a) HDb (proj1 Hagg_b)) in Hdelta.
  cbn [molecule set_frag_nm] in Hdelta.
  assert (Hdd_a : sq n dd_a).
  { inversion Hdelta. apply matrix_diff_sq;
      [now apply symmetric_sym2 | exact (proj2 Hagg_a)]. }
  assert (Hdd_b : sq n dd_b).
  { inversion Hdelta. apply matrix_diff_sq;
      [now apply symmetric_sym2 | exact (proj2 Hagg_b)]. }
  clear Hdelta.
  (* the strategies *)
  unfold dispatch in Hdisp.
  destruct (String.eqb method "zpm").
  { destruct (dims_of_shape n dd_a (proj1 Hdd_a)) as [Ha0 Ha1].
    destruct (dims_of_shape n dd_b (proj1 Hdd_b)) as [Hb0 Hb1].
    destruct Hes as (He0 & He1 & He2 & He3).
    cbn [molecule set_frag_nm] in Hdisp.
    rewrite vp_zpm_spec in Hdisp by (cbn [molecule set_frag_nm]; congruence).
    inversion Hdisp; subst dvp_a dvp_b.
    split; apply (sq_symmetric n);
      (apply coulomb_increment_sq;
       [repeat split; assumption | assumption | assumption]). }
  destruct (String.eqb method "dd").
  { unfold vp_dd in Hdisp. inversion Hdisp; subst dvp_a dvp_b.
    split; eapply sq_symmetric; eassumption. }
  destruct (String.eqb method "zc").
  { destruct (vp_zc_sq _ _ _ _ _ _ Hdisp) as [Ha Hb].
    split; eapply sq_symmetric; eassumption. }
  destruct (String.eqb method "wy_r"); [|discriminate].
  destruct (vp_wy_r_sq n _ _ _ _ _ HDa Hdisp) as [Ha Hb].
  split; eapply sq_symmetric; eassumption.
Qed.

End IncrementSymmetry.

Lemma Qc_exact : ExactArith Qc_scalar.
Proof.
  constructor; cbn [F fadd fsub fmul fopp f0 f1 Qc_scalar]; intros; ring.
Qed.

(** The density matrices of the sample systems are symmetric. *)
Lemma sample_density_symmetric (d : Qc) :
  @symmetric Qc_scalar [[d; Q2Qc 0]; [Q2Qc 0; Q2Qc 0]].
Proof.
  intros [|[|[|i]]] [|[|[|j]]]; reflexivity.
Qed.

(** C4 as stated fails: the density matrices of the reference and of both
    fragments are symmetric, the tensor of the reference is not, and the
    increment that the Coulomb-kernel update returns has [-1/4] at [(0,1)]
    and [0] at [(1,0)]. *)
Lemma zpm_increment_not_symmetric :
  symmetric (Da (molecule (obj Sample.skew_engine))) /\
  symmetric (Db (molecule (obj Sample.skew_engine))) /\
  Forall (fun f => symmetric (Da f) /\ symmetric (Db f))
         (frags (obj Sample.skew_engine)) /\
  delta_matrix (obj Sample.skew_engine)
    = Ok (fst Sample.skew_residual, snd Sample.skew_residual) /\
  dispatch "zpm" (obj Sample.skew_engine) [] []
           (fst Sample.skew_residual) (snd Sample.skew_residual)
    = Ok (fst Sample.skew_increment, snd Sample.skew_increment) /\
  ~ symmetric (fst Sample.skew_increment).
Proof.
  split; [apply sample_density_symmetric|].
  split; [apply sample_density_symmetric|].
  split; [repeat constructor; apply sample_density_symmetric|].
  split; [reflexivity|].
  split; [reflexivity|].
  intros H. specialize (H 0 1).
  assert (Hq := f_equal (fun o : option Qc =>
                           match o with
                           | Some v => Qeq_bool (this v) 0
                           | None => false
                           end) H).
  vm_compute in Hq. discriminate Hq.
Qed.

Lemma value_pair {A B} (r : result (A * B)) (d : A * B) :
  Sample.is_ok r = true ->
  r = Ok (fst (Sample.value r d), snd (Sample.value r d)).
Proof. destruct r as [[a b]|e]; [reflexivity | discriminate]. Qed.

Lemma eri_diag_symmetric : @eri_symmetric Qc_scalar Sample.eri_diag.
Proof.
  intros [|[|[|i]]] [|[|[|m]]] [|[|[|l]]] [|[|[|j]]]; reflexivity.
Qed.

(** C4 (amended) at the sample engine, for each of the four strategies. *)
Lemma increments_symmetric_witness :
  (symmetric (fst (Sample.increment "zpm")) /\
   symmetric (snd (Sample.increment "zpm"))) /\
  (symmetric (fst (Sample.increment "dd")) /\
   symmetric (snd (Sample.increment "dd"))) /\
  (symmetric (fst (Sample.increment "zc")) /\
   symmetric (snd (Sample.increment "zc"))) /\
  (symmetric (fst (Sample.increment "wy_r")) /\
   symmetric (snd (Sample.increment "wy_r"))).
Proof.
  assert (H : forall method,
            dispatch method (obj Sample.engine_nm)
                     (fst Sample.residual_r) (snd Sample.residual_r)
                     (fst Sample.residual) (snd Sample.residual)
            = Ok (fst (Sample.increment method), snd (Sample.increment method)) ->
            symmetric (fst (Sample.increment method)) /\
            symmetric (snd (Sample.increment method))).
  { intros method.
    apply (@increments_symmetric Qc_scalar Qc_collaborators Qc_exact
             Sample.engine Sample.engine_nm method 2
             (fst Sample.residual_r) (snd Sample.residual_r)).
    - reflexivity.
    - repeat constructor.
    - apply sample_density_symmetric.
    - repeat constructor.
    - apply sample_density_symmetric.
    - repeat (apply Forall_cons || apply Forall_nil);
        (split; [split; repeat constructor
                | split; apply sample_density_symmetric]).
    - repeat split.
    - apply eri_diag_symmetric.
    - reflexivity.
    - apply value_pair. vm_compute. reflexivity. }
  split; [|split; [|split]]; apply H; apply value_pair; vm_compute; reflexivity.
Defined.

(** ** The orbital-response update *)

Section OrbitalResponse.
Context {R : Scalar} {E : Collaborators}.


Lemma foldM_ext {A B} (step step' : A -> B -> result A) :
  (forall a b, step a b = step' a b) ->
  forall xs a, foldM step a xs = foldM step' a xs.
Proof.
  intros H xs. induction xs as [|x xs IH]; intros a; simpl; [reflexivity|].
  rewrite H. destruct (step' a x); simpl; auto.
Qed.






End OrbitalResponse.


(** ** The driver: what may be raised *)

Lemma rsafe_ok {A} (a : A) : rsafe (Ok a).
Proof. discriminate. Qed.

Lemma rsafe_err {A} (e : exn) :
  exn_eqb e MaxIterationsExceeded = false -> rsafe (@Err A e).
Proof. intros H Heq. inversion Heq; subst e. discriminate H. Qed.

Lemma rsafe_bind {A B} (r : result A) (k : A -> result B) :
  rsafe r -> (forall a, rsafe (k a)) -> rsafe (rbind r k).
Proof.
  intros Hr Hk. destruct r as [a|e]; simpl; [apply Hk|].
  intros H. apply Hr. inversion H. reflexivity.
Qed.

Lemma rsafe_foldM {A B} (step : A -> B -> result A) (xs : list B) (a : A) :
  (forall a b, rsafe (step a b)) -> rsafe (foldM step a xs).
Proof.
  intros H. revert a. induction xs as [|x xs IH]; intros a; simpl.
  - apply rsafe_ok.
  - apply rsafe_bind; [apply H | exact IH].
Qed.

Lemma rsafe_mapM {A B} (f : A -> result B) (xs : list A) :
  (forall a, rsafe (f a)) -> rsafe (mapM f xs).
Proof.
  intros H. induction xs as [|x xs IH]; simpl.
  - apply rsafe_ok.
  - apply rsafe_bind; [apply H|]. intros y.
    apply rsafe_bind; [exact IH|]. intros ys. apply rsafe_ok.
Qed.

Lemma rsafe_ewise {A B C} (e : exn) (f : A -> B -> result C)
      (xs : list A) (ys : list B) :
  exn_eqb e MaxIterationsExceeded = false ->
  (forall a b, rsafe (f a b)) -> rsafe (ewise e f xs ys).
Proof.
  intros He H. revert ys. induction xs as [|x xs IH]; intros [|y ys]; simpl;
    try (now apply rsafe_err); try apply rsafe_ok.
  apply rsafe_bind; [apply H|]. intros c.
  apply rsafe_bind; [apply IH|]. intros cs. apply rsafe_ok.
Qed.

Lemma rsafe_bcast {A B} (f : A -> B -> result A) (xs : list A) (ys : list B) :
  (forall a b, rsafe (f a b)) -> rsafe (bcast f xs ys).
Proof.
  intros H. unfold bcast. destruct ys as [|y [|y' ys]];
    try (apply rsafe_ewise; [reflexivity | exact H]).
  apply rsafe_mapM. intros x. apply H.
Qed.

Lemma rsafe_bcast2 {A} (f : A -> A -> result A) (xs ys : list A) :
  (forall a b, rsafe (f a b)) -> rsafe (bcast2 f xs ys).
Proof.
  intros H. unfold bcast2.
  destruct xs as [|x [|x' xs]]; destruct ys as [|y [|y' ys]];
    try (apply rsafe_ewise; [reflexivity | exact H]);
    try (apply rsafe_mapM; intros z; apply H).
Qed.

Lemma rsafe_index {A} (xs : list A) (i : nat) : rsafe (index xs i).
Proof.
  unfold index. destruct (nth_error xs i); [apply rsafe_ok|].
  now apply rsafe_err.
Qed.

(** The structural steps of a proof that a computation is [rsafe]. *)
Ltac rsafe_step :=
  first
    [ apply rsafe_ok
    | apply rsafe_index
    | apply rsafe_err; reflexivity
    | apply rsafe_bind
    | apply rsafe_foldM
    | apply rsafe_mapM
    | apply rsafe_bcast2
    | apply rsafe_bcast
    | apply rsafe_ewise; [reflexivity|]
    | match goal with
      | |- rsafe (match ?x with _ => _ end) => destruct x
      | |- rsafe (let _ := _ in _) => cbv zeta
      | |- forall _, _ => intro
      end ].
Ltac rsafe_tac := repeat rsafe_step.

Section DriverSafety.
Context {R : Scalar} {E : Collaborators}.

Lemma rsafe_vbin (op : F -> F -> F) (a b : Vector) : rsafe (vbin op a b).
Proof. unfold vbin. rsafe_tac. Qed.

Lemma rsafe_viop (op : F -> F -> F) (a b : Vector) : rsafe (viop op a b).
Proof. unfold viop. rsafe_tac. Qed.

Lemma rsafe_mbin (op : F -> F -> F) (a b : Matrix) : rsafe (mbin op a b).
Proof. unfold mbin. apply rsafe_bcast2. intros. apply rsafe_vbin. Qed.

Lemma rsafe_miop (op : F -> F -> F) (a b : Matrix) : rsafe (miop op a b).
Proof. unfold miop. apply rsafe_bcast. intros. apply rsafe_viop. Qed.

Lemma rsafe_axpy (c : F) (X self : Matrix) : rsafe (axpy c X self).
Proof. unfold axpy. rsafe_tac. Qed.

Lemma rsafe_symmetrize (m : Matrix) : rsafe (symmetrize m).
Proof. unfold symmetrize. apply rsafe_bind; [apply rsafe_mbin|]. rsafe_tac. Qed.

Lemma rsafe_sum_densities_nm (n : nat) (fs : list Molecule) :
  rsafe (sum_densities_nm n fs).
Proof.
  unfold sum_densities_nm. apply rsafe_foldM. intros [a b] f. unfold nm_step.
  apply rsafe_bind; [apply rsafe_axpy|]. intros a'.
  apply rsafe_bind; [apply rsafe_axpy|]. rsafe_tac.
Qed.

Lemma rsafe_sum_densities_r (nb : nat) (mol : Molecule) (fs : list Molecule) :
  rsafe (sum_densities_r nb mol fs).
Proof.
  unfold sum_densities_r. apply rsafe_foldM. intros [sa sb] block.
  unfold r_step, block_sums.
  apply rsafe_bind; [|rsafe_tac].
  apply rsafe_bind; [apply rsafe_index|]. intros mda.
  apply rsafe_bind; [apply rsafe_index|]. intros mdb.
  apply rsafe_foldM. intros [a b] f. unfold block_step.
  apply rsafe_bind; [apply rsafe_index|]. intros fda.
  apply rsafe_bind; [apply rsafe_viop|]. intros a'.
  apply rsafe_bind; [apply rsafe_index|]. intros fdb.
  apply rsafe_bind; [apply rsafe_viop|]. rsafe_tac.
Qed.

Lemma rsafe_contract_p_p (a b : Vector) : rsafe (contract_p_p a b).
Proof. unfold contract_p_p. rsafe_tac. Qed.

Lemma rsafe_subscript {A} (o : option (list A)) (i : nat) : rsafe (subscript o i).
Proof. unfold subscript. rsafe_tac. Qed.

Lemma rsafe_delta_grid_block (s : Inversion)
      (acc : list Vector * list Vector * F) (block : nat) :
  rsafe (delta_grid_block s acc block).
Proof.
  destruct acc as [[da db] l]. unfold delta_grid_block.
  apply rsafe_bind; [apply rsafe_subscript|]. intros fa.
  apply rsafe_bind; [apply rsafe_index|]. intros ma.
  apply rsafe_bind; [apply rsafe_vbin|]. intros bda.
  apply rsafe_bind; [apply rsafe_subscript|]. intros fb.
  apply rsafe_bind; [apply rsafe_index|]. intros mb.
  apply rsafe_bind; [apply rsafe_vbin|]. intros bdb.
  apply rsafe_bind; [apply rsafe_index|]. intros wa.
  apply rsafe_bind; [apply rsafe_contract_p_p|]. intros ia.
  cbv zeta.
  apply rsafe_bind; [apply rsafe_index|]. intros wb.
  apply rsafe_bind; [apply rsafe_contract_p_p|]. intros ib.
  apply rsafe_ok.
Qed.

Lemma rsafe_delta_matrix (s : Inversion) : rsafe (delta_matrix s).
Proof.
  unfold delta_matrix.
  destruct (frag_da_nm s); [|now apply rsafe_err].
  apply rsafe_bind; [apply rsafe_mbin|]. intros dd_a.
  destruct (frag_db_nm s); [|now apply rsafe_err].
  apply rsafe_bind; [apply rsafe_mbin|]. rsafe_tac.
Qed.

Lemma rsafe_contract_imlj_ml (t : Tensor4) (d : Matrix) :
  rsafe (contract_imlj_ml t d).
Proof. unfold contract_imlj_ml. rsafe_tac. Qed.

Lemma rsafe_vp_zpm (s : Inversion) (a b : Matrix) : rsafe (vp_zpm s a b).
Proof.
  unfold vp_zpm.
  apply rsafe_bind; [apply rsafe_contract_imlj_ml|]. intros ca. cbv zeta.
  apply rsafe_bind; [apply rsafe_contract_imlj_ml|]. rsafe_tac.
Qed.

Lemma rsafe_t4_iadd (x t : Tensor4) : rsafe (t4_iadd x t).
Proof. unfold t4_iadd. rsafe_tac. Qed.

Lemma rsafe_zc_term (C : Matrix) (eigs : Vector) (i a : nat) (x : Tensor4) :
  rsafe (zc_term C eigs i a x).
Proof.
  unfold zc_term.
  apply rsafe_bind; [apply rsafe_index|]. intros Ci.
  apply rsafe_bind; [apply rsafe_index|]. intros Ca_.
  apply rsafe_bind; [unfold contract_mi_na_li_sa; rsafe_tac|]. intros c.
  apply rsafe_bind; [apply rsafe_index|]. intros ei.
  apply rsafe_bind; [apply rsafe_index|]. intros ea.
  apply rsafe_t4_iadd.
Qed.

Lemma rsafe_vp_zc (s : Inversion) (a b : Matrix) (rcond : F) :
  rsafe (vp_zc s a b rcond).
Proof.
  unfold vp_zc.
  apply rsafe_bind; [apply rsafe_mbin|]. intros dd.
  apply rsafe_bind.
  - unfold zc_loop. apply rsafe_foldM. intros x f.
    destruct (Nat.eqb _ _); [|apply rsafe_ok].
    apply rsafe_bind; [|rsafe_tac].
    unfold zc_response. apply rsafe_foldM. intros x0 i.
    apply rsafe_foldM. intros x1 a0.
    apply rsafe_bind; [apply rsafe_zc_term|]. intros x2. apply rsafe_zc_term.
  - intros [x|]; [|now apply rsafe_err].
    cbv zeta.
    apply rsafe_bind; [unfold contract_mnls_ls; rsafe_tac|]. intros dvp.
    apply rsafe_bind; [apply rsafe_symmetrize|]. rsafe_tac.
Qed.

Lemma rsafe_orb (o : list (list Vector)) (i block r : nat) :
  rsafe (orb o i block r).
Proof. unfold orb. rsafe_tac. Qed.

Lemma rsafe_vp_wy_r (s : Inversion) (a b : list Vector) : rsafe (vp_wy_r s a b).
Proof.
  unfold vp_wy_r. cbv zeta.
  destruct (nblocks s); [|now apply rsafe_err].
  destruct (negb _); [now apply rsafe_err|].
  apply rsafe_bind; [|rsafe_tac].
  apply rsafe_foldM. intros dvp [block g]. unfold wy_block. cbv zeta.
  apply rsafe_bind.
  { unfold wy_kernel. apply rsafe_foldM. intros x f. cbv zeta.
    apply rsafe_foldM. intros x0 i. apply rsafe_foldM. intros x1 v.
    apply rsafe_bind; [apply rsafe_index|]. intros eo.
    apply rsafe_bind; [apply rsafe_index|]. intros ev.
    apply rsafe_bind; [|intros; apply rsafe_miop].
    apply rsafe_mapM. intros r1. apply rsafe_mapM. intros r2.
    apply rsafe_bind; [apply rsafe_orb|]. intros o1.
    apply rsafe_bind; [apply rsafe_orb|]. intros o2.
    apply rsafe_bind; [apply rsafe_orb|]. intros o3.
    apply rsafe_bind; [apply rsafe_orb|]. rsafe_tac. }
  intros x_a. apply rsafe_bind.
  { unfold wy_dvp_block. apply rsafe_foldM. intros d r1. unfold wy_row.
    apply rsafe_bind; [apply rsafe_index|]. intros row1.
    apply rsafe_bind; [apply rsafe_index|]. intros row2.
    apply rsafe_bind; [apply rsafe_vbin|]. intros den. cbv zeta.
    apply rsafe_bind; [apply rsafe_index|]. intros ddb.
    apply rsafe_bind; [apply rsafe_vbin|]. intros t.
    apply rsafe_bind; [apply rsafe_vbin|]. intros t'.
    apply rsafe_viop. }
  intros dvp_block.
  apply rsafe_bind; [unfold contract_pb_p_p_pa; rsafe_tac|]. intros vtmp.
  apply rsafe_bind; [apply rsafe_symmetrize|]. intros val.
  unfold fancy_iadd.
  apply rsafe_bind.
  { apply rsafe_mapM. intros p. apply rsafe_bind; [apply rsafe_index|].
    intros row. apply rsafe_mapM. intros q. apply rsafe_index. }
  intros G. apply rsafe_bind; [apply rsafe_miop|]. rsafe_tac.
Qed.

Lemma rsafe_dispatch (method : string) (s : Inversion)
      (dd_a dd_b : list Vector) (dd_a_mn dd_b_mn : Matrix) :
  rsafe (dispatch method s dd_a dd_b dd_a_mn dd_b_mn).
Proof.
  unfold dispatch.
  destruct (String.eqb method "zpm"); [apply rsafe_vp_zpm|].
  destruct (String.eqb method "dd"); [unfold vp_dd; apply rsafe_ok|].
  destruct (String.eqb method "zc"); [apply rsafe_vp_zc|].
  destruct (String.eqb method "wy_r"); [apply rsafe_vp_wy_r|].
  now apply rsafe_err.
Qed.

End DriverSafety.

(** ** The driver: the loop *)

Section DriverLoop.
Context {R : Scalar} {E : Collaborators}.

Lemma bind_done {A B} (m : M A) (k : A -> M B) (w w'' : World) (b : B) :
  bind m k w = Done b w'' ->
  exists a w', m w = Done a w' /\ k a w' = Done b w''.
Proof.
  unfold bind. destruct (m w) as [a w'|e w']; [eauto | discriminate].
Qed.

(** *** No method raises the exception of the bound *)

Lemma msafe_ret {A} (a : A) : msafe (ret a).
Proof. intros w w'. discriminate. Qed.

Lemma msafe_bind {A B} (m : M A) (k : A -> M B) :
  msafe m -> (forall a, msafe (k a)) -> msafe (bind m k).
Proof.
  intros Hm Hk w w'. unfold bind.
  destruct (m w) as [a w1|e w1] eqn:H; [apply Hk|].
  intros Heq. inversion Heq; subst. exact (Hm w w' H).
Qed.

Lemma msafe_lift {A} (r : result A) : rsafe r -> msafe (lift r).
Proof.
  intros Hr w w'. unfold lift. destruct r as [a|e]; [discriminate|].
  intros Heq. inversion Heq; subst. now apply Hr.
Qed.

Lemma msafe_raise {A} (e : exn) :
  exn_eqb e MaxIterationsExceeded = false -> msafe (@raise R A e).
Proof.
  intros He w w' Heq. unfold raise in Heq. inversion Heq; subst. discriminate He.
Qed.

Lemma msafe_get_self : msafe get_self.
Proof. intros w w'. discriminate. Qed.

Lemma msafe_update (f : Inversion -> Inversion) : msafe (update f).
Proof. intros w w'. discriminate. Qed.

Lemma msafe_emit (e : event) : msafe (emit e).
Proof. intros w w'. discriminate. Qed.

Lemma msafe_attr {A} (proj : Inversion -> option A) : msafe (attr proj).
Proof.
  intros w w'. unfold attr. destruct (proj (obj w)); discriminate.
Qed.

Lemma msafe_resolve_frags (va vb : Matrix) : msafe (resolve_frags va vb).
Proof. intros w w'. discriminate. Qed.

Lemma msafe_get_delta_density (option : string) : msafe (get_delta_density option).
Proof.
  unfold get_delta_density.
  destruct (String.eqb option "grid").
  - apply msafe_bind; [apply msafe_attr|]. intros nb.
    apply msafe_bind; [apply msafe_get_self|]. intros s.
    apply msafe_bind.
    + apply msafe_lift. apply rsafe_foldM. intros. apply rsafe_delta_grid_block.
    + intros [[a b] l]. apply msafe_ret.
  - destruct (String.eqb option "matrix"); [|apply msafe_ret].
    apply msafe_bind; [apply msafe_get_self|]. intros s.
    apply msafe_bind; [apply msafe_lift, rsafe_delta_matrix|].
    intros [a b]. apply msafe_ret.
Qed.

Lemma msafe_cycle (method : string) (beta : F) (print_scf plot_scf : bool)
      (step : Z) (l : Locals) :
  msafe (cycle method beta print_scf plot_scf step l).
Proof.
  unfold cycle.
  apply msafe_bind; [apply msafe_resolve_frags|]. intros _.
  apply msafe_bind.
  { unfold get_frag_energies. apply msafe_bind; [apply msafe_get_self|].
    intros s. apply msafe_update. }
  intros _. apply msafe_bind.
  { unfold get_frag_densities_r. apply msafe_bind; [apply msafe_attr|].
    intros nb. apply msafe_bind; [apply msafe_get_self|]. intros s.
    apply msafe_bind; [apply msafe_lift, rsafe_sum_densities_r|].
    intros [a b]. apply msafe_update. }
  intros _. apply msafe_bind.
  { unfold get_frag_densities_nm. apply msafe_bind; [apply msafe_get_self|].
    intros s. apply msafe_bind; [apply msafe_lift, rsafe_sum_densities_nm|].
    intros [a b]. apply msafe_update. }
  intros _. apply msafe_bind.
  { unfold get_ep. apply msafe_bind; [apply msafe_get_self|].
    intros s. apply msafe_update. }
  intros _. apply msafe_bind; [apply msafe_get_delta_density|].
  intros [dd_a dd_b err| |]; try (now apply msafe_raise).
  apply msafe_bind; [apply msafe_get_delta_density|].
  intros [|dd_a_mn dd_b_mn|]; try (now apply msafe_raise).
  apply msafe_bind; [apply msafe_attr|]. intros e.
  apply msafe_bind.
  { destruct print_scf; [|apply msafe_ret].
    apply msafe_bind; [apply msafe_attr|]. intros ef. apply msafe_emit. }
  intros _. apply msafe_bind; [apply msafe_get_self|]. intros s.
  apply msafe_bind; [apply msafe_lift, rsafe_dispatch|]. intros [dvp_a dvp_b].
  apply msafe_bind; [apply msafe_lift, rsafe_axpy|]. intros va.
  apply msafe_bind.
  { destruct (Z.ltb 0 step); [apply msafe_update | apply msafe_ret]. }
  intros _. apply msafe_bind; [apply msafe_lift, rsafe_axpy|]. intros vb.
  apply msafe_bind; [apply msafe_update|]. intros _.
  apply msafe_bind.
  { destruct plot_scf; [apply msafe_emit | apply msafe_ret]. }
  intros _. apply msafe_ret.
Qed.

Lemma msafe_cycles (method : string) (beta : F) (print_scf plot_scf : bool)
      (steps : list Z) :
  forall l, msafe (cycles method beta print_scf plot_scf steps l).
Proof.
  induction steps as [|st steps IH]; intros l; simpl.
  - apply msafe_ret.
  - apply msafe_bind; [apply msafe_cycle | exact IH].
Qed.

(** *** The loop raises after its last body *)

Lemma vp_loop_cycles (method : string) (beta : F) (print_scf plot_scf : bool)
      (maxiter : Z) (pre : list Z) :
  ~ In maxiter pre ->
  forall (l : Locals) (w : World),
    vp_loop method beta print_scf plot_scf maxiter (pre ++ [maxiter]) l w
    = match cycles method beta print_scf plot_scf (pre ++ [maxiter]) l w with
      | Done _ w' => Raise MaxIterationsExceeded w'
      | Raise e w' => Raise e w'
      end.
Proof.
  induction pre as [|st pre IH]; intros Hnot l w.
  - cbn [app vp_loop cycles]. unfold bind.
    destruct (cycle method beta print_scf plot_scf maxiter l w) as [l' w'|e w'];
      [|reflexivity].
    now rewrite Z.eqb_refl.
  - cbn [app vp_loop cycles]. unfold bind.
    destruct (cycle method beta print_scf plot_scf st l w) as [l' w'|e w'];
      [|reflexivity].
    assert (Hne : Z.eqb st maxiter = false).
    { apply Z.eqb_neq. intros ->. apply Hnot. now left. }
    rewrite Hne. apply IH. intros Hin. apply Hnot. now right.
Qed.

Lemma range_succ (n : Z) : (0 <= n)%Z -> range (n + 1) = range n ++ [n].
Proof.
  intros Hn. unfold range.
  replace (Z.to_nat (n + 1)) with (S (Z.to_nat n)) by lia.
  rewrite seq_S, map_app. cbn [map]. do 2 f_equal. lia.
Qed.

Lemma range_below (n : Z) : ~ In n (range n).
Proof.
  unfold range. intros H. apply in_map_iff in H. destruct H as (k & Hk & Hin).
  apply in_seq in Hin. lia.
Qed.

Lemma range_length (n : Z) : length (range n) = Z.to_nat n.
Proof. unfold range. now rewrite length_map, length_seq. Qed.

End DriverLoop.

(** ** The driver: what a body does to the fragments and the potential *)

Section DriverEffects.
Context {R : Scalar} {E : Collaborators}.

Lemma quiet_ret {A} (a : A) : quiet (ret a).
Proof. intros w a' w' H. inversion H; subst. now split. Qed.

Lemma quiet_bind {A B} (m : M A) (k : A -> M B) :
  quiet m -> (forall a, quiet (k a)) -> quiet (bind m k).
Proof.
  intros Hm Hk w b w'' H. apply bind_done in H.
  destruct H as (a & w' & H1 & H2).
  destruct (Hm _ _ _ H1) as [Hf Hl]. destruct (Hk a _ _ _ H2) as [Hf' Hl'].
  split; congruence.
Qed.

Lemma quiet_lift {A} (r : result A) : quiet (lift r).
Proof.
  intros w a w' H. unfold lift in H. destruct r; inversion H; subst. now split.
Qed.

Lemma quiet_raise {A} (e : exn) : quiet (@raise R A e).
Proof. intros w a w' H. discriminate H. Qed.

Lemma quiet_get_self : quiet get_self.
Proof. intros w a w' H. inversion H; subst. now split. Qed.

Lemma quiet_attr {A} (proj : Inversion -> option A) : quiet (attr proj).
Proof.
  intros w a w' H. unfold attr in H.
  destruct (proj (obj w)); inversion H; subst. now split.
Qed.

Lemma quiet_update (f : Inversion -> Inversion) :
  (forall s, frags (f s) = frags s) -> quiet (update f).
Proof.
  intros Hf w a w' H. inversion H; subst. cbn [obj log]. now split.
Qed.

Lemma quiet_emit_print (step : Z) (a b c : F) : quiet (emit (EvPrint step a b c)).
Proof. intros w x w' H. inversion H; subst. now split. Qed.

Lemma quiet_emit_plot (step : Z) (l : list F) : quiet (emit (EvPlot step l)).
Proof. intros w x w' H. inversion H; subst. now split. Qed.

Lemma quiet_get_delta_density (option : string) : quiet (get_delta_density option).
Proof.
  unfold get_delta_density.
  destruct (String.eqb option "grid").
  - apply quiet_bind; [apply quiet_attr|]. intros nb.
    apply quiet_bind; [apply quiet_get_self|]. intros s.
    apply quiet_bind; [apply quiet_lift|]. intros [[a b] l]. apply quiet_ret.
  - destruct (String.eqb option "matrix"); [|apply quiet_ret].
    apply quiet_bind; [apply quiet_get_self|]. intros s.
    apply quiet_bind; [apply quiet_lift|]. intros [a b]. apply quiet_ret.
Qed.

Lemma scf_log_app (xs ys : list event) :
  scf_log (xs ++ ys) = scf_log xs ++ scf_log ys.
Proof. unfold scf_log. apply flat_map_app. Qed.

Lemma scf_log_resolve (va vb : Matrix) (ks : list nat) :
  scf_log (rev (map (fun k => EvScf k va vb) ks)) = rev ks.
Proof.
  rewrite <- map_rev. generalize (rev ks). intros l.
  induction l as [|k l IH]; simpl; [reflexivity | now rewrite IH].
Qed.

(** What a body that completes has done. *)
Lemma cycle_done (method : string) (beta : F) (print_scf plot_scf : bool)
      (step : Z) (l l' : Locals) (w w' : World) :
  cycle method beta print_scf plot_scf step l w = Done l' w' ->
  frags (obj w') = map (scf (vp_a l) (vp_b l)) (frags (obj w)) /\
  scf_log (log w') = rev (seq 0 (length (frags (obj w)))) ++ scf_log (log w) /\
  vp (obj w') = Some (vp_a l', vp_b l') /\
  length (l1_list l') = S (length (l1_list l)).
Proof.
  unfold cycle. intros H.
  apply bind_done in H. destruct H as (u0 & w0 & H0 & H).
  assert (Hw0 : frags (obj w0) = map (scf (vp_a l) (vp_b l)) (frags (obj w)) /\
                scf_log (log w0)
                = rev (seq 0 (length (frags (obj w)))) ++ scf_log (log w)).
  { unfold resolve_frags in H0. inversion H0; subst w0. cbn [obj log].
    split; [reflexivity|]. now rewrite scf_log_app, scf_log_resolve. }
  clear H0. destruct Hw0 as [Hf0 Hl0]. rewrite <- Hf0, <- Hl0. clear Hf0 Hl0.
  (* the aggregation and the residuals *)
  apply bind_done in H. destruct H as (u1 & w1 & H1 & H).
  assert (Q1 : quiet get_frag_energies).
  { unfold get_frag_energies. apply quiet_bind; [apply quiet_get_self|].
    intros s. now apply quiet_update. }
  destruct (Q1 _ _ _ H1) as [<- <-]. clear H1 Q1.
  apply bind_done in H. destruct H as (u2 & w2 & H2 & H).
  assert (Q2 : quiet get_frag_densities_r).
  { unfold get_frag_densities_r. apply quiet_bind; [apply quiet_attr|].
    intros nb. apply quiet_bind; [apply quiet_get_self|]. intros s.
    apply quiet_bind; [apply quiet_lift|]. intros [a b]. now apply quiet_update. }
  destruct (Q2 _ _ _ H2) as [<- <-]. clear H2 Q2.
  apply bind_done in H. destruct H as (u3 & w3 & H3 & H).
  assert (Q3 : quiet get_frag_densities_nm).
  { unfold get_frag_densities_nm. apply quiet_bind; [apply quiet_get_self|].
    intros s. apply quiet_bind; [apply quiet_lift|]. intros [a b].
    now apply quiet_update. }
  destruct (Q3 _ _ _ H3) as [<- <-]. clear H3 Q3.
  apply bind_done in H. destruct H as (u4 & w4 & H4 & H).
  assert (Q4 : quiet get_ep).
  { unfold get_ep. apply quiet_bind; [apply quiet_get_self|].
    intros s. now apply quiet_update. }
  destruct (Q4 _ _ _ H4) as [<- <-]. clear H4 Q4.
  apply bind_done in H. destruct H as (g & w5 & H5 & H).
  destruct (quiet_get_delta_density _ _ _ _ H5) as [<- <-]. clear H5.
  destruct g as [dd_a dd_b err| |]; try discriminate H.
  apply bind_done in H. destruct H as (m & w6 & H6 & H).
  destruct (quiet_get_delta_density _ _ _ _ H6) as [<- <-]. clear H6.
  destruct m as [|dd_a_mn dd_b_mn|]; try discriminate H.
  apply bind_done in H. destruct H as (e & w7 & H7 & H).
  destruct (quiet_attr _ _ _ _ H7) as [<- <-]. clear H7.
  apply bind_done in H. destruct H as (u8 & w8 & H8 & H).
  assert (Q8 : quiet (if print_scf
                      then bind (attr frag_energy)
                                (fun ef => emit (EvPrint step err e ef))
                      else ret tt)).
  { destruct print_scf; [|apply quiet_ret].
    apply quiet_bind; [apply quiet_attr|]. intros ef. apply quiet_emit_print. }
  destruct (Q8 _ _ _ H8) as [<- <-]. clear H8 Q8.
  apply bind_done in H. destruct H as (s & w9 & H9 & H).
  destruct (quiet_get_self _ _ _ H9) as [<- <-]. clear H9.
  apply bind_done in H. destruct H as ([dvp_a dvp_b] & w10 & H10 & H).
  destruct (quiet_lift _ _ _ _ H10) as [<- <-]. clear H10.
  apply bind_done in H. destruct H as (va & w11 & H11 & H).
  destruct (quiet_lift _ _ _ _ H11) as [<- <-]. clear H11.
  apply bind_done in H. destruct H as (u12 & w12 & H12 & H).
  assert (Q12 : quiet (if Z.ltb 0 step
                       then update (set_vp (Some (va, vp_b l)))
                       else ret tt)).
  { destruct (Z.ltb 0 step); [now apply quiet_update | apply quiet_ret]. }
  destruct (Q12 _ _ _ H12) as [<- <-]. clear H12 Q12.
  apply bind_done in H. destruct H as (vb & w13 & H13 & H).
  destruct (quiet_lift _ _ _ _ H13) as [<- <-]. clear H13.
  (* the potential is stored *)
  apply bind_done in H. destruct H as (u14 & w14 & H14 & H).
  unfold update in H14. inversion H14; subst w14. clear H14.
  apply bind_done in H. destruct H as (u15 & w15 & H15 & H).
  assert (Hw15 : obj w15 = set_vp (Some (va, vb)) (obj w13) /\
                 scf_log (log w15) = scf_log (log w13)).
  { destruct plot_scf; inversion H15; subst w15; cbn [obj log]; now split. }
  clear H15. destruct Hw15 as [Ho15 Hl15].
  unfold ret in H. inversion H; subst l' w'. clear H.
  rewrite Ho15, Hl15. cbn [frags vp set_vp vp_a vp_b l1_list].
  repeat split. rewrite length_app. cbn [length]. lia.
Qed.

End DriverEffects.

Section DriverTheorem.
Context {R : Scalar} {E : Collaborators}.

Lemma resolves_after_resolve (n k : nat) (lg lg' : list event) :
  scf_log lg' = rev (seq 0 n) ++ scf_log lg -> k < n ->
  resolves k lg' = S (resolves k lg).
Proof.
  intros H Hk. unfold resolves. rewrite H, count_occ_app, count_occ_rev.
  assert (Hin : In k (seq 0 n)) by (apply in_seq; lia).
  rewrite (proj1 (NoDup_count_occ' Nat.eq_dec (seq 0 n)) (seq_NoDup n 0) k Hin).
  reflexivity.
Qed.

Lemma cycles_done (method : string) (beta : F) (print_scf plot_scf : bool)
      (steps : list Z) :
  forall (l l' : Locals) (w w' : World),
    cycles method beta print_scf plot_scf steps l w = Done l' w' ->
    length (frags (obj w')) = length (frags (obj w)) /\
    (forall k, k < length (frags (obj w)) ->
       resolves k (log w') = resolves k (log w) + length steps) /\
    (steps <> [] -> vp (obj w') = Some (vp_a l', vp_b l')) /\
    length (l1_list l') = length (l1_list l) + length steps.
Proof.
  induction steps as [|st steps IH]; intros l l' w w' H.
  - cbn [cycles] in H. inversion H; subst l' w'.
    split; [reflexivity|]. split; [intros k _; cbn [length]; lia|].
    split; [intros Hne; exfalso; apply Hne; reflexivity | cbn [length]; lia].
  - cbn [cycles] in H. apply bind_done in H.
    destruct H as (l1 & w1 & H1 & H).
    destruct (cycle_done _ _ _ _ _ _ _ _ _ H1) as (Hf & Hl & Hvp & Hlen).
    destruct (IH _ _ _ _ H) as (Hf' & Hr' & Hvp' & Hlen').
    assert (Hfl : length (frags (obj w1)) = length (frags (obj w)))
      by (rewrite Hf; apply length_map).
    split; [congruence|]. split; [|split].
    + intros k Hk. rewrite Hr' by (rewrite Hfl; exact Hk).
      rewrite (resolves_after_resolve _ k _ _ Hl Hk). cbn [length]. lia.
    + intros _. destruct steps as [|st' steps].
      * cbn [cycles] in H. inversion H; subst l' w'. exact Hvp.
      * apply Hvp'. discriminate.
    + rewrite Hlen', Hlen. cbn [length]. lia.
Qed.

(** C1, as the code has it: for a bound [maxiter >= 0], any strategy name
    and any [atol], the driver with no initial guess never returns and its
    outcome does not depend on [atol]; it raises the exception of the bound
    exactly when all the bodies for the indices [0 .. maxiter] complete,
    which are [maxiter + 1] of them, and in the world these bodies leave:
    every fragment has been re-solved [maxiter + 1] more times, and the
    potential of the engine is the potential after the update of the last
    body.  Any other exception is one that a body raised. *)
Theorem vp_handler_raises_after_all_cycles :
  forall (method : string) (beta : F) (maxiter : Z) (atol : F)
         (print_scf plot_scf : bool) (w : World),
    (0 <= maxiter)%Z ->
    (forall w', vp_handler method beta maxiter atol None print_scf plot_scf w
                <> Done tt w') /\
    (forall atol',
       vp_handler method beta maxiter atol' None print_scf plot_scf w
       = vp_handler method beta maxiter atol None print_scf plot_scf w) /\
    (forall w',
       vp_handler method beta maxiter atol None print_scf plot_scf w
       = Raise MaxIterationsExceeded w' <->
       exists l', cycles method beta print_scf plot_scf (range (maxiter + 1))
                         (initial_locals (obj w)) w = Done l' w') /\
    (forall e w',
       vp_handler method beta maxiter atol None print_scf plot_scf w
       = Raise e w' ->
       e <> MaxIterationsExceeded ->
       cycles method beta print_scf plot_scf (range (maxiter + 1))
              (initial_locals (obj w)) w = Raise e w') /\
    (forall l' w',
       cycles method beta print_scf plot_scf (range (maxiter + 1))
              (initial_locals (obj w)) w = Done l' w' ->
       (forall k, k < length (frags (obj w)) ->
          resolves k (log w') = resolves k (log w) + Z.to_nat (maxiter + 1)) /\
       vp (obj w') = Some (vp_a l', vp_b l') /\
       length (l1_list l') = Z.to_nat (maxiter + 1)).
Proof.
  intros method beta maxiter atol print_scf plot_scf w Hmax.
  assert (Hrun : forall at_,
            vp_handler method beta maxiter at_ None print_scf plot_scf w
            = match cycles method beta print_scf plot_scf (range (maxiter + 1))
                           (initial_locals (obj w)) w with
              | Done _ w' => Raise MaxIterationsExceeded w'
              | Raise e w' => Raise e w'
              end).
  { intros at_. unfold vp_handler. cbv [bind get_self].
    rewrite (range_succ maxiter Hmax).
    apply vp_loop_cycles. apply range_below. }
  split; [|split; [|split; [|split]]].
  - intros w'. rewrite Hrun.
    destruct (cycles _ _ _ _ _ _ _); discriminate.
  - intros atol'. now rewrite !Hrun.
  - intros w'. rewrite Hrun. split.
    + destruct (cycles _ _ _ _ _ _ _) as [l' w1|e w1] eqn:Hc; intros H.
      * inversion H; subst. eauto.
      * inversion H; subst. exfalso. exact (msafe_cycles _ _ _ _ _ _ _ _ Hc).
    + intros [l' ->]. reflexivity.
  - intros e w' H Hne. rewrite Hrun in H.
    destruct (cycles _ _ _ _ _ _ _) as [l' w1|e1 w1].
    + inversion H; subst. exfalso. apply Hne. reflexivity.
    + now inversion H.
  - intros l' w' Hc.
    destruct (cycles_done _ _ _ _ _ _ _ _ _ Hc) as (_ & Hr & Hvp & Hlen).
    rewrite range_length in Hr, Hlen.
    split; [exact Hr|]. split; [|exact Hlen].
    apply Hvp. rewrite (range_succ maxiter Hmax).
    intros Hnil. apply app_eq_nil in Hnil. destruct Hnil as [_ Hnil].
    discriminate Hnil.
Qed.

End DriverTheorem.

(** C1 as stated fails in one point, the number of iterations: with the
    bound [0] the driver does not raise before any iteration, it runs one
    body (both fragments are re-solved once, the potential is stored) and
    raises then. *)
Lemma handler_bound_zero_runs_one_cycle :
  let o := vp_handler "dd" (Q2Qc (1 # 2)) 0 (Q2Qc 0) None false false
                      Sample.engine in
  raised o = Some MaxIterationsExceeded /\
  resolves 0 (log Sample.engine) = 0 /\
  resolves 0 (log (final o)) = 1 /\
  resolves 1 (log (final o)) = 1 /\
  resolves 0 (log (final o)) <> resolves 0 (log Sample.engine) + Z.to_nat 0.
Proof.
  intros o.
  assert (H0 : resolves 0 (log Sample.engine) = 0) by (vm_compute; reflexivity).
  assert (H1 : resolves 0 (log (final o)) = 1) by (vm_compute; reflexivity).
  split; [vm_compute; reflexivity|].
  split; [exact H0|]. split; [exact H1|].
  split; [vm_compute; reflexivity|].
  rewrite H0, H1. discriminate.
Qed.

(** C1 (amended) at the sample engine with the bound [2]: three bodies
    complete and the driver raises. *)
Lemma vp_handler_raises_after_all_cycles_witness :
  let run := vp_handler "dd" (Q2Qc (1 # 2)) 2 (Q2Qc 0) None true true in
  raised (run Sample.engine) = Some MaxIterationsExceeded /\
  resolves 0 (log (final (run Sample.engine))) = 3 /\
  (forall w', run Sample.engine <> Done tt w') /\
  (forall atol',
     vp_handler "dd" (Q2Qc (1 # 2)) 2 atol' None true true Sample.engine
     = run Sample.engine) /\
  (forall w',
     run Sample.engine = Raise MaxIterationsExceeded w' <->
     exists l', cycles "dd" (Q2Qc (1 # 2)) true true (range (2 + 1))
                       (initial_locals (obj Sample.engine)) Sample.engine
                = Done l' w').
Proof.
  intros run.
  split; [vm_compute; reflexivity|].
  split; [vm_compute; reflexivity|].
  destruct (@vp_handler_raises_after_all_cycles Qc_scalar Qc_collaborators
              "dd" (Q2Qc (1 # 2)) 2%Z (Q2Qc 0) true true Sample.engine)
    as (H1 & H2 & H3 & _).
  - lia.
  - split; [exact H1|]. split; [exact H2 | exact H3].
Defined.

(** * Further properties of the engine *)

(** ** Exceptions of a kind *)

Lemma only_ok {A} (P : exn -> Prop) (a : A) : only P (Ok a).
Proof. intros e H. discriminate H. Qed.

Lemma only_err {A} (P : exn -> Prop) (e : exn) : P e -> only P (@Err A e).
Proof. intros He e' H. inversion H; subst. exact He. Qed.

Lemma only_bind {A B} (P : exn -> Prop) (r : result A) (k : A -> result B) :
  only P r -> (forall a, r = Ok a -> only P (k a)) -> only P (rbind r k).
Proof.
  intros Hr Hk. destruct r as [a|e]; simpl.
  - now apply Hk.
  - intros e' H. apply Hr. inversion H. reflexivity.
Qed.

Lemma only_foldM {A B} (P : exn -> Prop) (step : A -> B -> result A)
      (xs : list B) (a : A) :
  (forall a b, In b xs -> only P (step a b)) -> only P (foldM step a xs).
Proof.
  revert a. induction xs as [|x xs IH]; intros a H; simpl.
  - apply only_ok.
  - apply only_bind; [apply H; now left|]. intros a' _.
    apply IH. intros a0 b Hb. apply H. now right.
Qed.

Lemma only_mapM {A B} (P : exn -> Prop) (f : A -> result B) (xs : list A) :
  (forall a, only P (f a)) -> only P (mapM f xs).
Proof.
  intros H. induction xs as [|x xs IH]; simpl.
  - apply only_ok.
  - apply only_bind; [apply H|]. intros y _.
    apply only_bind; [exact IH|]. intros ys _. apply only_ok.
Qed.

Lemma only_ewise {A B C} (P : exn -> Prop) (e : exn) (f : A -> B -> result C)
      (xs : list A) (ys : list B) :
  P e -> (forall a b, only P (f a b)) -> only P (ewise e f xs ys).
Proof.
  intros He H. revert ys. induction xs as [|x xs IH]; intros [|y ys]; simpl;
    try (now apply only_err); try apply only_ok.
  apply only_bind; [apply H|]. intros c _.
  apply only_bind; [apply IH|]. intros cs _. apply only_ok.
Qed.

Lemma only_bcast {A B} (P : exn -> Prop) (f : A -> B -> result A)
      (xs : list A) (ys : list B) :
  P BroadcastError -> (forall a b, only P (f a b)) -> only P (bcast f xs ys).
Proof.
  intros He H. unfold bcast. destruct ys as [|y [|y' ys]];
    try (apply only_ewise; [exact He | exact H]).
  apply only_mapM. intros x. apply H.
Qed.

Lemma only_bcast2 {A} (P : exn -> Prop) (f : A -> A -> result A) (xs ys : list A) :
  P BroadcastError -> (forall a b, only P (f a b)) -> only P (bcast2 f xs ys).
Proof.
  intros He H. unfold bcast2.
  destruct xs as [|x [|x' xs]]; destruct ys as [|y [|y' ys]];
    try (apply only_ewise; [exact He | exact H]);
    try (apply only_mapM; intros z; apply H).
Qed.

Lemma only_index {A} (P : exn -> Prop) (xs : list A) (i : nat) :
  P IndexError -> only P (index xs i).
Proof.
  intros He. unfold index. destruct (nth_error xs i); [apply only_ok|].
  now apply only_err.
Qed.

(** ** Plotting along an axis *)

Section AxisPlotFacts.
Context {R : Scalar} {O : Order}.

Lemma only_take (v : Vector) (indx : list nat) :
  only (fun e => e = IndexError) (take v indx).
Proof. unfold take. apply only_mapM. intros i. now apply only_index. Qed.

Lemma only_axis_point (grid : list Vector) (m : Vector) (t1 t2 k : nat)
      (thr : F) (acc : list F * list F) (i : nat) :
  only (fun e => e = IndexError) (axis_point grid m t1 t2 k thr acc i).
Proof.
  destruct acc as [x y]. unfold axis_point.
  apply only_bind; [now apply only_index|]. intros g1 _.
  apply only_bind; [now apply only_index|]. intros a _.
  destruct (near a thr); [|apply only_ok].
  apply only_bind; [now apply only_index|]. intros g2 _.
  apply only_bind; [now apply only_index|]. intros b _.
  destruct (near b thr); [|apply only_ok].
  apply only_bind; [now apply only_index|]. intros gk _.
  apply only_bind; [now apply only_index|]. intros c _.
  apply only_bind; [now apply only_index|]. intros d _.
  apply only_ok.
Qed.

Lemma only_axis_scan (grid : list Vector) (m : Vector) (t1 t2 k : nat) (thr : F) :
  only (fun e => e = IndexError) (axis_scan grid m t1 t2 k thr).
Proof.
  unfold axis_scan.
  apply only_bind; [now apply only_index|]. intros g0 _.
  apply only_foldM. intros acc i _. apply only_axis_point.
Qed.

Lemma only_axis_pass (axis : string) (grid : list Vector) (thr : F) (m : Vector) :
  only (fun e => e = IndexError) (axis_pass axis grid thr m).
Proof.
  unfold axis_pass. cbv zeta.
  apply only_bind.
  { destruct (String.eqb axis "z"); [apply only_axis_scan|].
    destruct (String.eqb axis "y"); [apply only_axis_scan|].
    destruct (String.eqb axis "x"); [apply only_axis_scan|].
    apply only_ok. }
  intros [x y] _.
  apply only_bind; [apply only_take|]. intros x' _.
  apply only_bind; [apply only_take|]. intros y' _.
  apply only_ok.
Qed.

Lemma index_inv {A} (xs : list A) (i : nat) (x : A) :
  index xs i = Ok x -> i < length xs /\ forall d, nth i xs d = x.
Proof.
  unfold index. destruct (nth_error xs i) eqn:H; [|discriminate].
  intros Hx. inversion Hx; subst. split.
  - apply nth_error_Some. congruence.
  - intros d. now apply nth_error_nth.
Qed.

(** What a scan that completes has collected. *)
Lemma axis_fold_inv (grid : list Vector) (m : Vector) (t1 t2 k : nat) (thr : F) :
  forall (l : list nat) (x y x' y' : list F),
    foldM (axis_point grid m t1 t2 k thr) (x, y) l = Ok (x', y') ->
    x' = x ++ map (at2 grid k) (filter (on_axis grid t1 t2 thr) l) /\
    y' = y ++ map (at1 m) (filter (on_axis grid t1 t2 thr) l).
Proof.
  induction l as [|i l IH]; intros x y x' y' H.
  - simpl in H. inversion H; subst. now rewrite !app_nil_r.
  - cbn [foldM] in H. apply rbind_ok in H. destruct H as ([x1 y1] & H1 & H).
    apply IH in H. destruct H as [-> ->].
    unfold axis_point in H1.
    apply rbind_ok in H1. destruct H1 as (g1 & Hg1 & H1).
    apply rbind_ok in H1. destruct H1 as (a & Ha & H1).
    destruct (index_inv _ _ _ Hg1) as [_ Eg1].
    destruct (index_inv _ _ _ Ha) as [_ Ea].
    assert (Hat1 : at2 grid t1 i = a).
    { unfold at2. now rewrite (Eg1 []), (Ea f0). }
    cbn [filter].
    destruct (near a thr) eqn:Na.
    + apply rbind_ok in H1. destruct H1 as (g2 & Hg2 & H1).
      apply rbind_ok in H1. destruct H1 as (b & Hb & H1).
      destruct (index_inv _ _ _ Hg2) as [_ Eg2].
      destruct (index_inv _ _ _ Hb) as [_ Eb].
      assert (Hat2 : at2 grid t2 i = b).
      { unfold at2. now rewrite (Eg2 []), (Eb f0). }
      destruct (near b thr) eqn:Nb.
      * assert (Hon : on_axis grid t1 t2 thr i = true).
        { unfold on_axis. now rewrite Hat1, Hat2, Na, Nb. }
        rewrite Hon.
        apply rbind_ok in H1. destruct H1 as (gk & Hgk & H1).
        apply rbind_ok in H1. destruct H1 as (c & Hc & H1).
        apply rbind_ok in H1. destruct H1 as (d & Hd & H1).
        destruct (index_inv _ _ _ Hgk) as [_ Egk].
        destruct (index_inv _ _ _ Hc) as [_ Ec].
        destruct (index_inv _ _ _ Hd) as [_ Ed].
        assert (Hatk : at2 grid k i = c).
        { unfold at2. now rewrite (Egk []), (Ec f0). }
        assert (Hatm : at1 m i = d) by (unfold at1; apply Ed).
        inversion H1; subst x1 y1. cbn [map].
        rewrite Hatk, Hatm.
        now rewrite <- !app_assoc.
      * assert (Hon : on_axis grid t1 t2 thr i = false).
        { unfold on_axis. rewrite Hat1, Hat2, Na, Nb. reflexivity. }
        rewrite Hon. inversion H1; subst. now split.
    + assert (Hon : on_axis grid t1 t2 thr i = false).
      { unfold on_axis. rewrite Hat1, Na. reflexivity. }
      rewrite Hon. inversion H1; subst. now split.
Qed.

Lemma index_at2 (grid : list Vector) (t i : nat) :
  i < length (nth t grid []) -> index (nth t grid []) i = Ok (at2 grid t i).
Proof. intros H. unfold at2. now apply index_nth. Qed.

Lemma index_at1 (m : Vector) (i : nat) :
  i < length m -> index m i = Ok (at1 m i).
Proof. intros H. unfold at1. now apply index_nth. Qed.

(** A scan over points that the coordinate arrays and the array of values
    cover completes. *)
Lemma axis_fold_ok (grid : list Vector) (m : Vector) (t1 t2 k : nat) (thr : F) :
  t1 < length grid -> t2 < length grid -> k < length grid ->
  forall (l : list nat) (x y : list F),
    (forall i, In i l ->
       i < length (nth t1 grid []) /\ i < length (nth t2 grid []) /\
       i < length (nth k grid []) /\ i < length m) ->
    foldM (axis_point grid m t1 t2 k thr) (x, y) l
    = Ok (x ++ map (at2 grid k) (filter (on_axis grid t1 t2 thr) l),
          y ++ map (at1 m) (filter (on_axis grid t1 t2 thr) l)).
Proof.
  intros H1 H2 Hk. induction l as [|i l IH]; intros x y Hl.
  - simpl. now rewrite !app_nil_r.
  - destruct (Hl i (or_introl eq_refl)) as (Hi1 & Hi2 & Hik & Him).
    assert (Hrest : forall j, In j l ->
              j < length (nth t1 grid []) /\ j < length (nth t2 grid []) /\
              j < length (nth k grid []) /\ j < length m)
      by (intros j Hj; apply Hl; now right).
    cbn [foldM filter]. unfold axis_point at 1.
    rewrite (index_nth grid t1 [] H1). cbn [rbind].
    rewrite (index_at2 grid t1 i Hi1). cbn [rbind].
    destruct (near (at2 grid t1 i) thr) eqn:Na.
    + rewrite (index_nth grid t2 [] H2). cbn [rbind].
      rewrite (index_at2 grid t2 i Hi2). cbn [rbind].
      destruct (near (at2 grid t2 i) thr) eqn:Nb.
      * assert (Hon : on_axis grid t1 t2 thr i = true).
        { unfold on_axis. now rewrite Na, Nb. }
        rewrite Hon.
        rewrite (index_nth grid k [] Hk). cbn [rbind].
        rewrite (index_at2 grid k i Hik). cbn [rbind].
        rewrite (index_at1 m i Him). cbn [rbind].
        rewrite (IH _ _ Hrest). cbn [map].
        now rewrite <- !app_assoc.
      * assert (Hon : on_axis grid t1 t2 thr i = false).
        { unfold on_axis. rewrite Na, Nb. reflexivity. }
        rewrite Hon. cbn [rbind]. apply IH, Hrest.
    + assert (Hon : on_axis grid t1 t2 thr i = false).
      { unfold on_axis. rewrite Na. reflexivity. }
      rewrite Hon. cbn [rbind]. apply IH, Hrest.
Qed.

Lemma axis_scan_inv (grid : list Vector) (m : Vector) (t1 t2 k : nat) (thr : F)
      (x y : list F) :
  axis_scan grid m t1 t2 k thr = Ok (x, y) ->
  x = map (at2 grid k) (kept grid t1 t2 thr) /\
  y = map (at1 m) (kept grid t1 t2 thr).
Proof.
  unfold axis_scan. intros H.
  apply rbind_ok in H. destruct H as (g0 & Hg0 & H).
  destruct (index_inv _ _ _ Hg0) as [_ Eg0].
  apply axis_fold_inv in H. unfold kept. now rewrite (Eg0 []).
Qed.

Lemma axis_branch_inv (axis : string) (grid : list Vector) (thr : F) (m : Vector)
      (x y : list F) :
  (if String.eqb axis "z" then axis_scan grid m 0 1 2 thr
   else if String.eqb axis "y" then axis_scan grid m 0 2 1 thr
   else if String.eqb axis "x" then axis_scan grid m 1 2 0 thr
   else Ok ([], [])) = Ok (x, y) ->
  x = axis_xs axis grid thr /\ y = axis_ys axis grid thr m.
Proof.
  unfold axis_xs, axis_ys, axis_columns.
  destruct (String.eqb axis "z"); [apply axis_scan_inv|].
  destruct (String.eqb axis "y"); [apply axis_scan_inv|].
  destruct (String.eqb axis "x"); [apply axis_scan_inv|].
  intros H. inversion H. now split.
Qed.

(** A pass that completes returns the coordinates and the values of the
    points on the axis, both taken in the order [argsort] gives for the
    coordinates. *)
Lemma axis_pass_inv (axis : string) (grid : list Vector) (thr : F) (m : Vector)
      (x y : Vector) :
  axis_pass axis grid thr m = Ok (x, y) ->
  take (axis_xs axis grid thr) (argsort (axis_xs axis grid thr)) = Ok x /\
  take (axis_ys axis grid thr m) (argsort (axis_xs axis grid thr)) = Ok y.
Proof.
  unfold axis_pass. cbv zeta. intros H.
  apply rbind_ok in H. destruct H as ([xs ys] & Hb & H).
  apply axis_branch_inv in Hb. destruct Hb as [-> ->].
  apply rbind_ok in H. destruct H as (x1 & Hx & H).
  apply rbind_ok in H. destruct H as (y1 & Hy & H).
  inversion H; subst. now split.
Qed.

Lemma take_length (v : Vector) (indx : list nat) (r : Vector) :
  take v indx = Ok r -> length r = length indx.
Proof.
  unfold take. intros H. now destruct (mapM_inv _ 0 f0 _ _ H).
Qed.

(** What the loop over the matrices leaves: the last [x] and one [y] for
    every matrix. *)
Lemma axis_loop_inv (axis : string) (grid : list Vector) (thr : F) :
  forall (ms : list Vector) (acc acc' : option Vector * list Vector),
    foldM (fun (acc : option Vector * list Vector) matrix =>
             rbind (axis_pass axis grid thr matrix)
                   (fun p => let '(x, y) := p in Ok (Some x, snd acc ++ [y])))
          acc ms = Ok acc' ->
    exists ys,
      snd acc' = snd acc ++ ys /\ length ys = length ms /\
      (forall j, j < length ms ->
         take (axis_ys axis grid thr (nth j ms []))
              (argsort (axis_xs axis grid thr)) = Ok (nth j ys [])) /\
      (ms <> [] ->
         exists x, fst acc' = Some x /\
                   take (axis_xs axis grid thr) (argsort (axis_xs axis grid thr))
                   = Ok x).
Proof.
  induction ms as [|m ms IH]; intros acc acc' H.
  - simpl in H. inversion H; subst. exists []. rewrite app_nil_r.
    split; [reflexivity|]. split; [reflexivity|].
    split; [simpl; lia | intros Hne; now elim Hne].
  - cbn [foldM] in H. apply rbind_ok in H. destruct H as (a1 & H1 & H).
    apply rbind_ok in H1. destruct H1 as ([x y] & Hp & H1).
    inversion H1; subst a1. clear H1.
    destruct (axis_pass_inv _ _ _ _ _ _ Hp) as [Hx Hy].
    destruct (IH _ _ H) as (ys & Hs & Hl & Hj & Hlast).
    cbn [snd] in Hs. exists (y :: ys).
    split; [rewrite Hs, <- app_assoc; reflexivity|].
    split; [simpl; now rewrite Hl|].
    split.
    + intros [|j] Hlt; cbn [nth]; [exact Hy | apply Hj; simpl in Hlt; lia].
    + intros _. destruct ms as [|m' ms].
      * simpl in H. inversion H; subst. cbn [fst]. eauto.
      * apply Hlast. discriminate.
Qed.

Lemma take_in_range (v : Vector) (indx : list nat) :
  (forall i, In i indx -> i < length v) ->
  take v indx = Ok (map (at1 v) indx).
Proof.
  unfold take. induction indx as [|i indx IH]; intros H; simpl.
  - reflexivity.
  - rewrite (index_at1 v i) by (apply H; now left). cbn [rbind].
    rewrite IH by (intros j Hj; apply H; now right). reflexivity.
Qed.

Lemma axis_scan_ok (grid : list Vector) (m : Vector) (t1 t2 k n : nat) (thr : F) :
  t1 < 3 -> t2 < 3 -> k < 3 -> 3 <= length grid ->
  (forall t, t < 3 -> length (nth t grid []) = n) -> length m = n ->
  axis_scan grid m t1 t2 k thr
  = Ok (map (at2 grid k) (kept grid t1 t2 thr),
        map (at1 m) (kept grid t1 t2 thr)).
Proof.
  intros H1 H2 Hk Hg Hn Hm. unfold axis_scan, kept.
  rewrite (index_nth grid 0 []) by lia. cbn [rbind].
  rewrite (axis_fold_ok grid m t1 t2 k thr) by lia || (
    intros i Hi; apply in_seq in Hi;
    rewrite (Hn 0) in Hi by lia;
    rewrite !Hn by assumption; lia).
  reflexivity.
Qed.

Lemma axis_branch_ok (axis : string) (grid : list Vector) (m : Vector) (n : nat)
      (thr : F) :
  3 <= length grid ->
  (forall t, t < 3 -> length (nth t grid []) = n) -> length m = n ->
  (if String.eqb axis "z" then axis_scan grid m 0 1 2 thr
   else if String.eqb axis "y" then axis_scan grid m 0 2 1 thr
   else if String.eqb axis "x" then axis_scan grid m 1 2 0 thr
   else Ok ([], []))
  = Ok (axis_xs axis grid thr, axis_ys axis grid thr m).
Proof.
  intros Hg Hn Hm. unfold axis_xs, axis_ys, axis_columns.
  destruct (String.eqb axis "z"); [apply (axis_scan_ok grid m 0 1 2 n); auto; lia|].
  destruct (String.eqb axis "y"); [apply (axis_scan_ok grid m 0 2 1 n); auto; lia|].
  destruct (String.eqb axis "x"); [apply (axis_scan_ok grid m 1 2 0 n); auto; lia|].
  reflexivity.
Qed.

Lemma axis_xs_ys_length (axis : string) (grid : list Vector) (thr : F) (m : Vector) :
  length (axis_ys axis grid thr m) = length (axis_xs axis grid thr).
Proof.
  unfold axis_xs, axis_ys. destruct (axis_columns axis) as [[[t1 t2] k]|].
  - now rewrite !length_map.
  - reflexivity.
Qed.

(** A pass over a grid of three coordinate arrays of one length and an
    array of values of that length completes, when [argsort] returns
    indices of its argument. *)
Lemma axis_pass_ok (axis : string) (grid : list Vector) (m : Vector) (n : nat)
      (thr : F) :
  (forall i, In i (argsort (axis_xs axis grid thr)) ->
             i < length (axis_xs axis grid thr)) ->
  3 <= length grid ->
  (forall t, t < 3 -> length (nth t grid []) = n) -> length m = n ->
  axis_pass axis grid thr m
  = Ok (map (at1 (axis_xs axis grid thr)) (argsort (axis_xs axis grid thr)),
        map (at1 (axis_ys axis grid thr m)) (argsort (axis_xs axis grid thr))).
Proof.
  intros Hp Hg Hn Hm. unfold axis_pass. cbv zeta.
  rewrite (axis_branch_ok axis grid m n thr Hg Hn Hm). cbn [rbind].
  rewrite (take_in_range _ _ Hp). cbn [rbind].
  rewrite take_in_range; [reflexivity|].
  intros i Hi. rewrite axis_xs_ys_length. now apply Hp.
Qed.

Lemma axis_loop_ok (axis : string) (grid : list Vector) (n : nat) (thr : F) :
  (forall i, In i (argsort (axis_xs axis grid thr)) ->
             i < length (axis_xs axis grid thr)) ->
  3 <= length grid ->
  (forall t, t < 3 -> length (nth t grid []) = n) ->
  forall (ms : list Vector) (acc : option Vector * list Vector),
    Forall (fun m => length m = n) ms ->
    foldM (fun (acc : option Vector * list Vector) matrix =>
             rbind (axis_pass axis grid thr matrix)
                   (fun p => let '(x, y) := p in Ok (Some x, snd acc ++ [y])))
          acc ms
    = Ok (match ms with
          | [] => fst acc
          | _ => Some (map (at1 (axis_xs axis grid thr))
                           (argsort (axis_xs axis grid thr)))
          end,
          snd acc ++ map (fun m => map (at1 (axis_ys axis grid thr m))
                                       (argsort (axis_xs axis grid thr))) ms).
Proof.
  intros Hp Hg Hn. induction ms as [|m ms IH]; intros acc Hms.
  - simpl. rewrite app_nil_r. now destruct acc.
  - apply Forall_cons_iff in Hms. destruct Hms as [Hm Hms']. cbn [foldM].
    rewrite (axis_pass_ok axis grid m n thr Hp Hg Hn Hm). cbn [rbind].
    rewrite (IH _ Hms'). cbn [fst snd map]. rewrite <- app_assoc. cbn [app].
    now destruct ms.
Qed.

Lemma combine_map_map {A B C} (f : A -> B) (g : A -> C) (l : list A) :
  combine (map f l) (map g l) = map (fun i => (f i, g i)) l.
Proof. induction l as [|a l IH]; simpl; [reflexivity | now rewrite IH]. Qed.

Lemma map_nth_seq {A} (xs : list A) (d : A) :
  map (fun i => nth i xs d) (seq 0 (length xs)) = xs.
Proof. exact (tab_nth xs d). Qed.

Lemma combine_nth_seq {A B} (xs : list A) (ys : list B) (d : A) (d' : B) :
  length ys = length xs ->
  map (fun i => (nth i xs d, nth i ys d')) (seq 0 (length xs)) = combine xs ys.
Proof.
  intros H. rewrite <- (combine_map_map (fun i => nth i xs d) (fun i => nth i ys d')).
  rewrite map_nth_seq. rewrite <- H. now rewrite map_nth_seq.
Qed.

End AxisPlotFacts.

Section AxisPlotTheorems.
Context {R : Scalar} {O : Order}.

(** X1: [axis_plot] with an empty list of matrices raises
    [UnboundLocalError] for its local [x], whatever the axis and the grid;
    with at least one matrix it returns or raises [IndexError], nothing
    else. *)
Theorem axis_plot_exceptions :
  forall (axis : string) (grid : list Vector) (threshold : F),
    axis_plot axis [] grid threshold = Err (UnboundLocalError "x") /\
    forall (m : Vector) (ms : list Vector),
      (exists x ys, axis_plot axis (m :: ms) grid threshold = Ok (x, ys)) \/
      axis_plot axis (m :: ms) grid threshold = Err IndexError.
Proof.
  intros axis grid thr. split; [reflexivity|].
  intros m ms. unfold axis_plot.
  destruct (foldM _ _ (m :: ms)) as [[x ys]|e] eqn:H; cbn [rbind].
  - destruct (axis_loop_inv axis grid thr (m :: ms) _ _ H) as (_ & _ & _ & _ & Hx).
    destruct Hx as (x' & Hx & _); [discriminate|].
    cbn [fst] in Hx. subst x. left. eauto.
  - right. f_equal.
    refine (only_foldM (fun e => e = IndexError) _ _ _ _ e H).
    intros acc m' _.
    apply only_bind; [apply only_axis_pass|]. intros [x y] _. apply only_ok.
Qed.

(** X2: when [axis_plot] returns, it returns one array of values for every
    matrix, and every one of them has the length of the array of
    coordinates. *)
Theorem axis_plot_lengths :
  forall (axis : string) (ms : list Vector) (grid : list Vector) (threshold : F)
         (x : Vector) (ys : list Vector),
    axis_plot axis ms grid threshold = Ok (x, ys) ->
    length ys = length ms /\ Forall (fun y => length y = length x) ys.
Proof.
  intros axis ms grid thr x ys H. unfold axis_plot in H.
  apply rbind_ok in H. destruct H as ([ox ys'] & Hl & H).
  destruct (axis_loop_inv axis grid thr ms _ _ Hl) as (ys0 & Hs & Hlen & Hj & Hx).
  cbn [snd app] in Hs. subst ys'.
  destruct ox as [x'|]; [|discriminate]. inversion H; subst x' ys0. clear H.
  split; [exact Hlen|].
  destruct ms as [|m ms].
  - destruct ys; [constructor | discriminate].
  - destruct Hx as (x' & Hx & Ht); [discriminate|].
    cbn [fst] in Hx. inversion Hx; subst x'.
    apply Forall_forall. intros y Hy.
    destruct (In_nth _ _ [] Hy) as (j & Hjl & <-).
    assert (Hjm : j < length (m :: ms))
      by exact (eq_ind _ (fun n => j < n) Hjl _ Hlen).
    exact (eq_trans (take_length _ _ _ (Hj j Hjm))
                    (eq_sym (take_length _ _ _ Ht))).
Qed.

(** X3: on a grid of three coordinate arrays of one length and matrices
    of that length, with an [argsort] that returns a permutation of the
    indices of its argument, [axis_plot] returns; the coordinates it returns are those of the points
    on the axis in another order, and in that order every array of values
    is still paired with its coordinates: the pairs (coordinate, value) are
    those of the points on the axis. *)
Theorem axis_plot_keeps_pairs :
  forall (axis : string) (ms : list Vector) (grid : list Vector) (threshold : F)
         (n : nat),
    (forall v : Vector, Permutation (argsort v) (seq 0 (length v))) ->
    3 <= length grid ->
    (forall t, t < 3 -> length (nth t grid []) = n) ->
    ms <> [] ->
    Forall (fun m => length m = n) ms ->
    exists (x : Vector) (ys : list Vector),
      axis_plot axis ms grid threshold = Ok (x, ys) /\
      Permutation x (axis_xs axis grid threshold) /\
      length ys = length ms /\
      forall j, j < length ms ->
        Permutation (combine x (nth j ys []))
                    (combine (axis_xs axis grid threshold)
                             (axis_ys axis grid threshold (nth j ms []))).
Proof.
  intros axis ms grid thr n Hperm Hg Hn Hne Hms.
  set (xs := axis_xs axis grid thr).
  assert (Hp : forall i, In i (argsort xs) -> i < length xs).
  { intros i Hi. apply (Permutation_in _ (Hperm xs)) in Hi.
    apply in_seq in Hi. lia. }
  exists (map (at1 xs) (argsort xs)),
         (map (fun m => map (at1 (axis_ys axis grid thr m)) (argsort xs)) ms).
  split; [|split; [|split]].
  - unfold axis_plot.
    rewrite (axis_loop_ok axis grid n thr Hp Hg Hn ms (None, []) Hms).
    cbn [rbind snd app]. destruct ms; [now elim Hne | reflexivity].
  - apply (Permutation_trans (l' := map (at1 xs) (seq 0 (length xs)))).
    + apply Permutation_map. apply Hperm.
    + unfold at1. now rewrite map_nth_seq.
  - apply length_map.
  - intros j Hj.
    rewrite (nth_indep _ [] (map (at1 (axis_ys axis grid thr [])) (argsort xs)))
      by (rewrite length_map; exact Hj).
    rewrite (map_nth (fun m => map (at1 (axis_ys axis grid thr m)) (argsort xs))).
    rewrite combine_map_map.
    rewrite <- (combine_nth_seq xs (axis_ys axis grid thr (nth j ms [])) f0 f0)
      by apply axis_xs_ys_length.
    apply (Permutation_map (fun i => (at1 xs i, at1 (axis_ys axis grid thr (nth j ms [])) i))).
    apply Hperm.
Qed.

(** X4: for an axis other than ["x"], ["y"] and ["z"], [axis_plot] does not
    look at the grid: with at least one matrix, and [argsort] of the empty
    array empty, it returns the empty array of coordinates and an empty
    array of values for every matrix. *)
Theorem axis_plot_unknown_axis :
  forall (axis : string) (m : Vector) (ms : list Vector) (grid : list Vector)
         (threshold : F),
    argsort [] = [] ->
    axis <> "x" -> axis <> "y" -> axis <> "z" ->
    axis_plot axis (m :: ms) grid threshold
    = Ok ([], repeat [] (S (length ms))).
Proof.
  intros axis m ms grid thr Hs Hx Hy Hz.
  apply String.eqb_neq in Hx, Hy, Hz.
  assert (Hpass : forall m', axis_pass axis grid thr m' = Ok ([], [])).
  { intros m'. unfold axis_pass. rewrite Hx, Hy, Hz. cbv zeta. cbn [rbind].
    rewrite Hs. reflexivity. }
  unfold axis_plot.
  assert (Hloop : forall (l : list Vector) (acc : option Vector * list Vector),
            foldM (fun (acc : option Vector * list Vector) matrix =>
                     rbind (axis_pass axis grid thr matrix)
                           (fun p => let '(x, y) := p in Ok (Some x, snd acc ++ [y])))
                  acc l
            = Ok (match l with [] => fst acc | _ => Some [] end,
                  snd acc ++ repeat [] (length l))).
  { induction l as [|m' l IH]; intros acc.
    - simpl. rewrite app_nil_r. now destruct acc.
    - cbn [foldM]. rewrite Hpass. cbn [rbind]. rewrite IH.
      cbn [fst snd length repeat]. rewrite <- app_assoc. cbn [app].
      now destruct l. }
  rewrite Hloop. reflexivity.
Qed.

End AxisPlotTheorems.

Lemma insert_by_perm (v : @Vector Qc_scalar) (i : nat) (l : list nat) :
  Permutation (insert_by v i l) (i :: l).
Proof.
  induction l as [|j l IH]; simpl; [reflexivity|].
  destruct (Qc_ltb _ _); [|reflexivity].
  apply (Permutation_trans (l' := j :: i :: l)); [now constructor | constructor].
Qed.

Lemma Qc_argsort_perm (v : @Vector Qc_scalar) :
  Permutation (Qc_argsort v) (seq 0 (length v)).
Proof.
  unfold Qc_argsort. generalize (seq 0 (length v)). intros l.
  induction l as [|i l IH]; simpl; [reflexivity|].
  apply (Permutation_trans (insert_by_perm v i _)). now constructor.
Qed.

(** X2 at the sample grid of five points, three of them on the z axis. *)
Lemma axis_plot_lengths_witness :
  axis_plot "z" Plot.values Plot.coords Plot.threshold = Ok (Plot.heights, Plot.along) /\
  length Plot.along = length Plot.values /\
  Forall (fun y => length y = length Plot.heights) Plot.along.
Proof.
  assert (H : axis_plot "z" Plot.values Plot.coords Plot.threshold
              = Ok (Plot.heights, Plot.along)) by reflexivity.
  split; [exact H|].
  exact (@axis_plot_lengths Qc_scalar Qc_order "z" Plot.values Plot.coords
           Plot.threshold Plot.heights Plot.along H).
Defined.

(** X3 at the sample grid. *)
Lemma axis_plot_keeps_pairs_witness :
  exists (x : @Vector Qc_scalar) (ys : list (@Vector Qc_scalar)),
    axis_plot "z" Plot.values Plot.coords Plot.threshold = Ok (x, ys) /\
    Permutation x (axis_xs "z" Plot.coords Plot.threshold) /\
    length ys = length Plot.values /\
    forall j, j < length Plot.values ->
      Permutation (combine x (nth j ys []))
                  (combine (axis_xs "z" Plot.coords Plot.threshold)
                           (axis_ys "z" Plot.coords Plot.threshold
                                    (nth j Plot.values []))).
Proof.
  apply (@axis_plot_keeps_pairs Qc_scalar Qc_order "z" Plot.values Plot.coords
           Plot.threshold 5).
  - exact Qc_argsort_perm.
  - apply Nat.leb_le. reflexivity.
  - intros [|[|[|t]]] Ht; try reflexivity. lia.
  - discriminate.
  - repeat constructor.
Defined.

(** X4 at the sample grid with an axis that is none of the three. *)
Lemma axis_plot_unknown_axis_witness :
  axis_plot "r" Plot.values Plot.coords Plot.threshold = Ok ([], [[]; []]).
Proof.
  apply (@axis_plot_unknown_axis Qc_scalar Qc_order "r"
           (nth 0 Plot.values []) (tl Plot.values) Plot.coords Plot.threshold).
  - reflexivity.
  - discriminate.
  - discriminate.
  - discriminate.
Defined.

Section EngineFacts.
Context {R : Scalar} {E : Collaborators}.

(** X5: an engine cannot be built on an empty list of fragments: the
    constructor raises, [ConfigurationError] when the reference has no grid
    density and otherwise [IndexError] (for [self.frags[0]]), and it does so
    before the number of blocks or any aggregate is assigned. *)
Theorem init_without_fragments :
  forall mol : Molecule,
    Inversion_init [] mol
    = Raise (if Nat.eqb (length (density_da mol)) 0
             then ConfigurationError else IndexError)
            {| obj := blank [] mol; log := [] |}.
Proof.
  intros mol. unfold Inversion_init.
  cbv [assert_grid_elements bind get_self lift raise ret blank index
       frags molecule obj nth_error].
  destruct (Nat.eqb (length (density_da mol)) 0); reflexivity.
Qed.

(** X8: the two queries of the engine, [get_delta_density] for every option
    and [assert_grid_elements], leave the engine and the log as they are,
    whether they return or raise. *)
Theorem queries_leave_the_engine_unchanged :
  forall (option : string) (w : World),
    final (get_delta_density option w) = w /\
    final (assert_grid_elements w) = w.
Proof.
  intros option w. split.
  - unfold get_delta_density.
    destruct (String.eqb option "grid").
    + cbv [bind attr get_self lift ret]. destruct (nblocks (obj w)); [|reflexivity].
      destruct (foldM _ _ _) as [[[a b] l]|e]; reflexivity.
    + destruct (String.eqb option "matrix"); [|reflexivity].
      cbv [bind get_self lift ret].
      destruct (delta_matrix (obj w)) as [[a b]|e]; reflexivity.
  - cbv [assert_grid_elements bind get_self lift raise ret].
    destruct (Nat.eqb _ 0); [reflexivity|].
    destruct (index (frags (obj w)) 0); [|reflexivity].
    destruct (Nat.eqb _ 0); [reflexivity|].
    destruct (negb _); reflexivity.
Qed.

(** X7: the four aggregation methods recompute their attribute from the
    fragments and the reference and accumulate nothing across calls: a
    second call right after the first leaves what the first call left, and
    raises what the first call raised. *)
Theorem aggregation_is_idempotent :
  forall w : World,
    (get_frag_energies ;;; get_frag_energies)%M w = get_frag_energies w /\
    (get_frag_densities_nm ;;; get_frag_densities_nm)%M w
      = get_frag_densities_nm w /\
    (get_frag_densities_r ;;; get_frag_densities_r)%M w
      = get_frag_densities_r w /\
    (get_ep ;;; get_ep)%M w = get_ep w.
Proof.
  intros w. split; [|split; [|split]].
  - reflexivity.
  - unfold get_frag_densities_nm. cbv [bind get_self lift update].
    destruct (sum_densities_nm (self_nbf (obj w)) (frags (obj w)))
      as [[a b]|e] eqn:H; [|reflexivity].
    cbn [obj set_frag_nm self_nbf frags]. rewrite H. reflexivity.
  - unfold get_frag_densities_r. cbv [bind attr get_self lift update].
    destruct (nblocks (obj w)) as [nb|] eqn:Hn; [|reflexivity].
    destruct (sum_densities_r nb _ _) as [[a b]|e] eqn:H; [|reflexivity].
    cbv [obj set_frag_r nblocks molecule frags] in Hn, H |- *.
    rewrite Hn, H. reflexivity.
  - reflexivity.
Qed.

(** X9: with a negative bound the loop of [vp_handler] has no pass: the
    driver returns normally, for every strategy name and every guess, and
    leaves the engine and the log as they are; no exception reports that no
    cycle has run. *)
Theorem vp_handler_negative_bound_returns :
  forall (method : string) (beta : F) (maxiter : Z) (atol : F)
         (guess : option string) (print_scf plot_scf : bool) (w : World),
    (maxiter < 0)%Z ->
    vp_handler method beta maxiter atol guess print_scf plot_scf w = Done tt w.
Proof.
  intros method beta maxiter atol guess p q w Hneg.
  unfold vp_handler. cbv [bind get_self]. unfold range.
  replace (Z.to_nat (maxiter + 1)) with 0 by lia. cbn [seq map vp_loop].
  destruct guess as [g|]; [|reflexivity].
  destruct (String.eqb g "hartree"); [reflexivity|].
  destruct (String.eqb g "xc"); [reflexivity|].
  destruct (String.eqb g "hxc"); reflexivity.
Qed.

End EngineFacts.

(** X9 at the sample engine with the bound [-1]. *)
Lemma vp_handler_negative_bound_returns_witness :
  vp_handler "zpm" (Q2Qc (1 # 2)) (-1) (Q2Qc 0) None true true Sample.engine
  = Done tt Sample.engine.
Proof.
  apply (@vp_handler_negative_bound_returns Qc_scalar Qc_collaborators).
  lia.
Defined.

(** Running a body of the loop on a world: the monad and the methods are
    unfolded, and the outcome is read off case by case. *)
Ltac run_cycle :=
  cbv [cycle resolve_frags get_frag_energies get_frag_densities_r
       get_frag_densities_nm get_ep get_delta_density
       bind get_self attr lift update emit ret raise
       String.eqb Ascii.eqb Bool.eqb obj log final raised];
  repeat match goal with
         | |- context [match ?x with _ => _ end] =>
             lazymatch x with
             | context [match _ with _ => _ end] => fail
             | _ => destruct x eqn:?; cbv beta iota
             end
         end.

Ltac frame_leaf :=
  cbv [final obj]; unfold same_frame;
  cbn [molecule self_nbf nfrag nblocks frag_e frag_orbitals_r frags
       set_frags set_frag_energy set_frag_nm set_frag_r set_ep set_vp];
  repeat split; try reflexivity; try apply length_map.

Section Frame.
Context {R : Scalar} {E : Collaborators}.

Lemma same_frame_refl (s : Inversion) : same_frame s s.
Proof. unfold same_frame. repeat split. Qed.

Lemma same_frame_trans (s1 s2 s3 : Inversion) :
  same_frame s1 s2 -> same_frame s2 s3 -> same_frame s1 s3.
Proof.
  unfold same_frame.
  intros (A1 & A2 & A3 & A4 & A5 & A6 & A7) (B1 & B2 & B3 & B4 & B5 & B6 & B7).
  repeat split; congruence.
Qed.

Lemma cycle_frame (method : string) (beta : F) (print_scf plot_scf : bool)
      (step : Z) (l : Locals) (w : World) :
  same_frame (obj w) (obj (final (cycle method beta print_scf plot_scf step l w))).
Proof.
  destruct w as [s lg]. run_cycle; frame_leaf.
Qed.

End Frame.

Section FrameTheorems.
Context {R : Scalar} {E : Collaborators}.

Lemma vp_loop_frame (method : string) (beta : F) (print_scf plot_scf : bool)
      (maxiter : Z) (steps : list Z) :
  forall (l : Locals) (w : World),
    same_frame (obj w)
      (obj (final (vp_loop method beta print_scf plot_scf maxiter steps l w))).
Proof.
  induction steps as [|st steps IH]; intros l w.
  - apply same_frame_refl.
  - cbn [vp_loop]. unfold bind.
    pose proof (cycle_frame method beta print_scf plot_scf st l w) as Hc.
    destruct (cycle method beta print_scf plot_scf st l w) as [l' w'|e w'];
      cbn [final] in Hc |- *; [|exact Hc].
    destruct (Z.eqb st maxiter); [exact Hc|].
    exact (same_frame_trans _ _ _ Hc (IH l' w')).
Qed.

(** X11: whatever its arguments and however it ends, [vp_handler] leaves
    the reference molecule, the basis size, the number of blocks, the
    number of fragments (the attribute and the list) and the attributes
    [frag_e] and [frag_orbitals_r] as they were: it works on the fragments,
    the aggregates, the partition energy and the potential only. *)
Theorem vp_handler_keeps_the_frame :
  forall (method : string) (beta : F) (maxiter : Z) (atol : F)
         (guess : option string) (print_scf plot_scf : bool) (w : World),
    let s := obj w in
    let s' := obj (final (vp_handler method beta maxiter atol guess
                                     print_scf plot_scf w)) in
    molecule s' = molecule s /\ self_nbf s' = self_nbf s /\
    nfrag s' = nfrag s /\ nblocks s' = nblocks s /\
    frag_e s' = frag_e s /\ frag_orbitals_r s' = frag_orbitals_r s /\
    length (frags s') = length (frags s).
Proof.
  intros method beta maxiter atol guess print_scf plot_scf w s s'.
  change (same_frame s s'). subst s s'.
  unfold vp_handler. cbv [bind get_self].
  destruct guess as [g|]; [|apply vp_loop_frame].
  destruct (String.eqb g "hartree"); [apply same_frame_refl|].
  destruct (String.eqb g "xc"); [apply same_frame_refl|].
  destruct (String.eqb g "hxc"); [apply same_frame_refl|].
  apply vp_loop_frame.
Qed.

(** *** A strategy name that is none of the four *)

Lemma dispatch_unknown (method : string) (s : Inversion)
      (dd_a dd_b : list Vector) (dd_a_mn dd_b_mn : Matrix) :
  method <> "zpm" -> method <> "dd" -> method <> "zc" -> method <> "wy_r" ->
  dispatch method s dd_a dd_b dd_a_mn dd_b_mn = Err (UnboundLocalError "dvp_a").
Proof.
  intros H1 H2 H3 H4. apply String.eqb_neq in H1, H2, H3, H4.
  unfold dispatch. now rewrite H1, H2, H3, H4.
Qed.

Lemma cycle_unknown (method : string) (beta : F) (print_scf plot_scf : bool)
      (step : Z) (l : Locals) (w : World) :
  method <> "zpm" -> method <> "dd" -> method <> "zc" -> method <> "wy_r" ->
  let o := cycle method beta print_scf plot_scf step l w in
  raised o <> None /\
  vp (obj (final o)) = vp (obj w) /\
  scf_log (log (final o))
  = rev (seq 0 (length (frags (obj w)))) ++ scf_log (log w).
Proof.
  intros H1 H2 H3 H4 o. subst o. destruct w as [s lg].
  run_cycle;
    try match goal with
        | H : dispatch _ _ _ _ _ _ = Ok _ |- _ =>
            rewrite dispatch_unknown in H by assumption; discriminate H
        end;
    (split; [discriminate|]); (split; [reflexivity|]);
    cbn [scf_log flat_map app]; fold (scf_log lg);
    change (flat_map (fun e => match e with
                               | EvScf k _ _ => [k]
                               | _ => []
                               end))
      with scf_log;
    rewrite scf_log_app, scf_log_resolve; reflexivity.
Qed.

(** X10: with a strategy name that is none of ["zpm"], ["dd"], ["zc"],
    ["wy_r"] (and no guess, bound at least zero) the driver fails in its
    first pass, after every fragment has been re-solved once: no branch of
    the dispatch assigns [dvp_a], so a pass that gets as far as the update
    raises [UnboundLocalError]; the exception is never the one of the
    bound, and the potential of the engine is left as it was. *)
Theorem vp_handler_unknown_method :
  forall (method : string) (beta : F) (maxiter : Z) (atol : F)
         (print_scf plot_scf : bool) (w : World),
    (0 <= maxiter)%Z ->
    method <> "zpm" -> method <> "dd" -> method <> "zc" -> method <> "wy_r" ->
    let o := vp_handler method beta maxiter atol None print_scf plot_scf w in
    (exists e, raised o = Some e /\ e <> MaxIterationsExceeded) /\
    vp (obj (final o)) = vp (obj w) /\
    (forall k, k < length (frags (obj w)) ->
       resolves k (log (final o)) = S (resolves k (log w))) /\
    (forall s dd_a dd_b dd_a_mn dd_b_mn,
       dispatch method s dd_a dd_b dd_a_mn dd_b_mn
       = Err (UnboundLocalError "dvp_a")).
Proof.
  intros method beta maxiter atol p q w Hmax H1 H2 H3 H4 o.
  assert (Hsteps : exists st rest, range (maxiter + 1) = st :: rest).
  { rewrite (range_succ maxiter Hmax).
    destruct (range maxiter) as [|st rest]; cbn [app]; eauto. }
  destruct Hsteps as (st & rest & Hsteps).
  destruct (cycle_unknown method beta p q st (initial_locals (obj w)) w
              H1 H2 H3 H4) as (Hr & Hvp & Hlog).
  destruct (cycle method beta p q st (initial_locals (obj w)) w)
    as [l' w'|e w'] eqn:Hc; [exfalso; apply Hr; reflexivity|].
  assert (Ho : o = Raise e w').
  { subst o. unfold vp_handler. cbv [bind get_self]. rewrite Hsteps.
    cbn [vp_loop]. unfold bind. now rewrite Hc. }
  rewrite Ho. cbn [final raised] in Hvp, Hlog |- *.
  split; [|split; [exact Hvp|split]].
  - exists e. split; [reflexivity|].
    intros ->. exact (msafe_cycle _ _ _ _ _ _ _ _ Hc).
  - intros k Hk. exact (resolves_after_resolve _ k _ _ Hlog Hk).
  - intros. now apply dispatch_unknown.
Qed.

End FrameTheorems.

(** X10 at the sample engine with a misspelt strategy name. *)
Lemma vp_handler_unknown_method_witness :
  let o := vp_handler "wy" (Q2Qc (1 # 2)) 3 (Q2Qc 0) None true true Sample.engine in
  (exists e, raised o = Some e /\ e <> MaxIterationsExceeded) /\
  vp (obj (final o)) = vp (obj Sample.engine) /\
  (forall k, k < length (frags (obj Sample.engine)) ->
     resolves k (log (final o)) = S (resolves k (log Sample.engine))) /\
  (forall s dd_a dd_b dd_a_mn dd_b_mn,
     dispatch "wy" s dd_a dd_b dd_a_mn dd_b_mn
     = Err (UnboundLocalError "dvp_a")).
Proof.
  apply (@vp_handler_unknown_method Qc_scalar Qc_collaborators
           "wy" (Q2Qc (1 # 2)) 3%Z (Q2Qc 0) true true Sample.engine);
    [lia | discriminate | discriminate | discriminate | discriminate].
Defined.

(** ** What the methods may raise *)

Section OnlyMethods.
Context {R : Scalar} {E : Collaborators}.
Variable P : exn -> Prop.
Hypothesis P_index : P IndexError.
Hypothesis P_key : forall k, P (KeyError k).
Hypothesis P_broadcast : P BroadcastError.
Hypothesis P_contract : P ContractError.
Hypothesis P_axpy : P AxpyError.
Hypothesis P_type : P TypeError.
Hypothesis P_attribute : P AttributeError.

Lemma only_vbin (op : F -> F -> F) (a b : Vector) : only P (vbin op a b).
Proof. unfold vbin. apply only_bcast2; [exact P_broadcast|]. intros. apply only_ok. Qed.

Lemma only_viop (op : F -> F -> F) (a b : Vector) : only P (viop op a b).
Proof. unfold viop. apply only_bcast; [exact P_broadcast|]. intros. apply only_ok. Qed.

Lemma only_mbin (op : F -> F -> F) (a b : Matrix) : only P (mbin op a b).
Proof. unfold mbin. apply only_bcast2; [exact P_broadcast|]. intros. apply only_vbin. Qed.

Lemma only_miop (op : F -> F -> F) (a b : Matrix) : only P (miop op a b).
Proof. unfold miop. apply only_bcast; [exact P_broadcast|]. intros. apply only_viop. Qed.

Lemma only_axpy (c : F) (X self : Matrix) : only P (axpy c X self).
Proof.
  unfold axpy. apply only_ewise; [exact P_axpy|]. intros.
  apply only_ewise; [exact P_axpy|]. intros. apply only_ok.
Qed.

Lemma only_symmetrize (m : Matrix) : only P (symmetrize m).
Proof.
  unfold symmetrize. apply only_bind; [apply only_mbin|]. intros. apply only_ok.
Qed.

Lemma only_sum_densities_nm (n : nat) (fs : list Molecule) :
  only P (sum_densities_nm n fs).
Proof.
  unfold sum_densities_nm. apply only_foldM. intros [a b] f _. unfold nm_step.
  apply only_bind; [apply only_axpy|]. intros a' _.
  apply only_bind; [apply only_axpy|]. intros. apply only_ok.
Qed.

Lemma only_sum_densities_r (nb : nat) (mol : Molecule) (fs : list Molecule) :
  only P (sum_densities_r nb mol fs).
Proof.
  unfold sum_densities_r. apply only_foldM. intros [sa sb] block _.
  unfold r_step, block_sums.
  apply only_bind; [|intros [a b] _; apply only_ok].
  apply only_bind; [now apply only_index|]. intros mda _.
  apply only_bind; [now apply only_index|]. intros mdb _.
  apply only_foldM. intros [a b] f _. unfold block_step.
  apply only_bind; [now apply only_index|]. intros fda _.
  apply only_bind; [apply only_viop|]. intros a' _.
  apply only_bind; [now apply only_index|]. intros fdb _.
  apply only_bind; [apply only_viop|]. intros. apply only_ok.
Qed.

Lemma only_contract_p_p (a b : Vector) : only P (contract_p_p a b).
Proof.
  unfold contract_p_p. destruct (Nat.eqb _ _); [apply only_ok | now apply only_err].
Qed.

Lemma only_subscript {A} (o : option (list A)) (i : nat) : only P (subscript o i).
Proof.
  unfold subscript. destruct o; [now apply only_index | now apply only_err].
Qed.

Lemma only_delta_grid_block (s : Inversion)
      (acc : list Vector * list Vector * F) (block : nat) :
  only P (delta_grid_block s acc block).
Proof.
  destruct acc as [[da db] l]. unfold delta_grid_block.
  apply only_bind; [apply only_subscript|]. intros fa _.
  apply only_bind; [now apply only_index|]. intros ma _.
  apply only_bind; [apply only_vbin|]. intros bda _.
  apply only_bind; [apply only_subscript|]. intros fb _.
  apply only_bind; [now apply only_index|]. intros mb _.
  apply only_bind; [apply only_vbin|]. intros bdb _.
  apply only_bind; [now apply only_index|]. intros wa _.
  apply only_bind; [apply only_contract_p_p|]. intros ia _.
  cbv zeta.
  apply only_bind; [now apply only_index|]. intros wb _.
  apply only_bind; [apply only_contract_p_p|]. intros ib _.
  apply only_ok.
Qed.

Lemma only_delta_matrix (s : Inversion) : only P (delta_matrix s).
Proof.
  unfold delta_matrix.
  destruct (frag_da_nm s); [|now apply only_err].
  apply only_bind; [apply only_mbin|]. intros dd_a _.
  destruct (frag_db_nm s); [|now apply only_err].
  apply only_bind; [apply only_mbin|]. intros. apply only_ok.
Qed.

Lemma only_contract_imlj_ml (t : Tensor4) (d : Matrix) :
  only P (contract_imlj_ml t d).
Proof.
  unfold contract_imlj_ml. destruct (_ && _); [apply only_ok | now apply only_err].
Qed.

Lemma only_vp_zpm (s : Inversion) (a b : Matrix) : only P (vp_zpm s a b).
Proof.
  unfold vp_zpm.
  apply only_bind; [apply only_contract_imlj_ml|]. intros ca _. cbv zeta.
  apply only_bind; [apply only_contract_imlj_ml|]. intros. apply only_ok.
Qed.

Lemma only_t4_iadd (x t : Tensor4) : only P (t4_iadd x t).
Proof.
  unfold t4_iadd.
  apply only_bcast; [exact P_broadcast|]. intros.
  apply only_bcast; [exact P_broadcast|]. intros.
  apply only_bcast; [exact P_broadcast|]. intros.
  apply only_bcast; [exact P_broadcast|]. intros. apply only_ok.
Qed.

Lemma only_zc_term (C : Matrix) (eigs : Vector) (i a : nat) (x : Tensor4) :
  only P (zc_term C eigs i a x).
Proof.
  unfold zc_term.
  apply only_bind; [now apply only_index|]. intros Ci _.
  apply only_bind; [now apply only_index|]. intros Ca_ _.
  apply only_bind.
  { unfold contract_mi_na_li_sa.
    destruct (_ && _); [apply only_ok | now apply only_err]. }
  intros c _.
  apply only_bind; [now apply only_index|]. intros ei _.
  apply only_bind; [now apply only_index|]. intros ea _.
  apply only_t4_iadd.
Qed.

Lemma only_zc_response (mol frag : Molecule) : only P (zc_response mol frag).
Proof.
  unfold zc_response. cbv zeta. apply only_foldM. intros x0 i _.
  apply only_foldM. intros x1 a0 _.
  apply only_bind; [apply only_zc_term|]. intros x2 _. apply only_zc_term.
Qed.

Lemma only_zc_loop (mol : Molecule) (fs : list Molecule) : only P (zc_loop mol fs).
Proof.
  unfold zc_loop. apply only_foldM. intros x f _.
  destruct (Nat.eqb _ _); [|apply only_ok].
  apply only_bind; [apply only_zc_response|]. intros. apply only_ok.
Qed.

(** What [vp_zc] does once the local [x] is assigned. *)
Lemma only_zc_solve (x : Tensor4) (dd : Matrix) :
  only P (rbind (contract_mnls_ls (map (map pinv) x) dd) (fun dvp =>
          rbind (symmetrize dvp) (fun dvp => Ok (dvp, dvp)))).
Proof.
  apply only_bind.
  { unfold contract_mnls_ls.
    destruct (_ && _); [apply only_ok | now apply only_err]. }
  intros dvp _.
  apply only_bind; [apply only_symmetrize|]. intros. apply only_ok.
Qed.

Lemma only_orb (o : list (list Vector)) (i block r : nat) : only P (orb o i block r).
Proof.
  unfold orb. destruct (nth_error o i); [|now apply only_err].
  apply only_bind; [now apply only_index|]. intros. now apply only_index.
Qed.

Lemma only_wy_block (s : Inversion) (dd : list Vector) (dvp : Matrix)
      (bg : nat * GridBlock) :
  only P (wy_block s dd dvp bg).
Proof.
  destruct bg as [block g]. unfold wy_block. cbv zeta.
  apply only_bind.
  { unfold wy_kernel. apply only_foldM. intros x f _. cbv zeta.
    apply only_foldM. intros x0 i _. apply only_foldM. intros x1 v _.
    apply only_bind; [now apply only_index|]. intros eo _.
    apply only_bind; [now apply only_index|]. intros ev _.
    apply only_bind; [|intros; apply only_miop].
    apply only_mapM. intros r1. apply only_mapM. intros r2.
    apply only_bind; [apply only_orb|]. intros o1 _.
    apply only_bind; [apply only_orb|]. intros o2 _.
    apply only_bind; [apply only_orb|]. intros o3 _.
    apply only_bind; [apply only_orb|]. intros. apply only_ok. }
  intros x_a _. apply only_bind.
  { unfold wy_dvp_block. apply only_foldM. intros d r1 _. unfold wy_row.
    apply only_bind; [now apply only_index|]. intros row1 _.
    apply only_bind; [now apply only_index|]. intros row2 _.
    apply only_bind; [apply only_vbin|]. intros den _. cbv zeta.
    apply only_bind; [now apply only_index|]. intros ddb _.
    apply only_bind; [apply only_vbin|]. intros t _.
    apply only_bind; [apply only_vbin|]. intros t' _.
    apply only_viop. }
  intros dvp_block _.
  apply only_bind.
  { unfold contract_pb_p_p_pa.
    destruct (_ && _); [apply only_ok | now apply only_err]. }
  intros vtmp _.
  apply only_bind; [apply only_symmetrize|]. intros val _.
  unfold fancy_iadd.
  apply only_bind.
  { apply only_mapM. intros p. apply only_bind; [now apply only_index|].
    intros row _. apply only_mapM. intros q. now apply only_index. }
  intros G _. apply only_bind; [apply only_miop|]. intros. apply only_ok.
Qed.

End OnlyMethods.

Section StrategyExceptions.
Context {R : Scalar} {E : Collaborators}.

Lemma zc_loop_assigns (mol : Molecule) :
  nalpha mol = nbeta mol ->
  forall (fs : list Molecule) (x0 x : option Tensor4),
    foldM (fun (x : option Tensor4) frag =>
             if Nat.eqb (nalpha mol) (nbeta mol)
             then rbind (zc_response mol frag) (fun x' => Ok (Some x'))
             else Ok x)
          x0 fs = Ok x ->
    fs <> [] \/ x0 <> None -> x <> None.
Proof.
  intros Heq. apply Nat.eqb_eq in Heq. rewrite Heq.
  induction fs as [|f fs IH]; intros x0 x H Hne.
  - simpl in H. inversion H; subst.
    destruct Hne as [Hne|Hne]; [now elim Hne | exact Hne].
  - cbn [foldM] in H. apply rbind_ok in H. destruct H as (x1 & H1 & H).
    apply rbind_ok in H1. destruct H1 as (x' & _ & H1). inversion H1; subst x1.
    apply (IH _ _ H). right. discriminate.
Qed.

(** X12: what each update strategy may raise, the collaborators (psi4's
    accessors and [np.linalg.pinv]) apart.  [vp_dd] never raises; [vp_zpm]
    raises only the size error of its contraction; [vp_zc] raises only
    errors of shapes and indices, or [UnboundLocalError] for its local [x];
    [vp_wy_r] raises only errors of shapes, indices and keys, or the
    exception of its own check of the number of blocks. *)
Theorem strategy_exceptions :
  forall (s : Inversion) (dd_a_mn dd_b_mn : Matrix) (dd_a dd_b : list Vector)
         (rcond : F),
    vp_dd s dd_a_mn dd_b_mn = Ok (dd_a_mn, dd_b_mn) /\
    only (fun e => e = ContractError) (vp_zpm s dd_a_mn dd_b_mn) /\
    only zc_exn (vp_zc s dd_a_mn dd_b_mn rcond) /\
    only wy_exn (vp_wy_r s dd_a dd_b).
Proof.
  intros s a b da db rc. split; [reflexivity|]. split; [|split].
  - now apply only_vp_zpm.
  - unfold vp_zc.
    apply only_bind; [apply only_mbin; unfold zc_exn; auto|]. intros dd _.
    apply only_bind; [apply only_zc_loop; unfold zc_exn; auto|].
    intros [x|] _; [|apply only_err; unfold zc_exn; auto].
    cbv zeta. apply only_zc_solve; unfold zc_exn; auto.
  - unfold vp_wy_r. cbv zeta.
    destruct (nblocks s); [|apply only_err; unfold wy_exn; auto].
    destruct (negb _); [apply only_err; unfold wy_exn; auto|].
    apply only_bind; [|intros; apply only_ok].
    apply only_foldM. intros dvp bg _.
    apply only_wy_block; unfold wy_exn; eauto 6.
Qed.

(** X16: given that the two residuals can be added, [vp_zc] raises
    [UnboundLocalError] for its local [x] exactly when the engine has no
    fragment or the alpha and beta occupations of the reference differ:
    these are the two ways in which the loop over the fragments never
    assigns [x]. *)
Theorem vp_zc_unassigned_response :
  forall (s : Inversion) (da_mn db_mn dd : Matrix) (rcond : F),
    mbin fadd da_mn db_mn = Ok dd ->
    (vp_zc s da_mn db_mn rcond = Err (UnboundLocalError "x") <->
     frags s = [] \/ nalpha (molecule s) <> nbeta (molecule s)).
Proof.
  intros s da db dd rc Hdd. unfold vp_zc. rewrite Hdd. cbn [rbind].
  set (P := fun e => builtin e /\ e <> UnboundLocalError "x").
  assert (Pb : P BroadcastError) by (split; [exact I | discriminate]).
  assert (Pc : P ContractError) by (split; [exact I | discriminate]).
  assert (Pi : P IndexError) by (split; [exact I | discriminate]).
  split.
  - intros H.
    destruct (frags s) as [|f fs] eqn:Hfs; [now left|]. right. intros Heq.
    destruct (zc_loop (molecule s) (f :: fs)) as [[x|]|e] eqn:Hl; cbn [rbind] in H.
    + exact (proj2 (only_zc_solve P Pb Pc x dd _ H) eq_refl).
    + unfold zc_loop in Hl.
      apply (zc_loop_assigns (molecule s) Heq) in Hl; [now elim Hl|].
      left. discriminate.
    + inversion H; subst e.
      exact (proj2 (only_zc_loop P Pi Pb Pc _ _ _ Hl) eq_refl).
  - intros [Hfs|Hne].
    + rewrite Hfs. reflexivity.
    + rewrite (zc_loop_unequal _ (frags s) Hne). reflexivity.
Qed.

End StrategyExceptions.

Section BuiltinFacts.
Context {R : Scalar} {E : Collaborators}.

Lemma builtin_sum_densities_r (nb : nat) (mol : Molecule) (fs : list Molecule)
      (e : exn) :
  sum_densities_r nb mol fs = Err e -> builtin e.
Proof. apply (only_sum_densities_r builtin); exact I. Qed.

Lemma builtin_sum_densities_nm (n : nat) (fs : list Molecule) (e : exn) :
  sum_densities_nm n fs = Err e -> builtin e.
Proof. apply (only_sum_densities_nm builtin); exact I. Qed.

Lemma builtin_delta_grid (s : Inversion) (acc : list Vector * list Vector * F)
      (bs : list nat) (e : exn) :
  foldM (delta_grid_block s) acc bs = Err e -> builtin e.
Proof.
  apply only_foldM. intros a b _.
  apply (only_delta_grid_block builtin); exact I.
Qed.

Lemma builtin_delta_matrix (s : Inversion) (e : exn) :
  delta_matrix s = Err e -> builtin e.
Proof. apply (only_delta_matrix builtin); exact I. Qed.

Lemma builtin_axpy (c : F) (X self : Matrix) (e : exn) :
  axpy c X self = Err e -> builtin e.
Proof. apply (only_axpy builtin); exact I. Qed.

(** With the number of blocks of the engine equal to that of the grid, the
    check of [vp_wy_r] passes, and no strategy raises an exception of the
    file's own. *)
Lemma builtin_dispatch (method : string) (s : Inversion)
      (dd_a dd_b : list Vector) (dd_a_mn dd_b_mn : Matrix) (e : exn) :
  blocks_agree s ->
  dispatch method s dd_a dd_b dd_a_mn dd_b_mn = Err e -> builtin e.
Proof.
  intros Hs. revert e. change (only builtin (dispatch method s dd_a dd_b dd_a_mn dd_b_mn)).
  unfold dispatch.
  destruct (String.eqb method "zpm"); [apply only_vp_zpm; exact I|].
  destruct (String.eqb method "dd"); [apply only_ok|].
  destruct (String.eqb method "zc").
  { unfold vp_zc.
    apply only_bind; [apply only_mbin; exact I|]. intros dd _.
    apply only_bind; [apply only_zc_loop; exact I|].
    intros [x|] _; [|apply only_err; exact I].
    cbv zeta. apply only_zc_solve; exact I. }
  destruct (String.eqb method "wy_r"); [|apply only_err; exact I].
  unfold vp_wy_r. cbv zeta. unfold blocks_agree in Hs. rewrite Hs.
  rewrite Nat.eqb_refl. cbn [negb].
  apply only_bind; [|intros; apply only_ok].
  apply only_foldM. intros dvp bg _. apply only_wy_block; try exact I.
  intros k. exact I.
Qed.

Lemma cycle_builtin (method : string) (beta : F) (print_scf plot_scf : bool)
      (step : Z) (l : Locals) (w : World) :
  blocks_agree (obj w) ->
  match raised (cycle method beta print_scf plot_scf step l w) with
  | Some e => builtin e
  | None => True
  end.
Proof.
  destruct w as [s lg]. cbn [obj]. intros Hs.
  run_cycle;
    first [ exact I
          | eapply builtin_sum_densities_r; eassumption
          | eapply builtin_sum_densities_nm; eassumption
          | eapply builtin_delta_grid; eassumption
          | eapply builtin_delta_matrix; eassumption
          | eapply builtin_axpy; eassumption
          | eapply builtin_dispatch; [|eassumption]; exact Hs ].
Qed.

Lemma vp_loop_no_blocks (method : string) (beta : F) (print_scf plot_scf : bool)
      (maxiter : Z) (steps : list Z) :
  forall (l : Locals) (w : World),
    blocks_agree (obj w) ->
    raised (vp_loop method beta print_scf plot_scf maxiter steps l w)
    <> Some BlocksInconsistent.
Proof.
  induction steps as [|st steps IH]; intros l w Hs.
  - discriminate.
  - cbn [vp_loop]. unfold bind.
    pose proof (cycle_builtin method beta print_scf plot_scf st l w Hs) as Hb.
    pose proof (cycle_frame method beta print_scf plot_scf st l w) as Hf.
    destruct (cycle method beta print_scf plot_scf st l w) as [l' w'|e w'];
      cbn [raised final] in Hb, Hf |- *.
    + destruct (Z.eqb st maxiter); [discriminate|].
      apply IH. destruct Hf as (Hm & _ & _ & Hn & _).
      unfold blocks_agree in *. now rewrite Hn, Hm.
    + intros Heq. inversion Heq; subst e. exact Hb.
Qed.

End BuiltinFacts.

(** ** What the constructor leaves *)

(** Running the constructor in a hypothesis [H] that says it completes. *)
Ltac run_init H :=
  unfold Inversion_init in H;
  cbv [assert_grid_elements get_frag_energies get_frag_densities_nm
       get_frag_densities_r bind get_self attr lift update ret raise
       obj log blank] in H;
  repeat match type of H with
         | context [match ?x with _ => _ end] =>
             lazymatch x with
             | context [match _ with _ => _ end] => fail
             | _ => destruct x eqn:?; cbv beta iota in H
             end
         end;
  try discriminate H.

Section InitFacts.
Context {R : Scalar} {E : Collaborators}.

Lemma ewise_length {A B C} (e : exn) (f : A -> B -> result C)
      (xs : list A) (ys : list B) (zs : list C) :
  ewise e f xs ys = Ok zs -> length zs = length xs.
Proof.
  revert ys zs. induction xs as [|x xs IH]; intros [|y ys] zs H; simpl in H;
    try discriminate.
  - now inversion H.
  - apply rbind_ok in H. destruct H as (c & _ & H).
    apply rbind_ok in H. destruct H as (cs & Hcs & H).
    inversion H; subst. simpl. f_equal. eapply IH. exact Hcs.
Qed.

Lemma ewise_Forall {A B C} (e : exn) (f : A -> B -> result C) (Q : A -> Prop)
      (Q' : C -> Prop) :
  (forall a b c, Q a -> f a b = Ok c -> Q' c) ->
  forall (xs : list A) (ys : list B) (zs : list C),
    ewise e f xs ys = Ok zs -> Forall Q xs -> Forall Q' zs.
Proof.
  intros Hf. induction xs as [|x xs IH]; intros [|y ys] zs H HQ; simpl in H;
    try discriminate.
  - inversion H. constructor.
  - apply rbind_ok in H. destruct H as (c & Hc & H).
    apply rbind_ok in H. destruct H as (cs & Hcs & H).
    inversion H; subst. apply Forall_cons_iff in HQ. destruct HQ as [Hx Hxs].
    constructor; [eapply Hf; eassumption | eapply IH; eassumption].
Qed.

(** [axpy] keeps the shape of the matrix it updates. *)
Lemma axpy_shape (c : F) (X self r : Matrix) (n m : nat) :
  axpy c X self = Ok r -> has_shape n m self -> has_shape n m r.
Proof.
  unfold axpy. intros H [Hl Hr]. split.
  - rewrite <- Hl. exact (ewise_length _ _ _ _ _ H).
  - refine (ewise_Forall _ _ (has_len m) (has_len m) _ _ _ _ H Hr).
    intros a b c' Ha Hab. unfold has_len in *.
    rewrite <- Ha. exact (ewise_length _ _ _ _ _ Hab).
Qed.

Lemma sum_densities_nm_shape (n : nat) (fs : list Molecule) (a b : Matrix) :
  sum_densities_nm n fs = Ok (a, b) -> has_shape n n a /\ has_shape n n b.
Proof.
  unfold sum_densities_nm. intros H.
  refine (foldM_invariant
            (fun p : Matrix * Matrix => has_shape n n (fst p) /\ has_shape n n (snd p))
            nm_step _ fs _ (a, b) _ H).
  - intros [a0 b0] f [a1 b1] [Ha Hb] Hs. unfold nm_step in Hs.
    apply rbind_ok in Hs. destruct Hs as (a' & Ha' & Hs).
    apply rbind_ok in Hs. destruct Hs as (b' & Hb' & Hs).
    inversion Hs; subst. cbn [fst snd] in *.
    split; eapply axpy_shape; eassumption.
  - cbn [fst snd]. split; apply zeros2_shape.
Qed.

(** An in-place operation keeps the length of the array it updates. *)
Lemma viop_length (op : F -> F -> F) (a b r : Vector) :
  viop op a b = Ok r -> length r = length a.
Proof.
  unfold viop. intros H.
  now destruct (bcast_inv _ f0 f0 _ _ _ H) as [Hl _].
Qed.

Lemma block_sums_shape (mol : Molecule) (fs : list Molecule) (block : nat)
      (a b : Vector) :
  block_sums mol fs block = Ok (a, b) ->
  block < length (density_da mol) /\ block < length (density_db mol) /\
  length a = length (nth block (density_da mol) []) /\
  length b = length (nth block (density_db mol) []).
Proof.
  unfold block_sums. intros H.
  apply rbind_ok in H. destruct H as (mda & Hda & H).
  apply rbind_ok in H. destruct H as (mdb & Hdb & H).
  destruct (index_inv _ _ _ Hda) as [Ha Ea].
  destruct (index_inv _ _ _ Hdb) as [Hb Eb].
  split; [exact Ha|]. split; [exact Hb|].
  rewrite (Ea []), (Eb []).
  refine (foldM_invariant
            (fun p : Vector * Vector =>
               length (fst p) = length mda /\ length (snd p) = length mdb)
            (block_step block) _ fs _ (a, b) _ H).
  - intros [a0 b0] f [a1 b1] [Hla Hlb] Hs. unfold block_step in Hs.
    apply rbind_ok in Hs. destruct Hs as (fda & _ & Hs).
    apply rbind_ok in Hs. destruct Hs as (a' & Ha' & Hs).
    apply rbind_ok in Hs. destruct Hs as (fdb & _ & Hs).
    apply rbind_ok in Hs. destruct Hs as (b' & Hb' & Hs).
    inversion Hs; subst. cbn [fst snd] in *.
    rewrite (viop_length _ _ _ _ Ha'), (viop_length _ _ _ _ Hb'). now split.
  - cbn [fst snd]. unfold zeros_like. now rewrite !length_map.
Qed.

Lemma r_fold_shape (mol : Molecule) (fs : list Molecule) :
  forall (n k : nat) (acc_a acc_b ra rb : list Vector),
    foldM (r_step mol fs) (acc_a, acc_b) (seq k n) = Ok (ra, rb) ->
    exists ta tb,
      ra = acc_a ++ ta /\ rb = acc_b ++ tb /\ length ta = n /\ length tb = n /\
      forall i, i < n ->
        k + i < length (density_da mol) /\ k + i < length (density_db mol) /\
        length (nth i ta []) = length (nth (k + i) (density_da mol) []) /\
        length (nth i tb []) = length (nth (k + i) (density_db mol) []).
Proof.
  induction n as [|n IH]; intros k acc_a acc_b ra rb H.
  - simpl in H. inversion H; subst. exists [], []. rewrite !app_nil_r.
    repeat split; try reflexivity; lia.
  - cbn [seq foldM] in H. apply rbind_ok in H. destruct H as ([a1 b1] & H1 & H).
    unfold r_step in H1. apply rbind_ok in H1. destruct H1 as ([a b] & Hb & H1).
    inversion H1; subst a1 b1. clear H1.
    destruct (block_sums_shape _ _ _ _ _ Hb) as (B1 & B2 & B3 & B4).
    destruct (IH _ _ _ _ _ H) as (ta & tb & -> & -> & La & Lb & Hi).
    exists (a :: ta), (b :: tb). rewrite <- !app_assoc. cbn [app length].
    split; [reflexivity|]. split; [reflexivity|].
    split; [now rewrite La|]. split; [now rewrite Lb|].
    intros [|i] Hlt.
    + rewrite Nat.add_0_r. cbn [nth]. auto.
    + cbn [nth]. replace (k + S i) with (S k + i) by lia. apply Hi. lia.
Qed.

Lemma sum_densities_r_shape (nb : nat) (mol : Molecule) (fs : list Molecule)
      (ra rb : list Vector) :
  sum_densities_r nb mol fs = Ok (ra, rb) ->
  length ra = nb /\ length rb = nb /\
  blocks_like nb (density_da mol) ra /\ blocks_like nb (density_db mol) rb /\
  nb <= length (density_da mol) /\ nb <= length (density_db mol).
Proof.
  unfold sum_densities_r. intros H.
  destruct (r_fold_shape mol fs nb 0 [] [] ra rb H)
    as (ta & tb & -> & -> & La & Lb & Hi).
  cbn [app]. split; [exact La|]. split; [exact Lb|]. unfold blocks_like.
  split; [|split; [|split]].
  - split; [lia|]. intros b Hb. now destruct (Hi b Hb) as (_ & _ & ? & _).
  - split; [lia|]. intros b Hb. now destruct (Hi b Hb) as (_ & _ & _ & ?).
  - destruct nb as [|nb]; [lia|]. destruct (Hi nb) as (? & _); lia.
  - destruct nb as [|nb]; [lia|]. destruct (Hi nb) as (_ & ? & _); lia.
Qed.

Lemma init_blocks_agree (fs : list Molecule) (mol : Molecule) (w : World) :
  Inversion_init fs mol = Done tt w -> blocks_agree (obj w).
Proof.
  intros H. run_init H. inversion H; subst w. clear H. reflexivity.
Qed.

End InitFacts.

Section InitTheorems.
Context {R : Scalar} {E : Collaborators}.

(** X6: what a construction that completes has done.  The engine holds the
    fragments and the reference it was given, the number of blocks of the
    grid of the reference, the sum of the fragment energies, aggregate
    density matrices of the basis size and aggregate grid densities with
    the blocks of the reference; the potential, the partition energy,
    [frag_e] and [frag_orbitals_r] are [None] (the energies are stored as
    [frag_energy]), and no fragment has been re-solved. *)
Theorem init_postcondition :
  forall (fs : list Molecule) (mol : Molecule) (w : World),
    Inversion_init fs mol = Done tt w ->
    log w = [] /\
    frags (obj w) = fs /\ molecule (obj w) = mol /\
    nfrag (obj w) = length fs /\ self_nbf (obj w) = nbf mol /\
    nblocks (obj w) = Some (length (blocks (Vpot mol))) /\
    frag_energy (obj w)
    = Some (fold_left (fun acc frag => fadd acc (energy frag)) fs f0) /\
    (exists a b,
       frag_da_nm (obj w) = Some a /\ frag_db_nm (obj w) = Some b /\
       has_shape (nbf mol) (nbf mol) a /\ has_shape (nbf mol) (nbf mol) b) /\
    (exists ra rb,
       frag_da_r (obj w) = Some ra /\ frag_db_r (obj w) = Some rb /\
       length ra = length (blocks (Vpot mol)) /\
       length rb = length (blocks (Vpot mol)) /\
       blocks_like (length (blocks (Vpot mol))) (density_da mol) ra /\
       blocks_like (length (blocks (Vpot mol))) (density_db mol) rb) /\
    vp (obj w) = None /\ ep (obj w) = None /\ frag_e (obj w) = None /\
    frag_orbitals_r (obj w) = None.
Proof.
  intros fs mol w H. run_init H. inversion H; subst w. clear H.
  cbn [obj log frags molecule nfrag self_nbf nblocks frag_energy frag_da_nm
       frag_db_nm frag_da_r frag_db_r vp ep frag_e frag_orbitals_r
       set_nblocks set_frag_energy set_frag_nm set_frag_r set_vp set_ep] in *.
  match goal with
  | Hn : Some _ = Some ?n |- _ => inversion Hn; subst n; clear Hn
  end.
  match goal with
  | Hnm : sum_densities_nm _ _ = Ok _ |- _ =>
      apply sum_densities_nm_shape in Hnm; destruct Hnm as [Sa Sb]
  end.
  match goal with
  | Hr : sum_densities_r _ _ _ = Ok _ |- _ =>
      apply sum_densities_r_shape in Hr;
      destruct Hr as (La & Lb & Ba & Bb & _ & _)
  end.
  repeat (split; [reflexivity|]).
  split; [eauto 10|]. split; [eauto 10|].
  repeat (split; [reflexivity|]). reflexivity.
Qed.

(** X13: the check of [vp_wy_r] that the number of blocks of the engine is
    the number of blocks of the grid of the reference never fails on an
    engine that the constructor has built: whatever the strategy and the
    other arguments, [vp_handler] does not raise "Number of blocks is
    inconsistent". *)
Theorem blocks_check_never_fails :
  forall (fs : list Molecule) (mol : Molecule) (w : World)
         (method : string) (beta : F) (maxiter : Z) (atol : F)
         (guess : option string) (print_scf plot_scf : bool),
    Inversion_init fs mol = Done tt w ->
    raised (vp_handler method beta maxiter atol guess print_scf plot_scf w)
    <> Some BlocksInconsistent.
Proof.
  intros fs mol w method beta maxiter atol guess p q Hinit.
  assert (Hs : blocks_agree (obj w)) by exact (init_blocks_agree fs mol w Hinit).
  unfold vp_handler. cbv [bind get_self].
  destruct guess as [g|]; [|now apply vp_loop_no_blocks].
  destruct (String.eqb g "hartree"); [discriminate|].
  destruct (String.eqb g "xc"); [discriminate|].
  destruct (String.eqb g "hxc"); [discriminate|].
  now apply vp_loop_no_blocks.
Qed.

Lemma sum_densities_nm_ok (n : nat) (fs : list Molecule) :
  Forall (fun f => has_shape n n (Da f) /\ has_shape n n (Db f)) fs ->
  exists p, sum_densities_nm n fs = Ok p.
Proof.
  unfold sum_densities_nm. intros Hfs.
  assert (Hgen : forall a b : Matrix,
             has_shape n n a -> has_shape n n b ->
             exists p, foldM nm_step (a, b) fs = Ok p).
  { induction Hfs as [|f fs [Ha Hb] _ IH]; intros a b Sa Sb.
    - simpl. eauto.
    - cbn [foldM]. unfold nm_step at 1.
      rewrite (axpy_tab f1 (Da f) a n n Sa Ha). cbn [rbind].
      rewrite (axpy_tab f1 (Db f) b n n Sb Hb). cbn [rbind].
      apply IH; apply tab_has_shape. }
  apply Hgen; apply zeros2_shape.
Qed.

(** X17: the construction completes, with the values that psi4 reports
    taken as given, whenever the reference and the first fragment carry
    grid densities on grids of one size, every fragment has density
    matrices of the basis size of the reference, and the grid densities of
    the reference and of every fragment cover the blocks of the grid of the
    reference with blocks of equal lengths. *)
Theorem init_completes :
  forall (frag0 : Molecule) (rest : list Molecule) (mol : Molecule),
    density_da mol <> [] ->
    density_da frag0 <> [] ->
    length (pts_x (np_xyzw (Vpot mol))) = length (pts_x (np_xyzw (Vpot frag0))) ->
    Forall (fun f => has_shape (nbf mol) (nbf mol) (Da f) /\
                     has_shape (nbf mol) (nbf mol) (Db f)) (frag0 :: rest) ->
    length (blocks (Vpot mol)) <= length (density_da mol) ->
    length (blocks (Vpot mol)) <= length (density_db mol) ->
    Forall (fun f =>
              blocks_like (length (blocks (Vpot mol))) (density_da mol)
                          (density_da f) /\
              blocks_like (length (blocks (Vpot mol))) (density_db mol)
                          (density_db f)) (frag0 :: rest) ->
    exists w, Inversion_init (frag0 :: rest) mol = Done tt w.
Proof.
  intros frag0 rest mol Hm Hf Hpts Hnm Ha Hb Hr.
  destruct (sum_densities_nm_ok _ _ Hnm) as ([sa sb] & Hsum).
  unfold Inversion_init.
  cbv [assert_grid_elements get_frag_energies get_frag_densities_nm
       get_frag_densities_r bind get_self attr lift update ret raise
       obj log blank index nth_error frags molecule self_nbf nblocks
       set_nblocks set_frag_energy set_frag_nm].
  destruct (density_da mol) as [|? ?] eqn:Em; [contradiction|].
  destruct (density_da frag0) as [|? ?] eqn:Ef; [contradiction|].
  cbn [length Nat.eqb]. rewrite Hpts, Nat.eqb_refl. cbn [negb].
  rewrite Hsum.
  rewrite <- Em in Ha, Hr.
  rewrite (sum_densities_r_spec _ mol (frag0 :: rest) Ha Hb Hr).
  eauto.
Qed.

End InitTheorems.

Lemma foldM_ext_in {A B} (step step' : A -> B -> result A) (xs : list B) :
  (forall a b, In b xs -> step a b = step' a b) ->
  forall a, foldM step a xs = foldM step' a xs.
Proof.
  induction xs as [|x xs IH]; intros H a; simpl; [reflexivity|].
  rewrite (H a x) by now left.
  destruct (step' a x); simpl; [|reflexivity].
  apply IH. intros a1 b Hb. apply H. now right.
Qed.

Section BetaResidual.
Context {R : Scalar} {E : Collaborators}.

Lemma index_app_l {A} (xs ys : list A) (i : nat) :
  i < length xs -> index (xs ++ ys) i = index xs i.
Proof. intros H. unfold index. now rewrite nth_error_app1. Qed.

Lemma wy_block_app (s : Inversion) (dd_a dd_b : list Vector) (dvp : Matrix)
      (block : nat) (g : GridBlock) :
  block < length dd_a ->
  wy_block s (dd_a ++ dd_b) dvp (block, g) = wy_block s dd_a dvp (block, g).
Proof.
  intros Hb. unfold wy_block. cbv zeta.
  destruct (wy_kernel (frags s) block (block_npoints g)) as [x_a|e];
    cbn [rbind]; [|reflexivity].
  assert (Hrow : wy_dvp_block x_a x_a (dd_a ++ dd_b) block (block_npoints g)
                              (block_w g)
                 = wy_dvp_block x_a x_a dd_a block (block_npoints g) (block_w g)).
  { unfold wy_dvp_block. apply foldM_ext. intros acc r1. unfold wy_row.
    now rewrite (index_app_l dd_a dd_b block Hb). }
  now rewrite Hrow.
Qed.

(** X14: [vp_wy_r] joins the two residuals into one list, alpha blocks
    first, and reads the entry [block] of it for every block of the grid:
    when the alpha residual has a block for every block of the grid, the
    beta residual is never read, and the result is the same for any other
    beta residual. *)
Theorem vp_wy_r_ignores_beta_residual :
  forall (s : Inversion) (dd_a dd_b dd_b' : list Vector),
    length (blocks (Vpot (molecule s))) <= length dd_a ->
    vp_wy_r s dd_a dd_b = vp_wy_r s dd_a dd_b'.
Proof.
  intros s dd_a dd_b dd_b' Hlen. unfold vp_wy_r. cbv zeta.
  destruct (nblocks s) as [nb|]; [|reflexivity].
  destruct (negb _); [reflexivity|].
  assert (Hfold : forall dd_x dvp,
            foldM (wy_block s (dd_a ++ dd_x)) dvp
                  (combine (seq 0 (length (blocks (Vpot (molecule s)))))
                           (blocks (Vpot (molecule s))))
            = foldM (wy_block s dd_a) dvp
                    (combine (seq 0 (length (blocks (Vpot (molecule s)))))
                             (blocks (Vpot (molecule s))))).
  { intros dd_x dvp. apply foldM_ext_in. intros a [block g] Hin.
    apply wy_block_app. apply in_combine_l in Hin. apply in_seq in Hin. lia. }
  now rewrite !Hfold.
Qed.

End BetaResidual.

(** X14 at the sample engine: the beta residual replaced by no residual
    at all. *)
Lemma vp_wy_r_ignores_beta_residual_witness :
  vp_wy_r (obj Sample.engine_nm) (fst Sample.residual_r) (snd Sample.residual_r)
  = vp_wy_r (obj Sample.engine_nm) (fst Sample.residual_r) [].
Proof.
  apply (@vp_wy_r_ignores_beta_residual Qc_scalar).
  apply Nat.leb_le. vm_compute. reflexivity.
Defined.

Section EnergyOrder.
Context {R : Scalar} {E : Collaborators}.

Lemma fold_left_perm {A B} (f : A -> B -> A) :
  (forall a x y, f (f a x) y = f (f a y) x) ->
  forall xs ys, Permutation xs ys -> forall a, fold_left f xs a = fold_left f ys a.
Proof.
  intros Hf xs ys Hp. induction Hp; intros a; simpl.
  - reflexivity.
  - apply IHHp.
  - now rewrite Hf.
  - now rewrite IHHp1.
Qed.

(** X15: in exact arithmetic the sum of the fragment energies and the
    partition energy do not depend on the order of the fragments. *)
Theorem energies_do_not_depend_on_fragment_order :
  forall (w : World) (fs : list Molecule),
    (forall a x y : F, fadd (fadd a x) y = fadd (fadd a y) x) ->
    (forall a x y : F, fsub (fsub a x) y = fsub (fsub a y) x) ->
    Permutation (frags (obj w)) fs ->
    frag_energy (obj (final (get_frag_energies (with_frags fs w))))
    = frag_energy (obj (final (get_frag_energies w))) /\
    ep (obj (final (get_ep (with_frags fs w))))
    = ep (obj (final (get_ep w))).
Proof.
  intros w fs Hadd Hsub Hp. split.
  - cbv [get_frag_energies bind get_self update final with_frags].
    cbn [obj frag_energy set_frag_energy frags set_frags]. f_equal.
    symmetry. apply (fold_left_perm _ (fun a x y => Hadd a (energy x) (energy y)) _ _ Hp).
  - cbv [get_ep bind get_self update final with_frags].
    cbn [obj ep set_ep frags set_frags molecule]. f_equal.
    symmetry.
    apply (fold_left_perm _
             (fun a x y => Hsub a (fsub (energy x) (Enuc x)) (fsub (energy y) (Enuc y)))
             _ _ Hp).
Qed.

End EnergyOrder.

Section Potential.
Context {R : Scalar} {E : Collaborators}.

(** The log of a body: the re-solves with the potentials it was given, then
    at most a printed line and a figure. *)
Lemma cycle_log (method : string) (beta : F) (print_scf plot_scf : bool)
      (step : Z) (l : Locals) (w : World) :
  exists newer,
    log (final (cycle method beta print_scf plot_scf step l w))
    = newer ++ solved_with (length (frags (obj w))) (vp_a l) (vp_b l) ++ log w.
Proof.
  destruct w as [s lg]. unfold solved_with. cbn [obj log].
  run_cycle;
    first [ exists []; reflexivity
          | eexists [_]; reflexivity
          | eexists [_; _]; reflexivity ].
Qed.

Lemma vp_loop_log_grows (method : string) (beta : F) (print_scf plot_scf : bool)
      (maxiter : Z) (steps : list Z) :
  forall (l : Locals) (w : World),
    exists newer,
      log (final (vp_loop method beta print_scf plot_scf maxiter steps l w))
      = newer ++ log w.
Proof.
  induction steps as [|st steps IH]; intros l w.
  - exists []. reflexivity.
  - cbn [vp_loop]. unfold bind.
    destruct (cycle_log method beta print_scf plot_scf st l w) as [n1 H1].
    destruct (cycle method beta print_scf plot_scf st l w) as [l' w'|e w'];
      cbn [final] in H1 |- *.
    + destruct (Z.eqb st maxiter); cbn [raise final].
      * exists (n1 ++ solved_with (length (frags (obj w))) (vp_a l) (vp_b l)).
        now rewrite <- app_assoc.
      * destruct (IH l' w') as [n2 H2]. rewrite H2, H1.
        exists (n2 ++ n1 ++ solved_with (length (frags (obj w))) (vp_a l) (vp_b l)).
        now rewrite <- !app_assoc.
    + exists (n1 ++ solved_with (length (frags (obj w))) (vp_a l) (vp_b l)).
      now rewrite <- app_assoc.
Qed.

(** X18: a run of [vp_handler] (no guess, bound at least zero) starts from
    the zero potential, whatever potential an earlier run has stored in
    the engine: the first thing it does is to re-solve every fragment with
    two zero matrices of the basis size. *)
Theorem vp_handler_starts_from_zero_potential :
  forall (method : string) (beta : F) (maxiter : Z) (atol : F)
         (print_scf plot_scf : bool) (w : World),
    (0 <= maxiter)%Z ->
    exists newer,
      log (final (vp_handler method beta maxiter atol None print_scf plot_scf w))
      = newer
        ++ solved_with (length (frags (obj w)))
                       (zeros2 (self_nbf (obj w)) (self_nbf (obj w)))
                       (zeros2 (self_nbf (obj w)) (self_nbf (obj w)))
        ++ log w.
Proof.
  intros method beta maxiter atol p q w Hmax.
  assert (Hsteps : exists st rest, range (maxiter + 1) = st :: rest).
  { rewrite (range_succ maxiter Hmax).
    destruct (range maxiter) as [|st rest]; cbn [app]; eauto. }
  destruct Hsteps as (st & rest & Hsteps).
  unfold vp_handler. cbv [bind get_self]. rewrite Hsteps.
  cbn [vp_loop]. unfold bind.
  destruct (cycle_log method beta p q st (initial_locals (obj w)) w) as [n1 H1].
  cbn [initial_locals vp_a vp_b] in H1.
  destruct (cycle method beta p q st (initial_locals (obj w)) w) as [l' w'|e w'];
    cbn [final] in H1 |- *.
  - destruct (Z.eqb st maxiter); cbn [raise final]; [eauto|].
    destruct (vp_loop_log_grows method beta p q maxiter rest l' w') as [n2 H2].
    rewrite H2, H1. exists (n2 ++ n1). now rewrite <- app_assoc.
  - eauto.
Qed.

(** *** The shape of the potential *)

Lemma cycle_shapes (method : string) (beta : F) (print_scf plot_scf : bool)
      (step : Z) (l : Locals) (w : World) (n : nat) :
  has_shape n n (vp_a l) -> has_shape n n (vp_b l) ->
  match cycle method beta print_scf plot_scf step l w with
  | Done l' _ => has_shape n n (vp_a l') /\ has_shape n n (vp_b l')
  | Raise _ _ => True
  end.
Proof.
  intros Ha Hb. destruct w as [s lg].
  run_cycle; try exact I;
    cbn [vp_a vp_b]; split; eapply axpy_shape; eassumption.
Qed.

Lemma cycles_shapes (method : string) (beta : F) (print_scf plot_scf : bool)
      (n : nat) (steps : list Z) :
  forall (l l' : Locals) (w w' : World),
    has_shape n n (vp_a l) -> has_shape n n (vp_b l) ->
    cycles method beta print_scf plot_scf steps l w = Done l' w' ->
    has_shape n n (vp_a l') /\ has_shape n n (vp_b l').
Proof.
  induction steps as [|st steps IH]; intros l l' w w' Ha Hb H.
  - cbn [cycles] in H. inversion H; subst. now split.
  - cbn [cycles] in H. apply bind_done in H. destruct H as (l1 & w1 & H1 & H).
    pose proof (cycle_shapes method beta print_scf plot_scf st l w n Ha Hb) as Hs.
    rewrite H1 in Hs. destruct Hs as [Ha1 Hb1].
    exact (IH _ _ _ _ Ha1 Hb1 H).
Qed.

(** X19: when [vp_handler] ends with the exception of the bound, the
    potential it has stored in the engine is a pair of square matrices of
    the basis size: the potential starts as two zero matrices of that size
    and every update keeps the shape, or fails. *)
Theorem stored_potential_has_basis_shape :
  forall (method : string) (beta : F) (maxiter : Z) (atol : F)
         (print_scf plot_scf : bool) (w w' : World),
    (0 <= maxiter)%Z ->
    vp_handler method beta maxiter atol None print_scf plot_scf w
    = Raise MaxIterationsExceeded w' ->
    exists va vb,
      vp (obj w') = Some (va, vb) /\
      has_shape (self_nbf (obj w)) (self_nbf (obj w)) va /\
      has_shape (self_nbf (obj w)) (self_nbf (obj w)) vb.
Proof.
  intros method beta maxiter atol p q w w' Hmax H.
  unfold vp_handler in H. cbv [bind get_self] in H.
  rewrite (range_succ maxiter Hmax) in H.
  rewrite (vp_loop_cycles method beta p q maxiter (range maxiter)
             (range_below maxiter)) in H.
  destruct (cycles method beta p q (range maxiter ++ [maxiter])
                   (initial_locals (obj w)) w) as [l' w1|e w1] eqn:Hc.
  - inversion H; subst w1.
    destruct (cycles_done _ _ _ _ _ _ _ _ _ Hc) as (_ & _ & Hvp & _).
    destruct (cycles_shapes method beta p q (self_nbf (obj w)) _
                (initial_locals (obj w)) l' w w'
                (zeros2_shape _ _) (zeros2_shape _ _) Hc) as [Sa Sb].
    exists (vp_a l'), (vp_b l'). split; [|now split].
    apply Hvp. intros Hnil. apply app_eq_nil in Hnil.
    destruct Hnil as [_ Hnil]. discriminate Hnil.
  - inversion H; subst e w1. exfalso.
    exact (msafe_cycles _ _ _ _ _ _ _ _ Hc).
Qed.

End Potential.

Lemma raised_final {R : Scalar} {A} (o : outcome A) (e : exn) :
  raised o = Some e -> o = Raise e (final o).
Proof. destruct o as [a w|e' w]; [discriminate|]. intros H. now inversion H. Qed.

Lemma sample_init :
  Inversion_init [Sample.fragment; Sample.fragment] Sample.reference
  = Done tt Sample.engine.
Proof. reflexivity. Qed.

(** X6 at the sample engine of two fragments. *)
Lemma init_postcondition_witness :
  Inversion_init [Sample.fragment; Sample.fragment] Sample.reference
  = Done tt Sample.engine /\
  nblocks (obj Sample.engine) = Some 1 /\
  vp (obj Sample.engine) = None /\ ep (obj Sample.engine) = None /\
  frag_e (obj Sample.engine) = None.
Proof.
  split; [exact sample_init|].
  destruct (init_postcondition [Sample.fragment; Sample.fragment] Sample.reference Sample.engine
              sample_init)
    as (_ & _ & _ & _ & _ & Hn & _ & _ & _ & Hvp & Hep & He & _).
  split; [exact Hn|]. split; [exact Hvp|]. split; [exact Hep | exact He].
Defined.

(** X13 at the sample engine and the grid-based strategy. *)
Lemma blocks_check_never_fails_witness :
  raised (vp_handler "wy_r" (Q2Qc (1 # 2)) 1 (Q2Qc 0) None false false
                     Sample.engine)
  <> Some BlocksInconsistent.
Proof.
  exact (blocks_check_never_fails [Sample.fragment; Sample.fragment] Sample.reference Sample.engine
           "wy_r" (Q2Qc (1 # 2)) 1%Z (Q2Qc 0) None false false sample_init).
Defined.

(** X16 at the sample engine on the reference with one alpha and no beta
    electron, and two empty residuals. *)
Lemma vp_zc_unassigned_response_witness :
  let s := obj (Sample.engine_of [Sample.fragment; Sample.fragment]
                                 Sample.open_reference) in
  @mbin Qc_scalar fadd [] [] = Ok [] /\
  (vp_zc s [] [] (Q2Qc 0) = Err (UnboundLocalError "x") <->
   frags s = [] \/ nalpha (molecule s) <> nbeta (molecule s)).
Proof.
  intros s. split; [reflexivity|].
  apply (vp_zc_unassigned_response s [] [] []).
  reflexivity.
Defined.

(** X17 at the sample fragments and reference. *)
Lemma init_completes_witness :
  exists w, Inversion_init [Sample.fragment; Sample.fragment] Sample.reference
            = Done tt w.
Proof.
  apply (init_completes Sample.fragment [Sample.fragment] Sample.reference).
  - discriminate.
  - discriminate.
  - reflexivity.
  - repeat constructor.
  - apply Nat.leb_le. reflexivity.
  - apply Nat.leb_le. reflexivity.
  - repeat (apply Forall_cons || apply Forall_nil); split;
      (split; [apply Nat.leb_le; reflexivity
              | intros [|b] Hb; [reflexivity | simpl in Hb; lia]]).
Defined.

(** X15 at the sample engine with a fragment and the reference as its two
    fragments, in the two orders. *)
Lemma energies_do_not_depend_on_fragment_order_witness :
  let w := with_frags [Sample.fragment; Sample.reference] Sample.engine in
  let fs := [Sample.reference; Sample.fragment] in
  frag_energy (obj (final (get_frag_energies (with_frags fs w))))
  = frag_energy (obj (final (get_frag_energies w))) /\
  ep (obj (final (get_ep (with_frags fs w)))) = ep (obj (final (get_ep w))).
Proof.
  intros w fs.
  apply (energies_do_not_depend_on_fragment_order w fs).
  - cbn [F fadd Qc_scalar]. intros. ring.
  - cbn [F fsub Qc_scalar]. intros. ring.
  - apply perm_swap.
Defined.

(** X18 at the sample engine with the bound [0]. *)
Lemma vp_handler_starts_from_zero_potential_witness :
  exists newer,
    log (final (vp_handler "dd" (Q2Qc (1 # 2)) 0 (Q2Qc 0) None true true
                           Sample.engine))
    = newer ++ solved_with 2 (zeros2 2 2) (zeros2 2 2) ++ log Sample.engine.
Proof.
  apply (@vp_handler_starts_from_zero_potential Qc_scalar Qc_collaborators "dd" (Q2Qc (1 # 2)) 0%Z (Q2Qc 0) true true Sample.engine).
  lia.
Defined.

(** X19 at the sample engine with the bound [1]. *)
Lemma stored_potential_has_basis_shape_witness :
  let o := vp_handler "dd" (Q2Qc (1 # 2)) 1 (Q2Qc 0) None false false
                      Sample.engine in
  o = Raise MaxIterationsExceeded (final o) /\
  exists va vb,
    vp (obj (final o)) = Some (va, vb) /\
    has_shape 2 2 va /\ has_shape 2 2 vb.
Proof.
  intros o.
  assert (H : o = Raise MaxIterationsExceeded (final o)).
  { apply raised_final. vm_compute. reflexivity. }
  split; [exact H|].
  apply (@stored_potential_has_basis_shape Qc_scalar Qc_collaborators "dd" (Q2Qc (1 # 2)) 1%Z (Q2Qc 0) false false Sample.engine (final o)).
  - lia.
  - exact H.
Defined.
